(** * logical.algebra: structures, fields, axiom predicates, canonical forms

    A shallow embedding of [algebra/structure.py], [algebra/functions.py]
    and [algebra/canonical.py].  Python exceptions are an explicit error
    type, the Python [set] of carrier values is a [gset Z], the [_elements]
    dictionary is a [gmap Z Element], and every method is a function in the
    error monad [result]. *)

From Stdlib Require Import ZArith Znumtheory Zpow_facts Lia.
From stdpp Require Import base numbers list gmap strings sorting pretty.

Local Open Scope Z_scope.

(** ** Exceptions and the error monad *)

Inductive exn : Set :=
  | ValueError | AttributeError | TypeError | ZeroDivisionError | KeyError.

Inductive result (A : Type) : Type :=
  | Ok (a : A)
  | Raise (e : exn).
Arguments Ok {A} a.
Arguments Raise {A} e.

Definition bind {A B : Type} (m : result A) (k : A → result B) : result B :=
  match m with
  | Ok a => k a
  | Raise e => Raise e
  end.

Notation "'do' x <- m ; k" := (bind m (fun x => k))
  (at level 10, x name, m at level 100, k at level 200).

(** [all(p(a) for a in l)]: stops at the first falsy item. *)
Fixpoint all_m {A : Type} (p : A → result bool) (l : list A) : result bool :=
  match l with
  | [] => Ok true
  | a :: l' => do b <- p a; if b then all_m p l' else Ok false
  end.

(** [next((a for a in l if p(a)), None)]. *)
Fixpoint next_m {A : Type} (p : A → result bool) (l : list A)
  : result (option A) :=
  match l with
  | [] => Ok None
  | a :: l' => do b <- p a; if b then Ok (Some a) else next_m p l'
  end.

(** A comprehension [(f(a) for a in l)] consumed to the end. *)
Fixpoint map_m {A B : Type} (f : A → result B) (l : list A)
  : result (list B) :=
  match l with
  | [] => Ok []
  | a :: l' => do b <- f a; do bs <- map_m f l'; Ok (b :: bs)
  end.

(** Integer [%] and [//]: a zero divisor raises, otherwise the result has
    the sign of the divisor (floor division). *)
Definition py_mod (a b : Z) : result Z :=
  if b =? 0 then Raise ZeroDivisionError else Ok (a `mod` b).

Definition py_floordiv (a b : Z) : result Z :=
  if b =? 0 then Raise ZeroDivisionError else Ok (a `div` b).

(** ** Data model *)

(** The dataclass fields of [Structure]. *)
Record Structure : Type := {
  name : string;
  set : gset Z;
  add : Z → Z → result Z;
  mul : Z → Z → result Z;
  inv : Z → result Z
}.

(** The dataclass fields of [Field]. *)
Record Field : Type := {
  F_name : string;
  ord : Z;
  F_add : Z → Z → result Z;
  F_mul : Z → Z → result Z
}.

(** The [instance] an element class closes over. *)
Inductive Instance : Type :=
  | OfStructure (s : Structure)
  | OfField (f : Field).

Record Element : Type := {
  instance : Instance;
  value : Z
}.

(** The values that flow through the algebra code: an element, the
    [float('nan')] sentinel of a missing identity or inverse, and [None]. *)
Inductive PyVal : Type :=
  | VElem (e : Element)
  | VNaN
  | VNone.

(** ** Element methods *)

(** [__hash__], [__bool__], [__lt__]: functions of [self.value] alone. *)
Definition El_hash (x : Element) : Z := value x.
Definition El_bool (x : Element) : bool := negb (value x =? 0).

(** [other.value]: only elements have the attribute. *)
Definition get_value (other : PyVal) : result Z :=
  match other with
  | VElem y => Ok (value y)
  | VNaN | VNone => Raise AttributeError
  end.

Definition El_eq (x : Element) (other : PyVal) : result bool :=
  do v <- get_value other; Ok (value x =? v).

Definition El_lt (x : Element) (other : PyVal) : result bool :=
  do v <- get_value other; Ok (value x <? v).

(** [Element(v)] inside the class of [x]: a Structure element stores [v],
    a Field element stores [v % instance.ord]. *)
Definition El_make (i : Instance) (v : Z) : result Element :=
  match i with
  | OfStructure s => Ok {| instance := i; value := v |}
  | OfField f => do r <- py_mod v (ord f); Ok {| instance := i; value := r |}
  end.

Definition instance_add (i : Instance) : Z → Z → result Z :=
  match i with OfStructure s => add s | OfField f => F_add f end.

Definition instance_mul (i : Instance) : Z → Z → result Z :=
  match i with OfStructure s => mul s | OfField f => F_mul f end.

Definition El_add (x : Element) (other : PyVal) : result Element :=
  do w <- get_value other;
  do v <- instance_add (instance x) (value x) w;
  El_make (instance x) v.

Definition El_mul (x : Element) (other : PyVal) : result Element :=
  do w <- get_value other;
  do v <- instance_mul (instance x) (value x) w;
  El_make (instance x) v.

(** ** Operators on arbitrary values *)

(** [a == b].  A float or [None] on the left answers [NotImplemented] for an
    element on the right, so the element's reflected [__eq__] runs and
    fails on the missing [value] attribute; [nan] equals nothing. *)
Definition py_eq (a b : PyVal) : result bool :=
  match a, b with
  | VElem x, _ => El_eq x b
  | _, VElem y => El_eq y a
  | VNone, VNone => Ok true
  | _, _ => Ok false
  end.

(** [a != b]: no [__ne__] is defined, the default inverts [__eq__]. *)
Definition py_ne (a b : PyVal) : result bool :=
  do r <- py_eq a b; Ok (negb r).

(** [a * b] and [a + b]: an element on the left dispatches to its method;
    a float with an element or [None] is a [TypeError] (the element class
    has no reflected operators); [None] supports neither. *)
Definition py_mul (a b : PyVal) : result PyVal :=
  match a, b with
  | VElem x, _ => do r <- El_mul x b; Ok (VElem r)
  | VNaN, VNaN => Ok VNaN
  | _, _ => Raise TypeError
  end.

Definition py_add (a b : PyVal) : result PyVal :=
  match a, b with
  | VElem x, _ => do r <- El_add x b; Ok (VElem r)
  | VNaN, VNaN => Ok VNaN
  | _, _ => Raise TypeError
  end.

(** [bool(v)]. *)
Definition truthy (v : PyVal) : bool :=
  match v with
  | VElem x => El_bool x
  | VNaN => true
  | VNone => false
  end.

(** A value as the interpreter prints it: without its owner. *)
Inductive Repr : Set :=
  | RElem (v : Z)
  | RNaN
  | RNone.

Definition repr (v : PyVal) : Repr :=
  match v with
  | VElem e => RElem (value e)
  | VNaN => RNaN
  | VNone => RNone
  end.

(** ** Identity discovery *)

Definition find_additive_identity (elements : list Element)
  : result (option Element) :=
  next_m (fun x =>
            all_m (fun y => do s <- El_add x (VElem y); El_eq s (VElem y))
                  elements)
         elements.

Definition find_multiplicative_identity (elements : list Element)
  : result (option Element) :=
  next_m (fun x =>
            all_m (fun y => do s <- El_mul x (VElem y); El_eq s (VElem y))
                  elements)
         elements.

(** ** Constructed objects

    A constructed [Structure] or [Field] is its dataclass fields together
    with what [__post_init__] stores: the [_elements] dictionary and the
    attributes [identity_add] and [identity_mul], each present only when the
    search found an identity. *)

Record StructureObj : Type := {
  S_self : Structure;
  S__elements : gmap Z Element;
  S_identity_add : option Element;
  S_identity_mul : option Element
}.

Record FieldObj : Type := {
  F_self : Field;
  F__elements : gmap Z Element;
  F_identity_add : option Element;
  F_identity_mul : option Element
}.

(** [{k: f(k) for k in keys}]; the keys are distinct wherever it is
    used. *)
Fixpoint dict_comp (f : Z → result Element) (keys : list Z)
  : result (gmap Z Element) :=
  match keys with
  | [] => Ok ∅
  | k :: keys' => do v <- f k; do m <- dict_comp f keys'; Ok (<[k := v]> m)
  end.

(** [set(d.values())]: the elements, in the enumeration order of the map.
    The iteration order of a Python set is unspecified as well; the
    properties proved for every object do not depend on it. *)
Definition dict_values (d : gmap Z Element) : list Element :=
  (map_to_list d).*2.

Definition S_generate_element (s : Structure) (v : Z) : result Element :=
  if decide (v ∈ set s)
  then Ok {| instance := OfStructure s; value := v |}
  else Raise ValueError.

Definition F_generate_element (f : Field) (v : Z) : result Element :=
  El_make (OfField f) v.

Definition Structure_post_init (s : Structure) : result StructureObj :=
  do els <- dict_comp (S_generate_element s) (elements (set s));
  do id_add <- find_additive_identity (dict_values els);
  do id_mul <- find_multiplicative_identity (dict_values els);
  Ok {| S_self := s; S__elements := els;
        S_identity_add := id_add; S_identity_mul := id_mul |}.

(** [range(n)]. *)
Definition range (n : Z) : list Z := seqZ 0 n.

Definition Field_post_init (f : Field) : result FieldObj :=
  do els <- dict_comp (F_generate_element f) (range (ord f));
  do id_add <- find_additive_identity (dict_values els);
  do id_mul <- find_multiplicative_identity (dict_values els);
  Ok {| F_self := f; F__elements := els;
        F_identity_add := id_add; F_identity_mul := id_mul |}.

(** What the axiom predicates and the canonical forms use of their
    [struct] argument, which is either kind of object. *)
Class StructLike (T : Type) : Type := {
  struct_elements : T → list Element;
  identity_add : T → option Element;
  identity_mul : T → option Element
}.

#[export] Instance StructureObj_like : StructLike StructureObj := {|
  struct_elements o := dict_values (S__elements o);
  identity_add := S_identity_add;
  identity_mul := S_identity_mul
|}.

#[export] Instance FieldObj_like : StructLike FieldObj := {|
  struct_elements o := dict_values (F__elements o);
  identity_add := F_identity_add;
  identity_mul := F_identity_mul
|}.

(** [sorted(l)] on elements: [__lt__] compares values; ascending, stable. *)
Definition El_le (x y : Element) : Prop := value x ≤ value y.

#[export] Instance El_le_dec : RelDecision El_le :=
  λ x y, decide (value x ≤ value y).

Definition sorted (l : list Element) : list Element := merge_sort El_le l.

(** [itertools.product(l, repeat=n)], first component slowest. *)
Fixpoint product {A : Type} (l : list A) (n : nat) : list (list A) :=
  match n with
  | O => [[]]
  | S n' => x ← l; t ← product l n'; [x :: t]
  end.

Section StructLikeMethods.
Context {T : Type} `{StructLike T}.

(** [getattr(self, 'identity_add', float('nan'))]. *)
Definition getattr_identity (a : option Element) : PyVal :=
  match a with
  | Some e => VElem e
  | None => VNaN
  end.

(** [__getitem__]. *)
Definition getitem (o : T) (identity : Z) : result PyVal :=
  if identity =? 0 then Ok (getattr_identity (identity_add o))
  else if identity =? 1 then Ok (getattr_identity (identity_mul o))
  else Raise ValueError.

(** [self.identity_add] read as a plain attribute. *)
Definition attr_identity (a : option Element) : result Element :=
  match a with
  | Some e => Ok e
  | None => Raise AttributeError
  end.

Definition operands (o : T) (n : nat) : list (list Element) :=
  product (sorted (struct_elements o)) n.
End StructLikeMethods.

(** [Structure.__call__]. *)
Definition S_call (o : StructureObj) (v : Z) : result Element :=
  match S__elements o !! v with
  | Some e => Ok e
  | None => Raise ValueError
  end.

(** [Field.__call__]: [self._elements[value % self.ord]]. *)
Definition F_call (o : FieldObj) (v : Z) : result Element :=
  do k <- py_mod v (ord (F_self o));
  match F__elements o !! k with
  | Some e => Ok e
  | None => Raise KeyError
  end.

(** ** Field methods *)

Definition from_next (r : option Element) (default : PyVal) : PyVal :=
  match r with
  | Some el => VElem el
  | None => default
  end.

(** [Field.add_inv]. *)
Definition add_inv (o : FieldObj) (other : PyVal) : result PyVal :=
  do zero <- getitem o 0;
  do b <- py_eq other zero;
  if b then Ok other
  else
    do default <- getitem o 0;
    do r <- next_m (fun el => do s <- py_add other (VElem el);
                              do zero' <- getitem o 0;
                              py_eq s zero')
                   (struct_elements o);
    Ok (from_next r default).

(** [Field.mul_inv]. *)
Definition mul_inv (o : FieldObj) (other : PyVal) : result PyVal :=
  do zero <- getitem o 0;
  do b <- py_eq other zero;
  if b then Ok VNaN
  else
    do one <- getitem o 1;
    do b' <- py_eq other one;
    if b' then Ok other
    else
      do default <- getitem o 1;
      do r <- next_m (fun el => do p <- py_mul other (VElem el);
                                do one' <- getitem o 1;
                                py_eq p one')
                     (struct_elements o);
      Ok (from_next r default).

(** [base in {self[0], self[1]}]: membership of an element in a set goes
    by hash, then [==]; a [nan] entry hashes by identity and is never
    compared with the element. *)
Definition has_value (v : Z) (a : PyVal) : bool :=
  match a with
  | VElem e => value e =? v
  | VNaN | VNone => false
  end.

Definition in_pair (base : Element) (a b : PyVal) : bool :=
  has_value (value base) a || has_value (value base) b.

(** The [while exp:] loop of [Field.pow], by recursion on the bits of the
    positive exponent, least significant first:
    [if exp & 1: res *= base];  [exp >>= 1];  [base *= base]. *)
Fixpoint pow_loop (res : PyVal) (base : Element) (exp : positive)
  : result PyVal :=
  match exp with
  | xH =>
      do res' <- py_mul res (VElem base);
      do base' <- El_mul base (VElem base);
      Ok res'
  | xO exp' =>
      do base' <- El_mul base (VElem base);
      pow_loop res base' exp'
  | xI exp' =>
      do res' <- py_mul res (VElem base);
      do base' <- El_mul base (VElem base);
      pow_loop res' base' exp'
  end.

(** [Field.pow] from its second line on, where [exp >= 0]. *)
Definition pow_nonneg (o : FieldObj) (base : Element) (exp : N)
  : result PyVal :=
  if decide (ord (F_self o) = 0 ∨ ord (F_self o) = 1) then getitem o 0
  else
    match exp with
    | N0 => getitem o 1
    | Npos p =>
        do zero <- getitem o 0;
        do one <- getitem o 1;
        if in_pair base zero one then Ok (VElem base)
        else
          do res <- getitem o 1;
          pow_loop res base p
    end.

(** [Field.pow]: a negative exponent re-enters with [-exp > 0]. *)
Definition pow (o : FieldObj) (base : Element) (exp : Z) : result PyVal :=
  match exp with
  | Zneg p => do r <- pow_nonneg o base (Npos p); mul_inv o r
  | Z0 => pow_nonneg o base N0
  | Zpos p => pow_nonneg o base (Npos p)
  end.

(** [Element.__neg__]: a Structure element applies [instance.inv]; a Field
    element calls [instance.add_inv(self)], where the instance is the object
    its fields construct. *)
Definition El_neg (x : Element) : result PyVal :=
  match instance x with
  | OfStructure s =>
      do v <- inv s (value x);
      Ok (VElem {| instance := OfStructure s; value := v |})
  | OfField f =>
      do o <- Field_post_init f;
      add_inv o (VElem x)
  end.

(** ** Instances defined by the module *)

(** The gates are wrapped by the decorator [cast] of the external package
    [utils.decorating]; the doctests of the gates ([NAND(0, 0)] is [1]) and
    of the tables of [B] fix what it does on integers: the Python result of
    the gate body is returned as an [int]. *)
Definition int_of_bool (b : bool) : Z := if b then 1 else 0.

(** [a or b], [a and b] and [not a] on integers. *)
Definition OR (a b : Z) : result Z := Ok (if a =? 0 then b else a).
Definition AND (a b : Z) : result Z := Ok (if a =? 0 then a else b).
Definition NOT (a : Z) : result Z := Ok (int_of_bool (a =? 0)).

(** [CONTRADICTION(a, b)] returns [False]; [NOR(a, b)] is [not (a or b)]. *)
Definition CONTRADICTION (a b : Z) : result Z := Ok (int_of_bool false).
Definition NOR (a b : Z) : result Z :=
  Ok (int_of_bool ((if a =? 0 then b else a) =? 0)).

Definition Structure_new (name : string) (set : gset Z)
    (add mul : Z → Z → result Z) (inv : Z → result Z) : result StructureObj :=
  Structure_post_init
    {| name := name; set := set; add := add; mul := mul; inv := inv |}.

Definition Field_new (name : string) (ord : Z)
    (add mul : Z → Z → result Z) : result FieldObj :=
  Field_post_init
    {| F_name := name; ord := ord; F_add := add; F_mul := mul |}.

Definition B : result StructureObj := Structure_new "B" {[0; 1]} OR AND NOT.

(** [math.isqrt], [math.lcm], [math.gcd]. *)
Definition isqrt (n : Z) : result Z :=
  if n <? 0 then Raise ValueError else Ok (Z.sqrt n).
Definition lcm (a b : Z) : result Z := Ok (Z.lcm a b).
Definition gcd (a b : Z) : result Z := Ok (Z.gcd a b).

(** [{i for k in range(1, r + 1) if not n % k for i in {k, n // k}}]. *)
Definition divisors (n r : Z) : gset Z :=
  list_to_set (k ← seqZ 1 r;
               if decide (n `mod` k = 0) then [k; n `div` k] else []).

Definition D (n : Z) : result StructureObj :=
  do r <- isqrt n;
  Structure_new ("D" +:+ pretty n) (divisors n r) lcm gcd
                (fun divisor => py_floordiv n divisor).

(** [operator.add], [operator.mul] on integers. *)
Definition operator_add (a b : Z) : result Z := Ok (a + b).
Definition operator_mul (a b : Z) : result Z := Ok (a * b).

Definition GF2 := Field_new "GF2" 2 operator_add operator_mul.
Definition GF3 := Field_new "GF3" 3 operator_add operator_mul.
Definition GF5 := Field_new "GF5" 5 operator_add operator_mul.
Definition GF7 := Field_new "GF7" 7 operator_add operator_mul.
Definition GF11 := Field_new "GF11" 11 operator_add operator_mul.
Definition GF13 := Field_new "GF13" 13 operator_add operator_mul.
Definition GF17 := Field_new "GF17" 17 operator_add operator_mul.
Definition GF19 := Field_new "GF19" 19 operator_add operator_mul.

(** ** Axiom predicates ([algebra/functions.py]) *)

Section Predicates.
Context {T : Type} `{StructLike T}.

(** [x + y == y + x and x * y == y * x]. *)
Definition commutes (x y : Element) : result bool :=
  do a <- El_add x (VElem y);
  do b <- El_add y (VElem x);
  do c <- El_eq a (VElem b);
  if c then
    do a' <- El_mul x (VElem y);
    do b' <- El_mul y (VElem x);
    El_eq a' (VElem b')
  else Ok false.

Definition is_commutative (struct : T) : result bool :=
  all_m (fun t => match t with
                  | [x; y] => commutes x y
                  | _ => Raise ValueError
                  end)
        (operands struct 2).

(** [x * (y + z) == (x * y) + (x * z) and x + (y * z) == (x + y) * (x + z)]. *)
Definition distributes (x y z : Element) : result bool :=
  do yz <- El_add y (VElem z);
  do l <- El_mul x (VElem yz);
  do xy <- El_mul x (VElem y);
  do xz <- El_mul x (VElem z);
  do r <- El_add xy (VElem xz);
  do c <- El_eq l (VElem r);
  if c then
    do yz' <- El_mul y (VElem z);
    do l' <- El_add x (VElem yz');
    do xy' <- El_add x (VElem y);
    do xz' <- El_add x (VElem z);
    do r' <- El_mul xy' (VElem xz');
    El_eq l' (VElem r')
  else Ok false.

Definition is_distributive (struct : T) : result bool :=
  all_m (fun t => match t with
                  | [x; y; z] => distributes x y z
                  | _ => Raise ValueError
                  end)
        (operands struct 3).

(** [v is not None]. *)
Definition is_not_None (v : PyVal) : bool :=
  match v with
  | VNone => false
  | VElem _ | VNaN => true
  end.

(** [struct[0] is not None and struct[1] is not None]. *)
Definition has_identities (struct : T) : result bool :=
  do zero <- getitem struct 0;
  if is_not_None zero then
    do one <- getitem struct 1;
    Ok (is_not_None one)
  else Ok false.

(** [x + -x == struct[1] and x * -x == struct[0]]. *)
Definition complements (struct : T) (x : Element) : result bool :=
  do nx <- El_neg x;
  do s <- El_add x nx;
  do one <- getitem struct 1;
  do c <- El_eq s one;
  if c then
    do nx' <- El_neg x;
    do p <- El_mul x nx';
    do zero <- getitem struct 0;
    El_eq p zero
  else Ok false.

Definition is_complementary (struct : T) : result bool :=
  all_m (complements struct) (struct_elements struct).

Definition is_boolean_algebraic (struct : T) : result bool :=
  do c <- is_commutative struct;
  if c then
    do d <- is_distributive struct;
    if d then
      do i <- has_identities struct;
      if i then is_complementary struct else Ok false
    else Ok false
  else Ok false.

(** One item of the generator of [no_zero_dividers]: a pair that fails the
    [if a != struct[0] and b != struct[0]] filter contributes nothing to
    [all], which is what [true] does. *)
Definition no_zero_divider (struct : T) (a b : Element) : result bool :=
  do zero <- getitem struct 0;
  do ca <- py_ne (VElem a) zero;
  if ca then
    do zero' <- getitem struct 0;
    do cb <- py_ne (VElem b) zero';
    if cb then
      do p <- El_mul a (VElem b);
      do zero'' <- getitem struct 0;
      py_ne (VElem p) zero''
    else Ok true
  else Ok true.

Definition no_zero_dividers (struct : T) : result bool :=
  all_m (fun t => match t with
                  | [a; b] => no_zero_divider struct a b
                  | _ => Raise ValueError
                  end)
        (operands struct 2).

(** [prime_power] comes from the external package [math_utils] and is a
    parameter here. *)
Definition is_finite_field (prime_power : nat → Z * Z) (struct : T)
  : result bool :=
  if decide (prime_power (length (struct_elements struct)) = (0, 0))
  then Ok false
  else
    do c <- is_commutative struct;
    if c then
      do i <- has_identities struct;
      if i then no_zero_dividers struct else Ok false
    else Ok false.
End Predicates.

(** ** Canonical forms ([algebra/canonical.py]) *)

(** A formula: its parameter names, as [inspect.signature] shows them, and
    the truth value [bool(formula( *operands))] of its result, the only use
    the canonical forms make of it. *)
Record Formula : Type := {
  parameters : list string;
  apply : list Element → result bool
}.

Record CanonicalForm (T : Type) : Type := {
  struct : T;
  formula : Formula
}.
Arguments struct {T} _.
Arguments formula {T} _.

Section Canonical.
Context {T : Type} `{StructLike T}.

Definition arity (cf : CanonicalForm T) : nat :=
  length (parameters (formula cf)).

(** [DNF.__iter__], consumed to the end. *)
Fixpoint minterms (f : list Element → result bool)
    (rows : list (list Element)) : result (list (list Element)) :=
  match rows with
  | [] => Ok []
  | operands :: rows' =>
      do b <- f operands;
      do rest <- minterms f rows';
      Ok (if b then operands :: rest else rest)
  end.

Definition DNF_iter (cf : CanonicalForm T) : result (list (list Element)) :=
  minterms (apply (formula cf)) (operands (struct cf) (arity cf)).

(** [CNF.__iter__], consumed to the end. *)
Fixpoint maxterms (f : list Element → result bool)
    (rows : list (list Element)) : result (list (list PyVal)) :=
  match rows with
  | [] => Ok []
  | operands :: rows' =>
      do b <- f operands;
      if b then maxterms f rows'
      else
        do term <- map_m El_neg operands;
        do rest <- maxterms f rows';
        Ok (term :: rest)
  end.

Definition CNF_iter (cf : CanonicalForm T) : result (list (list PyVal)) :=
  maxterms (apply (formula cf)) (operands (struct cf) (arity cf)).

(** [prod(ops, start=acc)] and [sum(ops, start=acc)]. *)
Fixpoint prod (acc : Element) (ops : list PyVal) : result Element :=
  match ops with
  | [] => Ok acc
  | op :: ops' => do acc' <- El_mul acc op; prod acc' ops'
  end.

Fixpoint sum (acc : Element) (ops : list PyVal) : result Element :=
  match ops with
  | [] => Ok acc
  | op :: ops' => do acc' <- El_add acc op; sum acc' ops'
  end.

(** The outer [sum] of [DNF.__call__] pulling the generator row by row:
    the formula is evaluated, and for a minterm [identity_mul] is read,
    the product is taken and added to the running total. *)
Fixpoint DNF_sum (cf : CanonicalForm T) (acc : Element)
    (rows : list (list Element)) : result Element :=
  match rows with
  | [] => Ok acc
  | operands :: rows' =>
      do b <- apply (formula cf) operands;
      if b then
        do one <- attr_identity (identity_mul (struct cf));
        do p <- prod one (VElem <$> operands);
        do acc' <- El_add acc (VElem p);
        DNF_sum cf acc' rows'
      else DNF_sum cf acc rows'
  end.

(** [DNF.__call__]: the [start] argument is evaluated before the first
    row is pulled. *)
Definition DNF_call (cf : CanonicalForm T) : result Element :=
  do zero <- attr_identity (identity_add (struct cf));
  DNF_sum cf zero (operands (struct cf) (arity cf)).

Fixpoint CNF_prod (cf : CanonicalForm T) (acc : Element)
    (rows : list (list Element)) : result Element :=
  match rows with
  | [] => Ok acc
  | operands :: rows' =>
      do b <- apply (formula cf) operands;
      if b then CNF_prod cf acc rows'
      else
        do term <- map_m El_neg operands;
        do zero <- attr_identity (identity_add (struct cf));
        do s <- sum zero term;
        do acc' <- El_mul acc (VElem s);
        CNF_prod cf acc' rows'
  end.

(** [CNF.__call__]. *)
Definition CNF_call (cf : CanonicalForm T) : result Element :=
  do one <- attr_identity (identity_mul (struct cf));
  CNF_prod cf one (operands (struct cf) (arity cf)).
End Canonical.

(** [DNF(struct, formula)] and [CNF(struct, formula)] share the fields. *)
Definition DNF {T : Type} (s : T) (f : Formula) : CanonicalForm T :=
  {| struct := s; formula := f |}.
Definition CNF {T : Type} (s : T) (f : Formula) : CanonicalForm T :=
  {| struct := s; formula := f |}.

(** The formula of the first doctest: [lambda x, y, z: -(x + y + z)]. *)
Definition nor3 : Formula := {|
  parameters := ["x"; "y"; "z"]%string;
  apply ops :=
    match ops with
    | [x; y; z] =>
        do xy <- El_add x (VElem y);
        do xyz <- El_add xy (VElem z);
        do r <- El_neg xyz;
        Ok (truthy r)
    | _ => Raise TypeError
    end
|}.

(** ** Either kind of constructed object *)

Inductive Algebra : Type :=
  | AStructure (o : StructureObj)
  | AField (o : FieldObj).

(** The object is what the constructor returns for its fields. *)
Definition constructed (a : Algebra) : Prop :=
  match a with
  | AStructure o => Structure_post_init (S_self o) = Ok o
  | AField o => Field_post_init (F_self o) = Ok o
  end.

(** The carrier values: the declared [set], or [range(ord)]. *)
Definition carrier (a : Algebra) (v : Z) : Prop :=
  match a with
  | AStructure o => v ∈ set (S_self o)
  | AField o => 0 ≤ v < ord (F_self o)
  end.

(** [a(v)]. *)
Definition call (a : Algebra) (v : Z) : result Element :=
  match a with
  | AStructure o => S_call o v
  | AField o => F_call o v
  end.

(** Its negation, [lambda x, y, z: x + y + z]. *)
Definition or3 : Formula := {|
  parameters := ["x"; "y"; "z"]%string;
  apply ops :=
    match ops with
    | [x; y; z] =>
        do xy <- El_add x (VElem y);
        do xyz <- El_add xy (VElem z);
        Ok (El_bool xyz)
    | _ => Raise TypeError
    end
|}.

(** [lambda x: x + -x] and [lambda x: x * -x], the complement laws the
    doctests tabulate. *)
Definition excluded_middle : Formula := {|
  parameters := ["x"]%string;
  apply ops :=
    match ops with
    | [x] => do nx <- El_neg x; do r <- El_add x nx; Ok (El_bool r)
    | _ => Raise TypeError
    end
|}.

Definition non_contradiction : Formula := {|
  parameters := ["x"]%string;
  apply ops :=
    match ops with
    | [x] => do nx <- El_neg x; do r <- El_mul x nx; Ok (El_bool r)
    | _ => Raise TypeError
    end
|}.

(** ** What the claims speak about *)

(** [r in elements] for a set of elements goes by hash and [==], that is,
    by value. *)
Definition El_in (r : Element) (els : list Element) : Prop :=
  value r ∈ (value <$> els).

Section Semantics.
Context {T : Type} `{StructLike T}.

(** [e + x == x] for every element [x], and the same for [*]. *)
Definition is_additive_identity (o : T) (e : Element) : Prop :=
  ∀ x, x ∈ struct_elements o →
       ∃ r, El_add e (VElem x) = Ok r ∧ value r = value x.

Definition is_multiplicative_identity (o : T) (e : Element) : Prop :=
  ∀ x, x ∈ struct_elements o →
       ∃ r, El_mul e (VElem x) = Ok r ∧ value r = value x.

Definition possesses_identities (o : T) : Prop :=
  (∃ e, e ∈ struct_elements o ∧ is_additive_identity o e) ∧
  (∃ e, e ∈ struct_elements o ∧ is_multiplicative_identity o e).

(** The operators never fail on elements and stay in the element set. *)
Definition closed (o : T) : Prop :=
  ∀ x y, x ∈ struct_elements o → y ∈ struct_elements o →
    (∃ r, El_add x (VElem y) = Ok r ∧ El_in r (struct_elements o)) ∧
    (∃ r, El_mul x (VElem y) = Ok r ∧ El_in r (struct_elements o)) ∧
    (∃ r, El_neg x = Ok (VElem r) ∧ El_in r (struct_elements o)).

(** The same check, run. *)
Definition in_values (els : list Element) (r : result Element) : bool :=
  match r with
  | Ok e => bool_decide (value e ∈ (value <$> els))
  | Raise _ => false
  end.

Definition neg_in_values (els : list Element) (r : result PyVal) : bool :=
  match r with
  | Ok (VElem e) => bool_decide (value e ∈ (value <$> els))
  | _ => false
  end.

Definition closedb (o : T) : bool :=
  forallb (fun x =>
    neg_in_values (struct_elements o) (El_neg x) &&
    forallb (fun y =>
      in_values (struct_elements o) (El_add x (VElem y)) &&
      in_values (struct_elements o) (El_mul x (VElem y)))
      (struct_elements o))
    (struct_elements o).
End Semantics.

(** [Structure('Z', {0, 1}, CONTRADICTION, CONTRADICTION, NOT)]: closed
    operations, and neither an additive nor a multiplicative identity. *)
Definition no_identity : result StructureObj :=
  Structure_new "Z" {[0; 1]} CONTRADICTION CONTRADICTION NOT.

(** Fields of the degenerate orders that [Field.pow] singles out. *)
Definition Z1 : result FieldObj := Field_new "Z1" 1 operator_add operator_mul.
Definition Z0 : result FieldObj := Field_new "Z0" 0 operator_add operator_mul.

(** The fields [D(n)] passes to [Structure] once [isqrt(n)] is known. *)
Definition D_fields (n : Z) : Structure :=
  {| name := "D" +:+ pretty n;
     set := divisors n (Z.sqrt n);
     add := lcm;
     mul := gcd;
     inv := fun divisor => py_floordiv n divisor |}.

(** [-v] on an arbitrary value: a float negates to a float, [None] has no
    negation. *)
Definition py_neg (v : PyVal) : result PyVal :=
  match v with
  | VElem x => El_neg x
  | VNaN => Ok VNaN
  | VNone => Raise TypeError
  end.

(** The element [B(v)] of the Boolean structure. *)
Definition Bel (v : Z) : Element :=
  {| instance := OfStructure {| name := "B"; set := {[0; 1]};
                                add := OR; mul := AND; inv := NOT |};
     value := v |}.

(** The truth value a formula takes on a row, when it returns one. *)
Definition truth (f : Formula) (t : list Element) : bool :=
  match apply f t with
  | Ok r => r
  | Raise _ => false
  end.

(** A row of ones and zeros with every component one. *)
Definition all_ones (t : list Element) : bool :=
  forallb (fun e => value e =? 1) t.

(** The componentwise complement of a row of [B]. *)
Definition complement (t : list Element) : list PyVal :=
  (fun e => VElem (Bel (int_of_bool (value e =? 0)))) <$> t.

(** A row of [B]: each component is [B(0)] or [B(1)]. *)
Definition B_row (t : list Element) : Prop :=
  Forall (fun e => e ∈ [Bel 0; Bel 1]) t.

(** A row of elements as a row of values. *)
Definition row_values (t : list Element) : list PyVal := VElem <$> t.

(** The fields [Field(name, n, operator.add, operator.mul)] of the integers
    modulo [n], of which the predefined Galois fields are instances, and the
    element of value [k] of such a field. *)
Definition Zmod_fields (name : string) (n : Z) : Field :=
  {| F_name := name; ord := n; F_add := operator_add; F_mul := operator_mul |}.

Definition Zmod_el (name : string) (n k : Z) : Element :=
  {| instance := OfField (Zmod_fields name n); value := k |}.

(** ** Further methods of the objects *)

(** [Structure.__iter__] and [Field.__iter__]: the keys of [_elements]. *)
Definition S_iter (o : StructureObj) : list Z :=
  (map_to_list (S__elements o)).*1.
Definition F_iter (o : FieldObj) : list Z :=
  (map_to_list (F__elements o)).*1.

(** [bind]: [lambda *args: formula( *map(self.__call__, args))].  The
    unpacking consumes the [map] before the formula is called. *)
Definition S_bind {A : Type} (o : StructureObj)
    (formula : list Element → result A) (args : list Z) : result A :=
  do els <- map_m (S_call o) args; formula els.

Definition F_bind {A : Type} (o : FieldObj)
    (formula : list Element → result A) (args : list Z) : result A :=
  do els <- map_m (F_call o) args; formula els.

(** [Element.__pow__], which only the elements of a Field define. *)
Definition El_pow (x : Element) (exp : Z) : result PyVal :=
  match instance x with
  | OfStructure _ => Raise TypeError
  | OfField f => do o <- Field_post_init f; pow o x exp
  end.

(** What [__post_init__] promises about the stored identities. *)
Definition identities_correct {T : Type} `{StructLike T} (o : T) : Prop :=
  match identity_add o with
  | Some e => e ∈ struct_elements o ∧ is_additive_identity o e
  | None => ∀ e, e ∈ struct_elements o → ¬ is_additive_identity o e
  end ∧
  match identity_mul o with
  | Some e => e ∈ struct_elements o ∧ is_multiplicative_identity o e
  | None => ∀ e, e ∈ struct_elements o → ¬ is_multiplicative_identity o e
  end.

(** ** The laws the predicates test *)

(** Both sides evaluate without an exception and compare equal under
    [==]. *)
Definition El_equal (l r : result Element) : Prop :=
  ∃ a b, l = Ok a ∧ r = Ok b ∧ value a = value b.

Section Laws.
Context {T : Type} `{StructLike T}.

Definition commutative_law (o : T) : Prop :=
  ∀ x y, x ∈ struct_elements o → y ∈ struct_elements o →
    El_equal (El_add x (VElem y)) (El_add y (VElem x)) ∧
    El_equal (El_mul x (VElem y)) (El_mul y (VElem x)).

Definition distributive_law (o : T) : Prop :=
  ∀ x y z,
    x ∈ struct_elements o → y ∈ struct_elements o → z ∈ struct_elements o →
    El_equal (do yz <- El_add y (VElem z); El_mul x (VElem yz))
             (do xy <- El_mul x (VElem y);
              do xz <- El_mul x (VElem z);
              El_add xy (VElem xz)) ∧
    El_equal (do yz <- El_mul y (VElem z); El_add x (VElem yz))
             (do xy <- El_add x (VElem y);
              do xz <- El_add x (VElem z);
              El_mul xy (VElem xz)).

(** [x + -x] is the multiplicative and [x * -x] the additive identity,
    both of which exist. *)
Definition complement_law (o : T) : Prop :=
  ∀ x, x ∈ struct_elements o →
    ∃ zero one,
      identity_add o = Some zero ∧ identity_mul o = Some one ∧
      El_equal (do nx <- El_neg x; El_add x nx) (Ok one) ∧
      El_equal (do nx <- El_neg x; El_mul x nx) (Ok zero).

(** The additive identity exists and a product of two elements different
    from it is different from it. *)
Definition no_zero_divisor_law (o : T) : Prop :=
  ∀ a b, a ∈ struct_elements o → b ∈ struct_elements o →
    ∃ zero,
      identity_add o = Some zero ∧
      (value a ≠ value zero → value b ≠ value zero →
       ∃ p, El_mul a (VElem b) = Ok p ∧ value p ≠ value zero).
End Laws.

(** ** The order of the operand rows *)

(** Elements in strictly ascending value, and rows in lexicographic order
    of their values. *)
Definition El_lt_value (x y : Element) : Prop := value x < value y.

Inductive lex_lt : list Element → list Element → Prop :=
  | lex_head (x y : Element) (t t' : list Element) :
      value x < value y → lex_lt (x :: t) (y :: t')
  | lex_tail (x : Element) (t t' : list Element) :
      lex_lt t t' → lex_lt (x :: t) (x :: t').

(** ** The divisor structures *)

(** The element [Dn(d)] of [D(n)]. *)
Definition D_el (n d : Z) : Element :=
  {| instance := OfStructure (D_fields n); value := d |}.

(** No square other than [1] divides [n]. *)
Definition squarefree (n : Z) : Prop := ∀ k, 1 < k → ¬ (k * k | n).

(** The formula of the last doctest of [canonical.py]:
    [lambda x, y: (x + -y) * (-x + -y)]. *)
Definition bound_formula (ops : list Element) : result Element :=
  match ops with
  | [x; y] =>
      do ny <- El_neg y;
      do l <- El_add x ny;
      do nx <- El_neg x;
      do ny' <- El_neg y;
      do r <- py_add nx ny';
      El_mul l r
  | _ => Raise TypeError
  end.

(** ** Gates ([gates/unary.py], [gates/binary.py], [functional_complete/nand.py])

    The remaining gates, on integers as [OR], [AND] and [NOT] above:
    [x and y] is [x] when [x] is falsy and [y] otherwise, [x or y] is [x]
    when [x] is truthy and [y] otherwise, [not x] and the comparisons are
    Booleans, and the decorator returns the result as an [int]. *)
Module gates.

Definition ID (a : Z) : result Z := Ok a.

Definition A_NIMPLY_B (a b : Z) : result Z :=
  Ok (if a =? 0 then a else int_of_bool (b =? 0)).
Definition A (a b : Z) : result Z := Ok a.
Definition B_NIMPLY_A (a b : Z) : result Z :=
  Ok (if negb (a =? 0) then int_of_bool false else b).
Definition B (a b : Z) : result Z := Ok b.
Definition XOR (a b : Z) : result Z := Ok (int_of_bool (negb (a =? b))).
Definition XNOR (a b : Z) : result Z := Ok (int_of_bool (a =? b)).
Definition NOT_B (a b : Z) : result Z := Ok (int_of_bool (b =? 0)).
Definition B_IMPLY_A (a b : Z) : result Z :=
  Ok (if a =? 0 then int_of_bool (b =? 0) else a).
Definition NOT_A (a b : Z) : result Z := Ok (int_of_bool (a =? 0)).
Definition A_IMPLY_B (a b : Z) : result Z :=
  Ok (if a =? 0 then int_of_bool true else b).
Definition NAND (a b : Z) : result Z :=
  Ok (int_of_bool ((if a =? 0 then a else b) =? 0)).
Definition TAUTOLOGY (a b : Z) : result Z := Ok (int_of_bool true).

(** The dictionary [GATES]. *)
Definition GATES : gmap Z (Z → Z → result Z) :=
  list_to_map
    [(0, CONTRADICTION); (1, AND); (2, A_NIMPLY_B); (3, A);
     (4, B_NIMPLY_A); (5, B); (6, XOR); (7, OR);
     (8, NOR); (9, XNOR); (10, NOT_B); (11, B_IMPLY_A);
     (12, NOT_A); (13, A_IMPLY_B); (14, NAND); (15, TAUTOLOGY)].

(** [functional_complete/nand.py]: gates built from [NAND] alone. *)
Definition TNAND (a b c : Z) : result Z :=
  do x <- NAND a b;
  do xx <- NAND x x;
  NAND xx c.

Definition NAND_ID (a : Z) : result Z := NAND a a.
Definition NAND_NOT (a : Z) : result Z := NAND a a.
Definition NAND_CONTRADICTION (a b : Z) : result Z := Ok 0.

Definition NAND_AND (a b : Z) : result Z :=
  do x <- NAND a b;
  NAND x x.

Definition NAND_XOR (a b : Z) : result Z :=
  do x <- NAND a b;
  do l <- NAND a x;
  do r <- NAND x b;
  NAND l r.

Definition NAND_OR (a b : Z) : result Z :=
  do l <- NAND a a;
  do r <- NAND b b;
  NAND l r.

Definition NAND_NOR (a b : Z) : result Z :=
  do l <- NAND a a;
  do r <- NAND b b;
  do x <- NAND l r;
  NAND x x.

Definition NAND_XNOR (a b : Z) : result Z :=
  do x <- NAND a b;
  do l <- NAND a x;
  do r <- NAND x b;
  do y <- NAND l r;
  NAND y y.

Definition NAND_NAND (a b : Z) : result Z :=
  do x <- NAND a b;
  do y <- NAND x x;
  NAND y y.

Definition MUX (a b s : Z) : result Z :=
  do ns <- NAND s s;
  do l <- NAND a ns;
  do r <- NAND s b;
  NAND l r.

(** [DEMUX] returns the pair of its two outputs. *)
Definition DEMUX (a s : Z) : result (Z * Z) :=
  do ns <- NAND s s;
  do x <- NAND a ns;
  do y <- NAND a s;
  do o1 <- NAND x x;
  do o2 <- NAND y y;
  Ok (o1, o2).

End gates.

(** ** Rendering of the canonical forms ([algebra/canonical.py]) *)

(** [sep.join(l)]. *)
Definition join (sep : string) (l : list string) : string :=
  String.concat sep l.

(** The combining macron [U+0304], as its two bytes in UTF-8. *)
Definition macron : string :=
  String (Ascii.ascii_of_nat 204) (String (Ascii.ascii_of_nat 132) "").

(** ['%s%s' % (x, '' if op else macron)] and
    ['%s%s' % ('' if op else '-', x)], for the truth value of [op]. *)
Definition literal_str (x : string) (op : bool) : string :=
  x +:+ (if op then "" else macron).
Definition literal_ascii (x : string) (op : bool) : string :=
  (if op then "" else "-") +:+ x.

Section Rendering.
Context {T : Type} `{StructLike T}.

(** [DNF.__str__] and [DNF.ascii]: the operands are elements, whose truth
    value is [Element.__bool__]. *)
Definition DNF_str (cf : CanonicalForm T) : result string :=
  do terms <- DNF_iter cf;
  Ok (join "+"
        ((fun operands =>
            join "" (zip_with (fun x op => literal_str x (El_bool op))
                              (parameters (formula cf)) operands))
           <$> terms)).

Definition DNF_ascii (cf : CanonicalForm T) : result string :=
  do terms <- DNF_iter cf;
  Ok (join " + "
        ((fun operands =>
            join "*" (zip_with (fun x op => literal_ascii x (El_bool op))
                               (parameters (formula cf)) operands))
           <$> terms)).

(** [CNF.__str__] and [CNF.ascii]: the operands are the negated values. *)
Definition CNF_str (cf : CanonicalForm T) : result string :=
  do terms <- CNF_iter cf;
  Ok (join ""
        ((fun operands =>
            "(" +:+
            join "+" (zip_with (fun x op => literal_str x (truthy op))
                               (parameters (formula cf)) operands)
            +:+ ")")
           <$> terms)).

Definition CNF_ascii (cf : CanonicalForm T) : result string :=
  do terms <- CNF_iter cf;
  Ok (join " * "
        ((fun operands =>
            "(" +:+
            join "+" (zip_with (fun x op => literal_ascii x (truthy op))
                               (parameters (formula cf)) operands)
            +:+ ")")
           <$> terms)).
End Rendering.

(** The formulas of the second and third doctest of [canonical.py]:
    [lambda x, y, z: (-x + y + -z) * -z * x] and
    [lambda x, y, z: (x * (-y + z)) + -z]. *)
Definition doctest_formula_2 : Formula := {|
  parameters := ["x"; "y"; "z"]%string;
  apply ops :=
    match ops with
    | [x; y; z] =>
        do nx <- El_neg x;
        do a <- py_add nx (VElem y);
        do nz <- El_neg z;
        do b <- py_add a nz;
        do nz' <- El_neg z;
        do c <- py_mul b nz';
        do r <- py_mul c (VElem x);
        Ok (truthy r)
    | _ => Raise TypeError
    end
|}.

Definition doctest_formula_3 : Formula := {|
  parameters := ["x"; "y"; "z"]%string;
  apply ops :=
    match ops with
    | [x; y; z] =>
        do ny <- El_neg y;
        do a <- py_add ny (VElem z);
        do b <- El_mul x a;
        do nz <- El_neg z;
        do r <- El_add b nz;
        Ok (El_bool r)
    | _ => Raise TypeError
    end
|}.
(** * Properties *)

(** ** The doctests of the repository, replayed on the model *)

(** [doctest_functions]: [B] and [D(6)] are Boolean algebras; [D(8)] is
    commutative and distributive and has identities but is not
    complemented. *)
Example doctest_boolean_algebras :
  (do o <- B; is_boolean_algebraic o) = Ok true ∧
  (do o <- D 6; is_boolean_algebraic o) = Ok true ∧
  (do o <- D 8;
   do c <- is_commutative o;
   do d <- is_distributive o;
   do i <- has_identities o;
   do k <- is_complementary o;
   do b <- is_boolean_algebraic o;
   Ok (c, d, i, k, b)) = Ok (true, true, true, false, false) ∧
  (do o <- D 8; Ok (value <$> identity_add o, value <$> identity_mul o))
  = Ok (Some 1, Some 8).
Proof. repeat split; vm_compute; reflexivity. Qed.

(** [doctest_functions]: [Z7] is a finite field and [Z8] is not, with
    [prime_power] answering [(7, 1)] and [(2, 3)] for the two sizes. *)
Example doctest_finite_fields :
  (do o <- Field_new "Z7" 7 operator_add operator_mul;
   is_finite_field (fun _ => (7, 1)) o) = Ok true ∧
  (do o <- Field_new "Z8" 8 operator_add operator_mul;
   is_finite_field (fun _ => (2, 3)) o) = Ok false.
Proof. split; vm_compute; reflexivity. Qed.

(** [doctest_tables]: the additive and the multiplicative inverses in
    [GF7], in the order of the sorted elements. *)
Example doctest_GF7_inverses :
  (do o <- GF7;
   do negs <- map_m El_neg (sorted (struct_elements o));
   do invs <- map_m (fun x => pow o x (-1)) (sorted (struct_elements o));
   Ok (repr <$> negs, repr <$> invs))
  = Ok ([RElem 0; RElem 6; RElem 5; RElem 4; RElem 3; RElem 2; RElem 1],
        [RNaN; RElem 1; RElem 4; RElem 5; RElem 2; RElem 3; RElem 6]).
Proof. vm_compute. reflexivity. Qed.

(** [doctest_canonical_forms]: the minterms, the maxterms and both
    reconstructions of [-(x + y + z)]. *)
Example doctest_canonical_forms :
  (do b <- B;
   do d <- DNF_iter (DNF b nor3);
   do c <- CNF_iter (CNF b nor3);
   do dv <- DNF_call (DNF b nor3);
   do cv <- CNF_call (CNF b nor3);
   Ok (map (map value) d, map (map repr) c, value dv, value cv))
  = Ok ([[0; 0; 0]],
        [[RElem 1; RElem 1; RElem 0]; [RElem 1; RElem 0; RElem 1];
         [RElem 1; RElem 0; RElem 0]; [RElem 0; RElem 1; RElem 1];
         [RElem 0; RElem 1; RElem 0]; [RElem 0; RElem 0; RElem 1];
         [RElem 0; RElem 0; RElem 0]],
        0, 0).
Proof. vm_compute. reflexivity. Qed.

(** ** The error monad *)

Lemma bind_Ok {A B : Type} (m : result A) (k : A → result B) (b : B) :
  bind m k = Ok b ↔ ∃ a, m = Ok a ∧ k a = Ok b.
Proof.
  destruct m as [a|e]; simpl; split.
  - intros Hk. exists a. split; [reflexivity | exact Hk].
  - intros (a' & Ha & Hk). injection Ha as ->. exact Hk.
  - discriminate.
  - intros (a' & Ha & _). discriminate.
Qed.

(** Splits a hypothesis [bind m k = Ok b] into its two steps. *)
Ltac bind_inv H :=
  let a := fresh "a" in
  let Ha := fresh "Ha" in
  apply bind_Ok in H; destruct H as (a & Ha & H).

(** A fact about a concrete object, read off a run of its constructor. *)
Lemma run_eq {A B : Type} (g : result A) (k : A → B) (v : B) :
  (do o <- g; Ok (k o)) = Ok v → ∃ o, g = Ok o ∧ k o = v.
Proof.
  intros Hg. bind_inv Hg. injection Hg as Hg. by exists a.
Qed.

Lemma all_m_Ok_true {A : Type} (p : A → result bool) (l : list A) :
  all_m p l = Ok true ↔ ∀ a, a ∈ l → p a = Ok true.
Proof.
  induction l as [|a l IH]; simpl.
  - split; [intros _ a Ha; inversion Ha | reflexivity].
  - destruct (p a) as [[|]|e] eqn:Hp; simpl.
    + rewrite IH. split.
      * intros Hl a' Ha'. apply elem_of_cons in Ha' as [->|Ha']; auto.
      * intros Hl a' Ha'. apply Hl. by right.
    + split; [discriminate|]. intros Hl.
      specialize (Hl a (list_elem_of_here _ _)). congruence.
    + split; [discriminate|]. intros Hl.
      specialize (Hl a (list_elem_of_here _ _)). congruence.
Qed.

Lemma all_m_negated {A : Type} (p : A → result bool) (l : list A) :
  all_m (fun a => do r <- p a; Ok (negb r)) l = Ok true →
  ∀ a, a ∈ l → p a = Ok false.
Proof.
  rewrite all_m_Ok_true. intros Hl a Ha. specialize (Hl a Ha). simpl in Hl.
  by destruct (p a) as [[|]|].
Qed.

Lemma all_m_returns {A B : Type} (p : A → result B) (l : list A) :
  all_m (fun a => do _ <- p a; Ok true) l = Ok true →
  ∀ a, a ∈ l → ∃ r, p a = Ok r.
Proof.
  rewrite all_m_Ok_true. intros Hl a Ha. specialize (Hl a Ha). simpl in Hl.
  destruct (p a) as [r|]; [by exists r | done].
Qed.

Lemma all_m_Ok_false {A : Type} (p : A → result bool) (l : list A) :
  all_m p l = Ok false → ∃ a, a ∈ l ∧ p a = Ok false.
Proof.
  induction l as [|a l IH]; simpl; [discriminate|].
  destruct (p a) as [[|]|e] eqn:Hp; simpl; [| |discriminate].
  - intros Hl. destruct (IH Hl) as (a' & Ha' & Hpa'). exists a'.
    split; [by right | done].
  - intros _. exists a. split; [by left | done].
Qed.

Lemma next_m_None {A : Type} (p : A → result bool) (l : list A) :
  next_m p l = Ok None → ∀ a, a ∈ l → p a = Ok false.
Proof.
  induction l as [|a l IH]; simpl; intros Hn a' Ha'; [inversion Ha'|].
  destruct (p a) as [[|]|e] eqn:Hp; simpl in Hn; try discriminate.
  apply elem_of_cons in Ha' as [->|Ha']; [done | by apply IH].
Qed.

Lemma next_m_Some {A : Type} (p : A → result bool) (l : list A) (a : A) :
  next_m p l = Ok (Some a) → a ∈ l ∧ p a = Ok true.
Proof.
  induction l as [|a0 l IH]; simpl; [discriminate|].
  destruct (p a0) as [[|]|e] eqn:Hp; simpl; [| |discriminate].
  - intros [= <-]. split; [by left | done].
  - intros Hn. destruct (IH Hn) as [Hin Hpa]. split; [by right | done].
Qed.

(** ** The [_elements] dictionary *)

Lemma dict_comp_lookup (f : Z → result Element) (keys : list Z)
    (m : gmap Z Element) :
  dict_comp f keys = Ok m →
  ∀ k v, m !! k = Some v ↔ k ∈ keys ∧ f k = Ok v.
Proof.
  revert m. induction keys as [|k0 keys IH]; simpl; intros m Hm k v.
  - injection Hm as <-. rewrite lookup_empty. split; [discriminate|].
    intros [Hk _]. inversion Hk.
  - bind_inv Hm. bind_inv Hm. injection Hm as <-.
    rewrite lookup_insert. case_decide as Hk.
    + subst k0. split.
      * intros [= <-]. split; [by left | done].
      * intros [_ Hf]. congruence.
    + rewrite (IH _ Ha0). rewrite elem_of_cons.
      split; [intros [? ?]; auto | intros [[?|?] ?]; [congruence | auto]].
Qed.

Lemma elem_of_dict_values (m : gmap Z Element) (x : Element) :
  x ∈ dict_values m ↔ ∃ k, m !! k = Some x.
Proof.
  unfold dict_values. rewrite list_elem_of_fmap. split.
  - intros ([k v] & -> & Hkv). exists k. by apply elem_of_map_to_list.
  - intros (k & Hk). exists (k, x). split; [done|].
    by apply elem_of_map_to_list.
Qed.

Lemma Structure_post_init_self (s : Structure) (o : StructureObj) :
  Structure_post_init s = Ok o → S_self o = s.
Proof.
  unfold Structure_post_init. intros Ho.
  bind_inv Ho. bind_inv Ho. bind_inv Ho. by injection Ho as <-.
Qed.

Lemma Structure_post_init_lookup (s : Structure) (o : StructureObj) (v : Z) :
  Structure_post_init s = Ok o →
  S__elements o !! v =
    if decide (v ∈ set s)
    then Some {| instance := OfStructure s; value := v |} else None.
Proof.
  unfold Structure_post_init. intros Ho.
  bind_inv Ho. bind_inv Ho. bind_inv Ho. injection Ho as <-. simpl.
  case_decide as Hv.
  - apply (dict_comp_lookup _ _ _ Ha). split; [by apply elem_of_elements|].
    unfold S_generate_element. by rewrite decide_True.
  - destruct (a !! v) as [e|] eqn:He; [|done].
    apply (dict_comp_lookup _ _ _ Ha) in He as [Hin _].
    by apply elem_of_elements in Hin.
Qed.

Lemma Field_post_init_self (f : Field) (o : FieldObj) :
  Field_post_init f = Ok o → F_self o = f.
Proof.
  unfold Field_post_init. intros Ho.
  bind_inv Ho. bind_inv Ho. bind_inv Ho. by injection Ho as <-.
Qed.

Lemma Field_post_init_lookup (f : Field) (o : FieldObj) (k : Z) :
  Field_post_init f = Ok o →
  F__elements o !! k =
    if decide (0 ≤ k < ord f)
    then Some {| instance := OfField f; value := k |} else None.
Proof.
  unfold Field_post_init. intros Ho.
  bind_inv Ho. bind_inv Ho. bind_inv Ho. injection Ho as <-. simpl.
  case_decide as Hk.
  - apply (dict_comp_lookup _ _ _ Ha).
    split; [unfold range; apply elem_of_seqZ; lia|].
    unfold F_generate_element, El_make, py_mod.
    destruct (ord f =? 0) eqn:E; [lia|]. simpl.
    by rewrite Z.mod_small.
  - destruct (a !! k) as [e|] eqn:He; [|done].
    apply (dict_comp_lookup _ _ _ Ha) in He as [Hin _]. unfold range in Hin.
    apply elem_of_seqZ in Hin. lia.
Qed.

(** ** Totality and the element set *)

Lemma all_m_total {A : Type} (p : A → result bool) (l : list A) :
  (∀ a, a ∈ l → ∃ b, p a = Ok b) → ∃ b, all_m p l = Ok b.
Proof.
  induction l as [|a l IH]; simpl; intros Hp; [by eexists|].
  destruct (Hp a) as [b ->]; [by left|]. simpl.
  destruct b; [|by eexists]. apply IH. intros a' Ha'. apply Hp. by right.
Qed.

Lemma next_m_total {A : Type} (p : A → result bool) (l : list A) :
  (∀ a, a ∈ l → ∃ b, p a = Ok b) → ∃ r, next_m p l = Ok r.
Proof.
  induction l as [|a l IH]; simpl; intros Hp; [by eexists|].
  destruct (Hp a) as [b ->]; [by left|]. simpl.
  destruct b; [by eexists|]. apply IH. intros a' Ha'. apply Hp. by right.
Qed.

Lemma dict_comp_total (f : Z → result Element) (keys : list Z) :
  (∀ k, k ∈ keys → ∃ v, f k = Ok v) → ∃ m, dict_comp f keys = Ok m.
Proof.
  induction keys as [|k keys IH]; simpl; intros Hf; [by eexists|].
  destruct (Hf k) as [v ->]; [by left|]. simpl.
  destruct IH as [m ->]; [|by eexists].
  intros k' Hk'. apply Hf. by right.
Qed.

Lemma elem_of_Structure_elements (s : Structure) (o : StructureObj)
    (x : Element) :
  Structure_post_init s = Ok o →
  x ∈ struct_elements o ↔
  ∃ k, k ∈ set s ∧ x = {| instance := OfStructure s; value := k |}.
Proof.
  intros Ho. simpl. rewrite elem_of_dict_values. split.
  - intros [k Hk]. exists k.
    rewrite (Structure_post_init_lookup s o k Ho) in Hk.
    case_decide; [|done]. by injection Hk as <-.
  - intros (k & Hk & ->). exists k.
    rewrite (Structure_post_init_lookup s o k Ho). by rewrite decide_True.
Qed.

Lemma elem_of_Field_elements (f : Field) (o : FieldObj) (x : Element) :
  Field_post_init f = Ok o →
  x ∈ struct_elements o ↔
  ∃ k, 0 ≤ k < ord f ∧ x = {| instance := OfField f; value := k |}.
Proof.
  intros Ho. simpl. rewrite elem_of_dict_values. split.
  - intros [k Hk]. exists k.
    rewrite (Field_post_init_lookup f o k Ho) in Hk.
    case_decide; [|done]. by injection Hk as <-.
  - intros (k & Hk & ->). exists k.
    rewrite (Field_post_init_lookup f o k Ho). by rewrite decide_True.
Qed.

Lemma value_in_Structure_elements (s : Structure) (o : StructureObj)
    (r : Element) :
  Structure_post_init s = Ok o →
  value r ∈ set s → El_in r (struct_elements o).
Proof.
  intros Ho Hr. unfold El_in. apply list_elem_of_fmap.
  exists {| instance := OfStructure s; value := value r |}.
  split; [done|]. apply (elem_of_Structure_elements s o _ Ho). by eexists.
Qed.

Lemma Structure_post_init_total (s : Structure) :
  (∀ a b, a ∈ set s → b ∈ set s → ∃ c, add s a b = Ok c) →
  (∀ a b, a ∈ set s → b ∈ set s → ∃ c, mul s a b = Ok c) →
  ∃ o, Structure_post_init s = Ok o.
Proof.
  intros Hadd Hmul. unfold Structure_post_init.
  destruct (dict_comp_total (S_generate_element s) (elements (set s)))
    as [m Hm].
  { intros k Hk. apply elem_of_elements in Hk.
    unfold S_generate_element. rewrite decide_True by done. by eexists. }
  rewrite Hm. simpl.
  assert (∀ x, x ∈ dict_values m →
            ∃ k, k ∈ set s ∧ x = {| instance := OfStructure s; value := k |})
    as Hels.
  { intros x Hx. apply elem_of_dict_values in Hx as [k Hk].
    apply (dict_comp_lookup _ _ _ Hm) in Hk as [Hin Hgen].
    apply elem_of_elements in Hin. exists k. split; [done|].
    unfold S_generate_element in Hgen. rewrite decide_True in Hgen by done.
    by injection Hgen as <-. }
  destruct (next_m_total
              (fun x => all_m (fun y => do s0 <- El_add x (VElem y);
                                        El_eq s0 (VElem y)) (dict_values m))
              (dict_values m)) as [ia Hia].
  { intros x Hx. apply all_m_total. intros y Hy.
    destruct (Hels x Hx) as (kx & Hkx & ->).
    destruct (Hels y Hy) as (ky & Hky & ->).
    unfold El_add. simpl. destruct (Hadd kx ky Hkx Hky) as [c ->]. simpl.
    by eexists. }
  destruct (next_m_total
              (fun x => all_m (fun y => do s0 <- El_mul x (VElem y);
                                        El_eq s0 (VElem y)) (dict_values m))
              (dict_values m)) as [im Him].
  { intros x Hx. apply all_m_total. intros y Hy.
    destruct (Hels x Hx) as (kx & Hkx & ->).
    destruct (Hels y Hy) as (ky & Hky & ->).
    unfold El_mul. simpl. destruct (Hmul kx ky Hkx Hky) as [c ->]. simpl.
    by eexists. }
  unfold find_additive_identity, find_multiplicative_identity.
  rewrite Hia. simpl. rewrite Him. simpl. by eexists.
Qed.

(** ** Wrapping raw values *)

Lemma S_call_lookup (s : Structure) (o : StructureObj) (v : Z) :
  Structure_post_init s = Ok o →
  S_call o v =
    if decide (v ∈ set s)
    then Ok {| instance := OfStructure s; value := v |}
    else Raise ValueError.
Proof.
  intros Hs. unfold S_call. rewrite (Structure_post_init_lookup s o v Hs).
  by case_decide.
Qed.

Lemma F_call_reduces (f : Field) (o : FieldObj) (v : Z) :
  Field_post_init f = Ok o →
  0 < ord f →
  F_call o v = Ok {| instance := OfField f; value := v `mod` ord f |}.
Proof.
  intros Hf Hord. unfold F_call, py_mod. rewrite (Field_post_init_self f o Hf).
  destruct (ord f =? 0) eqn:E; [lia|]. simpl.
  rewrite (Field_post_init_lookup f o _ Hf).
  rewrite decide_True; [done|]. apply Z.mod_pos_bound. lia.
Qed.

(** C6. Calling a constructed Structure on [v] returns the wrapped element
    of value [v] when [v] is in the declared carrier set and raises
    [ValueError] otherwise; calling a constructed Field of positive order on
    any integer [v] succeeds with the element of value [v mod ord]. *)
Theorem call_structure_checks_field_reduces
    (s : Structure) (so : StructureObj) (f : Field) (fo : FieldObj) (v : Z) :
  Structure_post_init s = Ok so →
  Field_post_init f = Ok fo →
  0 < ord f →
  S_call so v =
    (if decide (v ∈ set s)
     then Ok {| instance := OfStructure s; value := v |}
     else Raise ValueError)
  ∧ F_call fo v = Ok {| instance := OfField f; value := v `mod` ord f |}.
Proof.
  intros Hs Hf Hord. split.
  - by apply S_call_lookup.
  - by apply F_call_reduces.
Qed.

Lemma call_structure_checks_field_reduces_witness :
  ∃ so fo,
    B = Ok so ∧ GF7 = Ok fo ∧
    S_call so 1 = Ok {| instance := OfStructure (S_self so); value := 1 |} ∧
    S_call so 9 = Raise ValueError ∧
    F_call fo (-9) = Ok {| instance := OfField (F_self fo); value := 5 |}.
Proof.
  destruct (run_eq B (fun _ => tt) tt) as (so & Hso & _);
    [vm_compute; reflexivity|].
  destruct (run_eq GF7 (fun _ => tt) tt) as (fo & Hfo & _);
    [vm_compute; reflexivity|].
  exists so, fo.
  pose proof (Structure_post_init_self _ _ Hso) as ->.
  pose proof (Field_post_init_self _ _ Hfo) as ->.
  destruct (call_structure_checks_field_reduces _ so _ fo 1 Hso Hfo) as [H1 _];
    [simpl; lia|].
  destruct (call_structure_checks_field_reduces _ so _ fo 9 Hso Hfo) as [H9 _];
    [simpl; lia|].
  destruct (call_structure_checks_field_reduces _ so _ fo (-9) Hso Hfo)
    as [_ H9']; [simpl; lia|].
  repeat split; [done | done | | | done].
  - rewrite H1. simpl. rewrite decide_True; [done|].
    apply elem_of_union_r. by apply elem_of_singleton.
  - rewrite H9. simpl. rewrite decide_False; [done|].
    intros [H0|H0]%elem_of_union; by apply elem_of_singleton in H0.
Defined.

(** ** Comparing elements *)

Lemma call_carrier_value (a : Algebra) (v : Z) :
  constructed a → carrier a v → ∃ x, call a v = Ok x ∧ value x = v.
Proof.
  destruct a as [o|o]; simpl; intros Hc Hv.
  - unfold S_call. rewrite (Structure_post_init_lookup _ o v Hc).
    rewrite decide_True by done. by eexists.
  - rewrite (F_call_reduces (F_self o) o v Hc) by lia.
    eexists. split; [done|]. simpl. apply Z.mod_small. lia.
Qed.

(** C10. Equality, ordering and hashing of elements read the raw value
    alone: for two constructed objects [S] and [T] of either kind and
    carrier values [v] and [w], the elements [S(v)] and [T(w)] exist, their
    [==] and [<] never fail and answer [v = w] and [v < w], the hash of each
    is its value, and equal values give equal hashes, whatever the owners. *)
Theorem element_comparison_ignores_owner (S T : Algebra) (v w : Z) :
  constructed S → constructed T → carrier S v → carrier T w →
  ∃ x y,
    call S v = Ok x ∧ call T w = Ok y ∧
    El_eq x (VElem y) = Ok (v =? w) ∧
    El_eq y (VElem x) = Ok (w =? v) ∧
    py_eq (VElem x) (VElem y) = Ok (v =? w) ∧
    El_lt x (VElem y) = Ok (v <? w) ∧
    El_hash x = v ∧ El_hash y = w ∧
    (v = w → El_hash x = El_hash y).
Proof.
  intros HS HT Hv Hw.
  destruct (call_carrier_value S v HS Hv) as (x & Hx & Hxv).
  destruct (call_carrier_value T w HT Hw) as (y & Hy & Hyw).
  exists x, y. unfold py_eq, El_eq, El_lt, El_hash; simpl.
  rewrite Hxv, Hyw. by repeat split.
Qed.

Lemma element_comparison_ignores_owner_witness :
  ∃ so fo x y,
    B = Ok so ∧ GF7 = Ok fo ∧
    S_call so 1 = Ok x ∧ F_call fo 1 = Ok y ∧
    py_eq (VElem x) (VElem y) = Ok true ∧ El_hash x = El_hash y.
Proof.
  destruct (run_eq B (fun _ => tt) tt) as (so & Hso & _);
    [vm_compute; reflexivity|].
  destruct (run_eq GF7 (fun _ => tt) tt) as (fo & Hfo & _);
    [vm_compute; reflexivity|].
  pose proof (Structure_post_init_self _ _ Hso) as Hs.
  pose proof (Field_post_init_self _ _ Hfo) as Hf.
  destruct (element_comparison_ignores_owner (AStructure so) (AField fo) 1 1)
    as (x & y & Hx & Hy & _ & _ & Heq & _ & _ & _ & Hh).
  - simpl. by rewrite Hs.
  - simpl. by rewrite Hf.
  - simpl. rewrite Hs. simpl. set_solver.
  - simpl. rewrite Hf. simpl. lia.
  - exists so, fo, x, y. repeat split; try done. by apply Hh.
Defined.

(** ** Canonical forms: the empty folds *)

Section EmptyFolds.
Context {T : Type} `{StructLike T}.

Lemma maxterms_all_true (f : list Element → result bool)
    (rows : list (list Element)) :
  (∀ t, t ∈ rows → f t = Ok true) → maxterms f rows = Ok [].
Proof.
  induction rows as [|t rows IH]; simpl; intros Hf; [done|].
  rewrite (Hf t) by left. simpl. apply IH. intros t' Ht'. apply Hf. by right.
Qed.

Lemma CNF_prod_all_true (cf : CanonicalForm T) (acc : Element)
    (rows : list (list Element)) :
  (∀ t, t ∈ rows → apply (formula cf) t = Ok true) →
  CNF_prod cf acc rows = Ok acc.
Proof.
  induction rows as [|t rows IH]; simpl; intros Hf; [done|].
  rewrite (Hf t) by left. simpl. apply IH. intros t' Ht'. apply Hf. by right.
Qed.

Lemma minterms_all_false (f : list Element → result bool)
    (rows : list (list Element)) :
  (∀ t, t ∈ rows → f t = Ok false) → minterms f rows = Ok [].
Proof.
  induction rows as [|t rows IH]; simpl; intros Hf; [done|].
  rewrite (Hf t) by left. simpl. rewrite IH; [done|].
  intros t' Ht'. apply Hf. by right.
Qed.

Lemma DNF_sum_all_false (cf : CanonicalForm T) (acc : Element)
    (rows : list (list Element)) :
  (∀ t, t ∈ rows → apply (formula cf) t = Ok false) →
  DNF_sum cf acc rows = Ok acc.
Proof.
  induction rows as [|t rows IH]; simpl; intros Hf; [done|].
  rewrite (Hf t) by left. simpl. apply IH. intros t' Ht'. apply Hf. by right.
Qed.

(** C7. In an object with both identities, a formula truthy on every
    operand tuple has no maxterms and its [CNF.__call__] is the
    multiplicative identity; a formula falsy on every tuple has no minterms
    and its [DNF.__call__] is the additive identity.  Both values are the
    seeds the folds start from: the fold over no rows returns its seed. *)
Theorem tautology_contradiction_reduce_to_identities
    (o : T) (zero one : Element) (taut contra : Formula) :
  identity_add o = Some zero →
  identity_mul o = Some one →
  (∀ t, t ∈ operands o (length (parameters taut)) → apply taut t = Ok true) →
  (∀ t, t ∈ operands o (length (parameters contra)) →
        apply contra t = Ok false) →
  CNF_iter (CNF o taut) = Ok [] ∧
  CNF_call (CNF o taut) = Ok one ∧
  DNF_iter (DNF o contra) = Ok [] ∧
  DNF_call (DNF o contra) = Ok zero ∧
  (∀ cf : CanonicalForm T, CNF_prod cf one [] = Ok one) ∧
  (∀ cf : CanonicalForm T, DNF_sum cf zero [] = Ok zero).
Proof.
  intros Hzero Hone Htaut Hcontra. repeat split.
  - by apply maxterms_all_true.
  - unfold CNF_call. simpl. rewrite Hone. simpl. by apply CNF_prod_all_true.
  - by apply minterms_all_false.
  - unfold DNF_call. simpl. rewrite Hzero. simpl. by apply DNF_sum_all_false.
Qed.
End EmptyFolds.

Lemma tautology_contradiction_reduce_to_identities_witness :
  ∃ b zero one,
    B = Ok b ∧ identity_add b = Some zero ∧ identity_mul b = Some one ∧
    CNF_iter (CNF b excluded_middle) = Ok [] ∧
    CNF_call (CNF b excluded_middle) = Ok one ∧
    DNF_iter (DNF b non_contradiction) = Ok [] ∧
    DNF_call (DNF b non_contradiction) = Ok zero.
Proof.
  destruct (run_eq B
              (fun b =>
                 (value <$> identity_add b, value <$> identity_mul b,
                  all_m (apply excluded_middle) (operands b 1),
                  all_m (fun t => do r <- apply non_contradiction t;
                                  Ok (negb r))
                        (operands b 1)))
              (Some 0, Some 1, Ok true, Ok true))
    as (b & Hb & Hk); [vm_compute; reflexivity|].
  injection Hk as Hzero Hone Htaut Hcontra.
  destruct (S_identity_add b) as [zero|] eqn:Ezero; [|discriminate].
  destruct (S_identity_mul b) as [one|] eqn:Eone; [|discriminate].
  exists b, zero, one.
  destruct (tautology_contradiction_reduce_to_identities
              (H:=StructureObj_like)
              b zero one excluded_middle non_contradiction Ezero Eone)
    as (H1 & H2 & H3 & H4 & _).
  - by apply all_m_Ok_true.
  - by apply all_m_negated.
  - by repeat split.
Defined.

(** ** Closure, checked by running *)

Section ClosureCheck.
Context {T : Type} `{StructLike T}.

Lemma closedb_closed (o : T) : closedb o = true → closed o.
Proof.
  unfold closedb, closed. intros Hc x y Hx Hy.
  rewrite forallb_forall in Hc.
  apply list_elem_of_In in Hx. specialize (Hc x Hx).
  apply andb_prop in Hc as [Hneg Hc].
  rewrite forallb_forall in Hc.
  apply list_elem_of_In in Hy. specialize (Hc y Hy).
  apply andb_prop in Hc as [Hadd Hmul].
  split; [|split].
  - destruct (El_add x (VElem y)) as [r|]; [|done].
    exists r. split; [done|]. by apply bool_decide_eq_true in Hadd.
  - destruct (El_mul x (VElem y)) as [r|]; [|done].
    exists r. split; [done|]. by apply bool_decide_eq_true in Hmul.
  - destruct (El_neg x) as [[r| |]|]; try done.
    exists r. split; [done|]. by apply bool_decide_eq_true in Hneg.
Qed.
End ClosureCheck.

(** ** Identities and totality of the predicates *)

Section HasIdentities.
Context {T : Type} `{StructLike T}.

Lemma getitem_never_None (o : T) (i : Z) (v : PyVal) :
  getitem o i = Ok v → is_not_None v = true.
Proof.
  unfold getitem, getattr_identity. intros Hv.
  repeat case_match; simplify_eq; done.
Qed.

Lemma has_identities_constant (o : T) : has_identities o = Ok true.
Proof.
  unfold has_identities, getitem, getattr_identity. simpl.
  destruct (identity_add o), (identity_mul o); reflexivity.
Qed.
End HasIdentities.

Section IdentitySearch.
Context {T : Type} `{StructLike T}.

Lemma additive_identity_passes (o : T) (e : Element) :
  is_additive_identity o e →
  all_m (fun y => do s <- El_add e (VElem y); El_eq s (VElem y))
        (struct_elements o) = Ok true.
Proof.
  intros He. apply all_m_Ok_true. intros x Hx.
  destruct (He x Hx) as (r & -> & Hr). unfold El_eq. simpl.
  by rewrite Hr, Z.eqb_refl.
Qed.

Lemma multiplicative_identity_passes (o : T) (e : Element) :
  is_multiplicative_identity o e →
  all_m (fun y => do s <- El_mul e (VElem y); El_eq s (VElem y))
        (struct_elements o) = Ok true.
Proof.
  intros He. apply all_m_Ok_true. intros x Hx.
  destruct (He x Hx) as (r & -> & Hr). unfold El_eq. simpl.
  by rewrite Hr, Z.eqb_refl.
Qed.

Lemma find_additive_identity_None (o : T) :
  find_additive_identity (struct_elements o) = Ok None →
  ∀ e, e ∈ struct_elements o → ¬ is_additive_identity o e.
Proof.
  intros Hnone e He Hid. unfold find_additive_identity in Hnone.
  pose proof (next_m_None _ _ Hnone e He) as Hp. simpl in Hp.
  rewrite (additive_identity_passes o e Hid) in Hp. discriminate.
Qed.

Lemma find_multiplicative_identity_None (o : T) :
  find_multiplicative_identity (struct_elements o) = Ok None →
  ∀ e, e ∈ struct_elements o → ¬ is_multiplicative_identity o e.
Proof.
  intros Hnone e He Hid. unfold find_multiplicative_identity in Hnone.
  pose proof (next_m_None _ _ Hnone e He) as Hp. simpl in Hp.
  rewrite (multiplicative_identity_passes o e Hid) in Hp. discriminate.
Qed.

Lemma find_additive_identity_Some (o : T) (e : Element) :
  find_additive_identity (struct_elements o) = Ok (Some e) →
  e ∈ struct_elements o ∧ is_additive_identity o e.
Proof.
  intros Hsome. apply next_m_Some in Hsome as [He Hall]. split; [done|].
  intros x Hx. rewrite all_m_Ok_true in Hall. specialize (Hall x Hx).
  simpl in Hall. destruct (El_add e (VElem x)) as [r|]; [|done].
  exists r. split; [done|]. unfold El_eq in Hall. simpl in Hall.
  injection Hall as Hall. by apply Z.eqb_eq.
Qed.

Lemma find_multiplicative_identity_Some (o : T) (e : Element) :
  find_multiplicative_identity (struct_elements o) = Ok (Some e) →
  e ∈ struct_elements o ∧ is_multiplicative_identity o e.
Proof.
  intros Hsome. apply next_m_Some in Hsome as [He Hall]. split; [done|].
  intros x Hx. rewrite all_m_Ok_true in Hall. specialize (Hall x Hx).
  simpl in Hall. destruct (El_mul e (VElem x)) as [r|]; [|done].
  exists r. split; [done|]. unfold El_eq in Hall. simpl in Hall.
  injection Hall as Hall. by apply Z.eqb_eq.
Qed.
End IdentitySearch.

(** C3. The claim fails on the code: [has_identities] tests the result of
    [struct[0]] and [struct[1]] against [None], but a missing identity is
    reported as [float('nan')], so the answer is [True] for every object.
    At [Structure('Z', {0, 1}, CONTRADICTION, CONTRADICTION, NOT)] no
    element is an additive or a multiplicative identity, no identity
    attribute was set, and [has_identities] still returns [True]. *)
Theorem has_identities_true_without_identities :
  ∃ o,
    no_identity = Ok o ∧
    identity_add o = None ∧ identity_mul o = None ∧
    (∀ e, e ∈ struct_elements o → ¬ is_additive_identity o e) ∧
    (∀ e, e ∈ struct_elements o → ¬ is_multiplicative_identity o e) ∧
    ¬ possesses_identities o ∧
    has_identities o = Ok true.
Proof.
  destruct (run_eq no_identity
              (fun o =>
                 (identity_add o, identity_mul o,
                  find_additive_identity (struct_elements o),
                  find_multiplicative_identity (struct_elements o)))
              (None, None, Ok None, Ok None))
    as (o & Ho & Hk); [vm_compute; reflexivity|].
  injection Hk as Hzero Hone Hadd Hmul.
  exists o. split; [done|]. split; [done|]. split; [done|].
  split; [by apply (find_additive_identity_None (H:=StructureObj_like) o)|].
  split;
    [by apply (find_multiplicative_identity_None (H:=StructureObj_like) o)|].
  split; [|apply has_identities_constant].
  intros [(e & He & Hid) _].
  by apply (find_additive_identity_None (H:=StructureObj_like) o Hadd e He).
Qed.

(** C4. The claim fails on the code: at
    [Structure('Z', {0, 1}, CONTRADICTION, CONTRADICTION, NOT)], whose
    operations are closed over [{0, 1}] and which has no identity,
    [is_complementary] compares an element with the [nan] that [struct[1]]
    returns and [Element.__eq__] raises [AttributeError] on [other.value];
    [no_zero_dividers] fails the same way on [a != struct[0]].
    [is_commutative] and [is_distributive] hold and [has_identities] answers
    [True], so [is_boolean_algebraic] and [is_finite_field] (with
    [prime_power] answering [(2, 1)] for the size 2) reach the failing
    predicate and raise too. *)
Theorem predicates_raise_without_identities :
  ∃ o,
    no_identity = Ok o ∧ closed o ∧
    is_commutative o = Ok true ∧
    is_distributive o = Ok true ∧
    has_identities o = Ok true ∧
    is_complementary o = Raise AttributeError ∧
    is_boolean_algebraic o = Raise AttributeError ∧
    no_zero_dividers o = Raise AttributeError ∧
    is_finite_field (fun size => (2, Z.of_nat size - 1)) o
      = Raise AttributeError.
Proof.
  destruct (run_eq no_identity
              (fun o =>
                 (closedb o, is_commutative o, is_distributive o,
                  has_identities o, is_complementary o,
                  is_boolean_algebraic o, no_zero_dividers o,
                  is_finite_field (fun size => (2, Z.of_nat size - 1)) o))
              (true, Ok true, Ok true, Ok true, Raise AttributeError,
               Raise AttributeError, Raise AttributeError,
               Raise AttributeError))
    as (o & Ho & Hk); [vm_compute; reflexivity|].
  injection Hk as Hclosed Hcomm Hdist Hid Hcompl Hbool Hzd Hff.
  exists o. split; [done|]. split; [by apply closedb_closed|].
  by repeat split.
Qed.

(** ** Field exponentiation *)

Lemma dict_values_singleton (k : Z) (e : Element) :
  dict_values {[k := e]} = [e].
Proof. unfold dict_values. by rewrite map_to_list_singleton. Qed.

Lemma dict_values_empty : dict_values ∅ = [].
Proof. unfold dict_values. by rewrite map_to_list_empty. Qed.

Lemma pow_negative (o : FieldObj) (base : Element) (p : positive) :
  pow o base (Zneg p) = (do r <- pow o base (Zpos p); mul_inv o r).
Proof. reflexivity. Qed.

Lemma pow_zero_exponent (o : FieldObj) (base one : Element) :
  2 ≤ ord (F_self o) → identity_mul o = Some one →
  pow o base 0 = Ok (VElem one).
Proof.
  intros Hord Hone. unfold pow, pow_nonneg.
  rewrite decide_False by lia. unfold getitem. simpl.
  simpl in Hone. by rewrite Hone.
Qed.

Lemma pow_of_identity (o : FieldObj) (base zero one : Element) (p : positive) :
  2 ≤ ord (F_self o) →
  identity_add o = Some zero → identity_mul o = Some one →
  value base = value zero ∨ value base = value one →
  pow o base (Zpos p) = Ok (VElem base).
Proof.
  intros Hord Hzero Hone Hbase. unfold pow, pow_nonneg.
  rewrite decide_False by lia. unfold getitem. simpl.
  simpl in Hzero, Hone. rewrite Hzero, Hone. simpl.
  unfold in_pair, has_value.
  destruct Hbase as [-> | ->]; rewrite Z.eqb_refl; simpl;
    [done | by rewrite orb_true_r].
Qed.

Lemma pow_order_one (f : Field) (o : FieldObj) (base : Element) (n : N) :
  Field_post_init f = Ok o → ord f = 1 →
  ∃ zero, identity_add o = Some zero ∧ value zero = 0 ∧
          is_additive_identity o zero ∧
          pow o base (Z.of_N n) = Ok (VElem zero).
Proof.
  intros Ho Hord.
  pose proof (Field_post_init_self f o Ho) as Hself.
  set (e0 := {| instance := OfField f; value := 0 |}).
  assert (F_generate_element f 0 = Ok e0) as Hgen.
  { unfold F_generate_element, El_make, py_mod. by rewrite Hord. }
  unfold Field_post_init in Ho. rewrite Hord in Ho.
  change (range 1) with [0] in Ho. simpl in Ho. rewrite Hgen in Ho.
  simpl in Ho. rewrite insert_empty, dict_values_singleton in Ho.
  bind_inv Ho. bind_inv Ho. injection Ho as <-.
  assert (a = Some e0) as ->.
  { unfold find_additive_identity in Ha. simpl in Ha.
    destruct (El_add e0 (VElem e0)) as [s|] eqn:Hs; [|done]. simpl in Ha.
    assert (value s = 0) as Hsv.
    { unfold El_add, El_make, py_mod in Hs. simpl in Hs. rewrite Hord in Hs.
      bind_inv Hs. simpl in Hs. injection Hs as <-. simpl. apply Z.mod_1_r. }
    unfold El_eq in Ha. simpl in Ha. rewrite Hsv in Ha. simpl in Ha.
    by injection Ha as <-. }
  exists e0. split; [done|]. split; [done|]. split.
  - apply (find_additive_identity_Some (T:=FieldObj)). simpl.
    by rewrite dict_values_singleton.
  - unfold pow, pow_nonneg. simpl. rewrite Hord.
    by destruct n.
Qed.

Lemma pow_order_zero (f : Field) (o : FieldObj) (base : Element) (n : N) :
  Field_post_init f = Ok o → ord f = 0 →
  identity_add o = None ∧ struct_elements o = [] ∧
  pow o base (Z.of_N n) = Ok VNaN.
Proof.
  intros Ho Hord.
  unfold Field_post_init in Ho. rewrite Hord in Ho.
  change (range 0) with (@nil Z) in Ho. simpl in Ho.
  rewrite dict_values_empty in Ho. simpl in Ho. injection Ho as <-.
  split; [done|]. split; [by apply dict_values_empty|].
  unfold pow, pow_nonneg. simpl. rewrite Hord. by destruct n.
Qed.

(** ** Exponentiation in the fields of integers modulo [n] *)

Lemma Field_post_init_identities (f : Field) (o : FieldObj) :
  Field_post_init f = Ok o →
  find_additive_identity (struct_elements o) = Ok (identity_add o) ∧
  find_multiplicative_identity (struct_elements o) = Ok (identity_mul o).
Proof.
  unfold Field_post_init. intros Ho.
  bind_inv Ho. bind_inv Ho. bind_inv Ho. by injection Ho as <-.
Qed.

Lemma next_m_finds {A : Type} (p : A → result bool) (l : list A) :
  (∀ a, a ∈ l → ∃ b, p a = Ok b) →
  (∃ a, a ∈ l ∧ p a = Ok true) →
  ∃ a, next_m p l = Ok (Some a) ∧ a ∈ l ∧ p a = Ok true.
Proof.
  induction l as [|a0 l IH]; intros Htotal (a & Ha & Hpa); [inversion Ha|].
  simpl. destruct (Htotal a0) as [[|] Hb]; [by left| |]; rewrite Hb; simpl.
  - exists a0. split; [done|]. split; [by left | done].
  - apply elem_of_cons in Ha as [->|Ha]; [congruence|].
    destruct IH as (a' & Hn & Hin & Hp').
    + intros a' Ha'. apply Htotal. by right.
    + by exists a.
    + exists a'. split; [done|]. split; [by right | done].
Qed.

Section Zmod.
Variable name : string.
Variable n : Z.
Variable o : FieldObj.
Hypothesis Hn : 2 ≤ n.
Hypothesis Ho : Field_new name n operator_add operator_mul = Ok o.

Lemma Zmod_self : F_self o = Zmod_fields name n.
Proof. exact (Field_post_init_self _ _ Ho). Qed.

Lemma Zmod_elements (x : Element) :
  x ∈ struct_elements o ↔ ∃ k, 0 ≤ k < n ∧ x = Zmod_el name n k.
Proof. exact (elem_of_Field_elements _ o x Ho). Qed.

Lemma Zmod_add (a b : Z) :
  El_add (Zmod_el name n a) (VElem (Zmod_el name n b))
  = Ok (Zmod_el name n ((a + b) `mod` n)).
Proof.
  unfold El_add, El_make, py_mod. simpl.
  destruct (n =? 0) eqn:E; [lia | done].
Qed.

Lemma Zmod_mul (a b : Z) :
  El_mul (Zmod_el name n a) (VElem (Zmod_el name n b))
  = Ok (Zmod_el name n ((a * b) `mod` n)).
Proof.
  unfold El_mul, El_make, py_mod. simpl.
  destruct (n =? 0) eqn:E; [lia | done].
Qed.

Lemma Zmod_identity_add : identity_add o = Some (Zmod_el name n 0).
Proof.
  destruct (Field_post_init_identities _ o Ho) as [Hfind _].
  assert (Zmod_el name n 0 ∈ struct_elements o) as H0
    by (apply Zmod_elements; exists 0; split; [lia | done]).
  destruct (identity_add o) as [e|].
  - apply (find_additive_identity_Some (H:=FieldObj_like)) in Hfind
      as [He Hid].
    apply Zmod_elements in He as (k & Hk & ->).
    destruct (Hid (Zmod_el name n 0) H0) as (r & Hr & Hv).
    rewrite Zmod_add in Hr. injection Hr as <-. simpl in Hv.
    rewrite Z.add_0_r, Z.mod_small in Hv by lia. by subst k.
  - exfalso.
    apply (find_additive_identity_None (H:=FieldObj_like) o Hfind
             (Zmod_el name n 0) H0).
    intros x Hx. apply Zmod_elements in Hx as (j & Hj & ->).
    rewrite Zmod_add. eexists. split; [done|]. simpl.
    apply Z.mod_small. lia.
Qed.

Lemma Zmod_identity_mul : identity_mul o = Some (Zmod_el name n 1).
Proof.
  destruct (Field_post_init_identities _ o Ho) as [_ Hfind].
  assert (Zmod_el name n 1 ∈ struct_elements o) as H1
    by (apply Zmod_elements; exists 1; split; [lia | done]).
  destruct (identity_mul o) as [e|].
  - apply (find_multiplicative_identity_Some (H:=FieldObj_like)) in Hfind
      as [He Hid].
    apply Zmod_elements in He as (k & Hk & ->).
    destruct (Hid (Zmod_el name n 1) H1) as (r & Hr & Hv).
    rewrite Zmod_mul in Hr. injection Hr as <-. simpl in Hv.
    rewrite Z.mul_1_r, Z.mod_small in Hv by lia. by subst k.
  - exfalso.
    apply (find_multiplicative_identity_None (H:=FieldObj_like) o Hfind
             (Zmod_el name n 1) H1).
    intros x Hx. apply Zmod_elements in Hx as (j & Hj & ->).
    rewrite Zmod_mul. eexists. split; [done|]. simpl.
    rewrite Z.mul_1_l. apply Z.mod_small. lia.
Qed.

Lemma Zmod_pow_loop (p : positive) (r b : Z) :
  pow_loop (VElem (Zmod_el name n r)) (Zmod_el name n b) p
  = Ok (VElem (Zmod_el name n ((r * b ^ Zpos p) `mod` n))).
Proof.
  revert r b. induction p as [p IH|p IH|]; intros r b; simpl pow_loop.
  - unfold py_mul. rewrite !Zmod_mul. simpl. rewrite IH. do 3 f_equal.
    rewrite Pos2Z.inj_xI, Z.pow_add_r, Z.pow_1_r, Z.pow_mul_r, Z.pow_2_r
      by lia.
    rewrite Z.mul_mod_idemp_l by lia.
    rewrite <- Z.mul_mod_idemp_r by lia.
    rewrite <- Zpower_mod by lia.
    rewrite Z.mul_mod_idemp_r by lia. f_equal. ring.
  - rewrite Zmod_mul. simpl. rewrite IH. do 3 f_equal.
    rewrite Pos2Z.inj_xO, Z.pow_mul_r, Z.pow_2_r by lia.
    rewrite <- Z.mul_mod_idemp_r by lia.
    rewrite <- Zpower_mod by lia.
    by rewrite Z.mul_mod_idemp_r by lia.
  - unfold py_mul. rewrite !Zmod_mul. simpl. by rewrite Z.pow_1_r.
Qed.

Lemma Zmod_getitem :
  getitem o 0 = Ok (VElem (Zmod_el name n 0)) ∧
  getitem o 1 = Ok (VElem (Zmod_el name n 1)).
Proof.
  unfold getitem. simpl. pose proof Zmod_identity_add as Hzero.
  pose proof Zmod_identity_mul as Hone. simpl in Hzero, Hone.
  by rewrite Hzero, Hone.
Qed.

Lemma Zmod_pow (b e : Z) :
  0 ≤ b < n → 0 ≤ e →
  pow o (Zmod_el name n b) e = Ok (VElem (Zmod_el name n (b ^ e `mod` n))).
Proof.
  intros Hb He. destruct Zmod_getitem as [Hzero Hone].
  unfold pow, pow_nonneg. rewrite Zmod_self, Hzero, Hone.
  change (ord (Zmod_fields name n)) with n.
  destruct (decide (n = 0 ∨ n = 1)) as [[?|?]|_]; [lia|lia|].
  destruct e as [|p|p]; [| |lia].
  - by rewrite Z.pow_0_r, Z.mod_small by lia.
  - repeat (change (bind (Ok ?a) ?k) with (k a); cbv beta).
    change (in_pair (Zmod_el name n b) (VElem (Zmod_el name n 0))
                    (VElem (Zmod_el name n 1)))
      with ((0 =? b) || (1 =? b)).
    destruct (0 =? b) eqn:E0.
    { apply Z.eqb_eq in E0 as <-.
      by rewrite Z.pow_0_l, Z.mod_small by lia. }
    destruct (1 =? b) eqn:E1.
    { apply Z.eqb_eq in E1 as <-.
      by rewrite Z.pow_1_l, Z.mod_small by lia. }
    cbn [orb]. rewrite Zmod_pow_loop. by rewrite Z.mul_1_l.
Qed.

Lemma Zmod_mul_inv (a : Z) :
  0 < a < n →
  (∃ c, 0 ≤ c < n ∧ (a * c) `mod` n = 1) →
  ∃ c, mul_inv o (VElem (Zmod_el name n a)) = Ok (VElem (Zmod_el name n c)) ∧
       0 ≤ c < n ∧ (a * c) `mod` n = 1.
Proof.
  intros Ha (c & Hc & Hac). destruct Zmod_getitem as [Hzero Hone].
  unfold mul_inv. rewrite !Hzero, !Hone.
  cbn [bind py_eq El_eq get_value value Zmod_el].
  destruct (a =? 0) eqn:E0; [lia|].
  destruct (a =? 1) eqn:E1.
  { apply Z.eqb_eq in E1 as ->. exists 1.
    split; [done|]. split; [lia|]. apply Z.mod_small. lia. }
  destruct (next_m_finds
              (fun el => do p <- py_mul (VElem (Zmod_el name n a)) (VElem el);
                         py_eq p (VElem (Zmod_el name n 1)))
              (struct_elements o))
    as (el & Hnext & Hel & Hp).
  - intros x Hx. apply Zmod_elements in Hx as (j & Hj & ->).
    unfold py_mul. rewrite Zmod_mul. by eexists.
  - exists (Zmod_el name n c). split; [apply Zmod_elements; by exists c|].
    unfold py_mul. rewrite Zmod_mul.
    cbn [bind py_eq El_eq get_value value Zmod_el]. by rewrite Hac.
  - rewrite Hnext. cbn [bind from_next].
    apply Zmod_elements in Hel as (j & Hj & ->). exists j.
    split; [done|]. split; [done|].
    unfold py_mul in Hp. rewrite Zmod_mul in Hp.
    cbn [bind py_eq El_eq get_value value Zmod_el] in Hp.
    injection Hp as Hp.
    by apply Z.eqb_eq.
Qed.
End Zmod.

(** C5 as the spec words it does not hold for the degenerate orders: in
    the field of order 1 the additive identity exists, and a negative
    exponent still goes through [mul_inv], which answers [nan] for it; the
    field of order 0 has no additive identity, and [pow] returns the [nan]
    that [self[0]] gives. *)
Lemma pow_degenerate_order_gives_nan :
  ∃ o1 o0 x zero,
    Z1 = Ok o1 ∧ ord (F_self o1) = 1 ∧
    F_call o1 0 = Ok x ∧ identity_add o1 = Some zero ∧
    pow o1 x (-1) = Ok VNaN ∧ pow o1 x (-1) ≠ Ok (VElem zero) ∧
    Z0 = Ok o0 ∧ ord (F_self o0) = 0 ∧
    identity_add o0 = None ∧ pow o0 x 2 = Ok VNaN.
Proof.
  destruct (run_eq Z1
              (fun o =>
                 (ord (F_self o), value <$> identity_add o,
                  do x <- F_call o 0; do r <- pow o x (-1); Ok (repr r)))
              (1, Some 0, Ok RNaN))
    as (o1 & Ho1 & Hk); [vm_compute; reflexivity|].
  injection Hk as Hord Hzero Hpow.
  bind_inv Hpow. bind_inv Hpow. injection Hpow as Hpow.
  destruct (F_identity_add o1) as [zero|] eqn:Ezero; [|discriminate].
  destruct (run_eq Z0 (fun o => ord (F_self o)) 0) as (o0 & Ho0 & Hord0);
    [vm_compute; reflexivity|].
  destruct (pow_order_zero _ o0 a 2%N Ho0) as (Hnone & _ & Hpow0);
    [done|].
  exists o1, o0, a, zero. destruct a0; try discriminate.
  do 5 (split; [done|]).
  split; [intros Heq; unfold pow in Heq; congruence|].
  by repeat split.
Qed.

(** C5, amended.  For a constructed Field of order at least 2 with both
    identities, [pow(base, 0)] is the multiplicative identity and [pow] of
    a base equal to either identity with a positive exponent is that base;
    in every Field a negative exponent is computed as
    [mul_inv(pow(base, -exp))]; in a Field of order 1 a non-negative
    exponent gives the additive identity, and in a Field of order 0, which
    has no element and no identity, it gives the [nan] that [self[0]]
    returns; in GF7, [pow(3, -1) == mul_inv(3)] and
    [3 * mul_inv(3) == identity_mul]. *)
Theorem pow_semantics :
  (∀ (f : Field) (o : FieldObj) (zero one base : Element),
     Field_post_init f = Ok o → 2 ≤ ord f →
     identity_add o = Some zero → identity_mul o = Some one →
     pow o base 0 = Ok (VElem one) ∧
     ∀ p : positive,
       value base = value zero ∨ value base = value one →
       pow o base (Zpos p) = Ok (VElem base)) ∧
  (∀ (o : FieldObj) (base : Element) (p : positive),
     pow o base (Zneg p) = (do r <- pow o base (Zpos p); mul_inv o r)) ∧
  (∀ (f : Field) (o : FieldObj) (base : Element) (n : N),
     Field_post_init f = Ok o → ord f = 1 →
     ∃ zero, identity_add o = Some zero ∧ is_additive_identity o zero ∧
             pow o base (Z.of_N n) = Ok (VElem zero)) ∧
  (∀ (f : Field) (o : FieldObj) (base : Element) (n : N),
     Field_post_init f = Ok o → ord f = 0 →
     identity_add o = None ∧ struct_elements o = [] ∧
     pow o base (Z.of_N n) = Ok VNaN) ∧
  (∀ (name : string) (n : Z) (o : FieldObj) (b e : Z),
     2 ≤ n → Field_new name n operator_add operator_mul = Ok o →
     0 ≤ b < n → 0 ≤ e →
     pow o (Zmod_el name n b) e
     = Ok (VElem (Zmod_el name n (b ^ e `mod` n)))) ∧
  (∀ (name : string) (n : Z) (o : FieldObj) (b c0 : Z) (p : positive),
     2 ≤ n → Field_new name n operator_add operator_mul = Ok o →
     0 ≤ b < n → 0 ≤ c0 < n → (b ^ Zpos p * c0) `mod` n = 1 →
     ∃ c, pow o (Zmod_el name n b) (Zneg p) = Ok (VElem (Zmod_el name n c)) ∧
          0 ≤ c < n ∧ (b ^ Zpos p * c) `mod` n = 1) ∧
  (∃ o three r r',
     GF7 = Ok o ∧ F_call o 3 = Ok three ∧
     pow o three (-1) = Ok r ∧ mul_inv o (VElem three) = Ok r' ∧
     repr r = RElem 5 ∧
     py_eq r r' = Ok true ∧
     (do p <- py_mul (VElem three) r';
      do one <- getitem o 1;
      py_eq p one) = Ok true).
Proof.
  split; [|split; [|split; [|split; [|split; [|split]]]]].
  - intros f o zero one base Ho Hord Hzero Hone.
    rewrite <- (Field_post_init_self f o Ho) in Hord. split.
    + by apply pow_zero_exponent.
    + intros p Hbase. by apply (pow_of_identity o base zero one).
  - apply pow_negative.
  - intros f o base n Ho Hord.
    destruct (pow_order_one f o base n Ho Hord) as (zero & ? & ? & ? & ?).
    by exists zero.
  - apply pow_order_zero.
  - intros name n o b e Hn Ho Hb He. by apply Zmod_pow.
  - intros name n o b c0 p Hn Ho Hb Hc0 Hinv.
    rewrite pow_negative, (Zmod_pow name n o Hn Ho b (Zpos p)) by lia.
    cbn [bind].
    rewrite <- Z.mul_mod_idemp_l in Hinv by lia.
    assert (b ^ Z.pos p `mod` n ≠ 0) as Hnz.
    { intros Hz. rewrite Hz, Z.mul_0_l, Z.mod_0_l in Hinv by lia. lia. }
    pose proof (Z.mod_pos_bound (b ^ Z.pos p) n ltac:(lia)) as Hbound.
    destruct (Zmod_mul_inv name n o Hn Ho (b ^ Z.pos p `mod` n))
      as (c & Hc & Hcb & Hcinv); [lia | by exists c0 |].
    exists c. split; [done|]. split; [done|].
    by rewrite Z.mul_mod_idemp_l in Hcinv by lia.
  - destruct (run_eq GF7
                (fun o =>
                   do three <- F_call o 3;
                   do r <- pow o three (-1);
                   do r' <- mul_inv o (VElem three);
                   do e <- py_eq r r';
                   do c <- (do p <- py_mul (VElem three) r';
                            do one <- getitem o 1;
                            py_eq p one);
                   Ok (repr r, e, c))
                (Ok (RElem 5, true, true)))
      as (o & Ho & Hk); [vm_compute; reflexivity|].
    bind_inv Hk. bind_inv Hk. bind_inv Hk. bind_inv Hk. bind_inv Hk.
    injection Hk as Hrepr -> ->.
    by exists o, a, a0, a1.
Qed.

Lemma pow_semantics_witness :
  ∃ o o1 o0 zero one,
    GF7 = Ok o ∧ Z1 = Ok o1 ∧ Z0 = Ok o0 ∧
    identity_add o = Some zero ∧ identity_mul o = Some one ∧
    pow o zero 0 = Ok (VElem one) ∧
    pow o zero 5 = Ok (VElem zero) ∧
    pow o one 5 = Ok (VElem one) ∧
    pow o zero (-1) = (do r <- pow o zero 1; mul_inv o r) ∧
    (∃ z, identity_add o1 = Some z ∧ pow o1 zero 4 = Ok (VElem z)) ∧
    pow o0 zero 4 = Ok VNaN ∧
    pow o (Zmod_el "GF7" 7 3) 4 = Ok (VElem (Zmod_el "GF7" 7 4)) ∧
    (∃ c, pow o (Zmod_el "GF7" 7 3) (-1) = Ok (VElem (Zmod_el "GF7" 7 c)) ∧
          (3 * c) `mod` 7 = 1).
Proof.
  destruct (run_eq GF7
              (fun o => (value <$> identity_add o, value <$> identity_mul o))
              (Some 0, Some 1))
    as (o & Ho & Hk); [vm_compute; reflexivity|].
  injection Hk as Hzero Hone.
  destruct (F_identity_add o) as [zero|] eqn:Ezero; [|discriminate].
  destruct (F_identity_mul o) as [one|] eqn:Eone; [|discriminate].
  destruct (run_eq Z1 (fun _ => tt) tt) as (o1 & Ho1 & _);
    [vm_compute; reflexivity|].
  destruct (run_eq Z0 (fun _ => tt) tt) as (o0 & Ho0 & _);
    [vm_compute; reflexivity|].
  destruct pow_semantics as (Hbig & Hneg & Hone1 & Hzero0 & Hmod & Hinv & _).
  exists o, o1, o0, zero, one.
  split; [done|]. split; [done|]. split; [done|].
  split; [done|]. split; [done|].
  destruct (Hbig _ o zero one zero Ho) as [H0 Hz]; [simpl; lia|done|done|].
  destruct (Hbig _ o zero one one Ho) as [_ Hp]; [simpl; lia|done|done|].
  split; [done|]. split; [apply Hz; by left|]. split; [apply Hp; by right|].
  split; [apply Hneg|]. split; [|split; [|split]].
  - destruct (Hone1 _ o1 zero 4%N Ho1) as (z & Hz1 & _ & Hp1); [done|].
    by exists z.
  - by destruct (Hzero0 _ o0 zero 4%N Ho0) as (_ & _ & Hp0).
  - apply (Hmod "GF7" 7 o 3 4); [lia | done | lia | lia].
  - destruct (Hinv "GF7" 7 o 3 5 1%positive) as (c & Hc & _ & Hc1);
      [lia | done | lia | lia | done |].
    exists c. split; [done|]. by rewrite Z.pow_1_r in Hc1.
Defined.

Lemma elem_of_divisors (n d : Z) :
  0 < n → d ∈ divisors n (Z.sqrt n) ↔ 0 < d ∧ (d | n).
Proof.
  intros Hn. unfold divisors.
  rewrite elem_of_list_to_set, list_elem_of_bind.
  pose proof (Z.sqrt_spec n ltac:(lia)) as Hsqrt. cbv zeta in Hsqrt.
  split.
  - intros (k & Hd & Hk). apply elem_of_seqZ in Hk.
    case_decide as Hmod; [|inversion Hd].
    apply Z.mod_divide in Hmod; [|lia]. destruct Hmod as [q Hq].
    assert (n `div` k = q) as Hdiv by (subst n; apply Z.div_mul; lia).
    assert (0 < q) by nia.
    apply elem_of_cons in Hd as [->|Hd].
    + split; [lia|]. by exists q.
    + apply list_elem_of_singleton in Hd as ->. rewrite Hdiv.
      split; [lia|]. exists k. lia.
  - intros [Hd [q Hq]].
    assert (0 < q) by nia.
    destruct (decide (d ≤ Z.sqrt n)) as [Hle|Hgt].
    + exists d. split; [|apply elem_of_seqZ; lia].
      rewrite decide_True; [by left|].
      apply Z.mod_divide; [lia|]. by exists q.
    + assert (q ≤ Z.sqrt n) as Hq_le.
      { destruct (decide (q ≤ Z.sqrt n)) as [|Hq_gt]; [done|].
        assert ((Z.sqrt n + 1) * (Z.sqrt n + 1) ≤ q * d)
          by (pose proof (Z.sqrt_nonneg n); apply Z.mul_le_mono_nonneg; lia).
        unfold Z.succ in Hsqrt. lia. }
      exists q. split; [|apply elem_of_seqZ; lia].
      assert (n `div` q = d) as ->
        by (subst n; rewrite Z.mul_comm; apply Z.div_mul; lia).
      rewrite decide_True; [right; left|].
      apply Z.mod_divide; [lia|]. exists d. lia.
Qed.

Lemma divisors_zero : divisors 0 (Z.sqrt 0) = ∅.
Proof. reflexivity. Qed.
(** ** The divisor lattices *)

Lemma D_nonneg (n : Z) : 0 ≤ n → D n = Structure_post_init (D_fields n).
Proof.
  intros Hn. unfold D, isqrt. destruct (n <? 0) eqn:E; [lia|]. reflexivity.
Qed.

Lemma D_negative (n : Z) : n < 0 → D n = Raise ValueError.
Proof.
  intros Hn. unfold D, isqrt. destruct (n <? 0) eqn:E; [done|lia].
Qed.

Lemma D_constructed (n : Z) : 0 ≤ n → ∃ o, D n = Ok o.
Proof.
  intros Hn. rewrite D_nonneg by done.
  apply Structure_post_init_total; intros a b _ _; by eexists.
Qed.

Lemma D_closed (n : Z) (o : StructureObj) : D n = Ok o → closed o.
Proof.
  intros Ho.
  destruct (decide (n < 0)) as [Hneg|Hnn];
    [rewrite D_negative in Ho by done; discriminate|].
  rewrite D_nonneg in Ho by lia.
  intros x y Hx Hy.
  apply (elem_of_Structure_elements _ o _ Ho) in Hx as (a & Ha & ->).
  apply (elem_of_Structure_elements _ o _ Ho) in Hy as (b & Hb & ->).
  simpl in Ha, Hb.
  destruct (decide (n = 0)) as [->|Hn0]; [by rewrite divisors_zero in Ha|].
  assert (0 < n) as Hn by lia.
  apply elem_of_divisors in Ha as [Ha [qa Hqa]]; [|done].
  apply elem_of_divisors in Hb as [Hb [qb Hqb]]; [|done].
  split; [|split].
  - eexists. split; [reflexivity|].
    apply (value_in_Structure_elements _ o _ Ho). simpl.
    apply elem_of_divisors; [done|]. split.
    + pose proof (Z.lcm_nonneg a b). pose proof (Z.lcm_eq_0 a b). lia.
    + apply Z.lcm_least; [by exists qa | by exists qb].
  - eexists. split; [reflexivity|].
    apply (value_in_Structure_elements _ o _ Ho). simpl.
    apply elem_of_divisors; [done|]. split.
    + pose proof (Z.gcd_nonneg a b). pose proof (Z.gcd_eq_0_l a b). lia.
    + transitivity a; [apply Z.gcd_divide_l | by exists qa].
  - unfold El_neg. simpl. unfold py_floordiv.
    destruct (a =? 0) eqn:E; [lia|]. simpl.
    eexists. split; [reflexivity|].
    apply (value_in_Structure_elements _ o _ Ho). simpl.
    assert (n `div` a = qa) as -> by (subst n; apply Z.div_mul; lia).
    apply elem_of_divisors; [done|]. split; [nia|]. exists a. lia.
Qed.

(** C8. For every positive [n], [D(n)] constructs a Structure whose
    carrier set, and whose element set, is exactly the positive divisors of
    [n], with [lcm] as addition, [gcd] as multiplication and [n // x] as
    inversion, which on a divisor [x] is the exact quotient [n / x];
    [D(6)] has carrier [{1, 2, 3, 6}], additive identity 1, multiplicative
    identity 6, and [is_boolean_algebraic] returns [True] on it. *)
Theorem D_is_divisor_lattice :
  (∀ n, 0 < n →
     ∃ o, D n = Ok o ∧
       (∀ d, d ∈ set (S_self o) ↔ 0 < d ∧ (d | n)) ∧
       (∀ d, (∃ e, e ∈ struct_elements o ∧ value e = d) ↔ 0 < d ∧ (d | n)) ∧
       (∀ a b, add (S_self o) a b = Ok (Z.lcm a b)) ∧
       (∀ a b, mul (S_self o) a b = Ok (Z.gcd a b)) ∧
       (∀ x, inv (S_self o) x = py_floordiv n x) ∧
       (∀ x, 0 < x → (x | n) →
             inv (S_self o) x = Ok (n `div` x) ∧ x * (n `div` x) = n)) ∧
  (∃ o zero one,
     D 6 = Ok o ∧ set (S_self o) = {[1; 2; 3; 6]} ∧
     identity_add o = Some zero ∧ value zero = 1 ∧
     identity_mul o = Some one ∧ value one = 6 ∧
     is_boolean_algebraic o = Ok true).
Proof.
  split.
  - intros n Hn. destruct (D_constructed n) as [o Ho]; [lia|].
    exists o. split; [done|]. rewrite D_nonneg in Ho by lia.
    rewrite (Structure_post_init_self _ o Ho). simpl.
    split; [intros d; by apply elem_of_divisors|].
    split; [|split; [done|split; [done|split; [done|]]]].
    + intros d. rewrite <- (elem_of_divisors n d Hn). split.
      * intros (e & He & <-).
        by apply (elem_of_Structure_elements _ o _ Ho) in He as (k & Hk & ->).
      * intros Hd.
        exists {| instance := OfStructure (D_fields n); value := d |}.
        split; [|reflexivity].
        apply (elem_of_Structure_elements _ o _ Ho). by eexists.
    + intros x Hx [q Hq]. unfold py_floordiv.
      destruct (x =? 0) eqn:E; [lia|]. split; [done|].
      subst n. rewrite Z.div_mul by lia. lia.
  - destruct (run_eq (D 6)
                (fun o => (set (S_self o), value <$> identity_add o,
                           value <$> identity_mul o, is_boolean_algebraic o))
                ({[1; 2; 3; 6]}, Some 1, Some 6, Ok true))
      as (o & Ho & Hk); [vm_compute; reflexivity|].
    injection Hk as Hset Hzero Hone Hbool. exists o. simpl.
    destruct (S_identity_add o) as [zero|]; [|discriminate].
    destruct (S_identity_mul o) as [one|]; [|discriminate].
    injection Hzero as Hzero. injection Hone as Hone.
    by exists zero, one.
Qed.

Lemma D_is_divisor_lattice_witness :
  ∃ o, D 12 = Ok o ∧
       (4 ∈ set (S_self o)) ∧ (5 ∉ set (S_self o)) ∧
       add (S_self o) 4 6 = Ok 12 ∧ mul (S_self o) 4 6 = Ok 2 ∧
       inv (S_self o) 4 = Ok 3.
Proof.
  destruct D_is_divisor_lattice as [HD _].
  destruct (HD 12) as (o & Ho & Hset & _ & Hadd & Hmul & _ & Hinv); [lia|].
  exists o. split; [done|].
  split; [apply Hset; split; [lia | by exists 3]|].
  split.
  { intros H5. apply Hset in H5 as [_ [q Hq]]. lia. }
  split; [by rewrite Hadd|]. split; [by rewrite Hmul|].
  destruct (Hinv 4) as [H4 _]; [lia | by exists 3 | by rewrite H4].
Defined.

(** Closure of a concrete object, by running the check. *)
Lemma run_closed {T : Type} `{StructLike T} (g : result T) :
  (do o <- g; Ok (closedb o)) = Ok true → ∃ o, g = Ok o ∧ closed o.
Proof.
  intros Hg. bind_inv Hg. injection Hg as Hg. exists a.
  split; [done | by apply closedb_closed].
Qed.

(** C9. The operators are closed over the element set: [x + y], [x * y]
    and [-x] succeed and give a member of the element set, for the Boolean
    structure [B], for every divisor lattice [D(n)] (which exists exactly
    for [n >= 0]) and for each predefined Galois field. *)
Theorem operations_closed :
  (∃ b, B = Ok b ∧ closed b) ∧
  (∀ n, 0 ≤ n → ∃ o, D n = Ok o ∧ closed o) ∧
  (∀ n, n < 0 → D n = Raise ValueError) ∧
  Forall (fun g : result FieldObj => ∃ o, g = Ok o ∧ closed o)
         [GF2; GF3; GF5; GF7; GF11; GF13; GF17; GF19].
Proof.
  split; [|split; [|split]].
  - apply run_closed. vm_compute. reflexivity.
  - intros n Hn. destruct (D_constructed n Hn) as [o Ho].
    exists o. split; [done|]. by apply (D_closed n).
  - apply D_negative.
  - repeat (apply Forall_cons_2;
            [apply run_closed; vm_compute; reflexivity|]).
    constructor.
Qed.

Lemma operations_closed_witness :
  ∃ o, D 6 = Ok o ∧ closed o.
Proof.
  destruct operations_closed as (_ & HD & _).
  apply (HD 6). lia.
Defined.

(** ** Operand rows *)

Lemma elem_of_product {A : Type} (l : list A) (n : nat) (t : list A) :
  t ∈ product l n ↔ length t = n ∧ Forall (fun x => x ∈ l) t.
Proof.
  revert t. induction n as [|n IH]; intros t; simpl.
  - rewrite list_elem_of_singleton. split.
    + intros ->. by split.
    + intros [Hlen _]. by destruct t.
  - rewrite list_elem_of_bind. split.
    + intros (x & Ht & Hx). apply list_elem_of_bind in Ht as (t' & Ht & Ht').
      apply list_elem_of_singleton in Ht as ->. apply IH in Ht' as [Hlen Hall].
      split; [simpl; lia | by constructor].
    + intros [Hlen Hall]. destruct t as [|x t]; [done|].
      inversion Hall; subst. exists x. split; [|done].
      apply list_elem_of_bind. exists t. split; [by left|].
      apply IH. split; [simpl in Hlen; lia | done].
Qed.

Lemma length_prefix_rows {A : Type} (l : list A) (ts : list (list A)) :
  length (x ← l; t ← ts; [x :: t]) = (length l * length ts)%nat.
Proof.
  induction l as [|x l IH]; [done|].
  rewrite bind_cons, length_app, IH. simpl. f_equal. clear IH.
  induction ts as [|t ts IHts]; [done|].
  rewrite bind_cons. simpl. by rewrite IHts.
Qed.

Lemma length_product {A : Type} (l : list A) (n : nat) :
  length (product l n) = (length l ^ n)%nat.
Proof.
  induction n as [|n IH]; simpl; [done|].
  by rewrite length_prefix_rows, IH.
Qed.

Lemma NoDup_product {A : Type} (l : list A) (n : nat) :
  NoDup l → NoDup (product l n).
Proof.
  intros Hl. induction n as [|n IH]; simpl; [apply NoDup_singleton|].
  apply NoDup_bind; [| |done].
  - intros x y t _ _ Hx Hy.
    apply list_elem_of_bind in Hx as (tx & Hx & _).
    apply list_elem_of_bind in Hy as (ty & Hy & _).
    apply list_elem_of_singleton in Hx, Hy. congruence.
  - intros x _. apply NoDup_bind; [| |done].
    + intros t t' r _ _ Ht Ht'.
      apply list_elem_of_singleton in Ht, Ht'. congruence.
    + intros t _. apply NoDup_singleton.
Qed.

(** ** Canonical forms over the Boolean structure *)

Lemma B_facts (b : StructureObj) :
  B = Ok b →
  sorted (struct_elements b) = [Bel 0; Bel 1] ∧
  identity_add b = Some (Bel 0) ∧ identity_mul b = Some (Bel 1).
Proof.
  intros Hb.
  destruct (run_eq B
              (fun o => (sorted (struct_elements o), identity_add o,
                         identity_mul o))
              ([Bel 0; Bel 1], Some (Bel 0), Some (Bel 1)))
    as (o & Ho & Hk); [vm_compute; reflexivity|].
  rewrite Hb in Ho. injection Ho as <-. injection Hk as H1 H2 H3.
  split; [exact H1 | split; [exact H2 | exact H3]].
Qed.

Lemma B_component (e : Element) :
  e ∈ [Bel 0; Bel 1] → e = Bel (int_of_bool (value e =? 1)).
Proof.
  intros He. apply elem_of_cons in He as [->|He]; [done|].
  by apply list_elem_of_singleton in He as ->.
Qed.

Lemma B_mul (x y : bool) :
  El_mul (Bel (int_of_bool x)) (VElem (Bel (int_of_bool y)))
  = Ok (Bel (int_of_bool (x && y))).
Proof. by destruct x, y. Qed.

Lemma B_add (x y : bool) :
  El_add (Bel (int_of_bool x)) (VElem (Bel (int_of_bool y)))
  = Ok (Bel (int_of_bool (x || y))).
Proof. by destruct x, y. Qed.

Lemma B_neg (x : bool) :
  El_neg (Bel (int_of_bool x)) = Ok (VElem (Bel (int_of_bool (negb x)))).
Proof. by destruct x. Qed.

Lemma B_mul_component (acc : bool) (e : Element) :
  e ∈ [Bel 0; Bel 1] →
  El_mul (Bel (int_of_bool acc)) (VElem e)
  = Ok (Bel (int_of_bool (acc && (value e =? 1)))).
Proof. intros He. rewrite (B_component e He) at 1. apply B_mul. Qed.

Lemma B_neg_component (e : Element) :
  e ∈ [Bel 0; Bel 1] →
  El_neg e = Ok (VElem (Bel (int_of_bool (value e =? 0)))).
Proof.
  intros He. apply elem_of_cons in He as [->|He]; [done|].
  by apply list_elem_of_singleton in He as ->.
Qed.

Lemma B_add_complement (acc : bool) (e : Element) :
  e ∈ [Bel 0; Bel 1] →
  El_add (Bel (int_of_bool acc))
         (VElem (Bel (int_of_bool (value e =? 0))))
  = Ok (Bel (int_of_bool (acc || negb (value e =? 1)))).
Proof.
  intros He. rewrite B_add. do 3 f_equal.
  apply elem_of_cons in He as [->|He]; [done|].
  by apply list_elem_of_singleton in He as ->.
Qed.

Lemma B_prod (acc : bool) (t : list Element) :
  B_row t →
  prod (Bel (int_of_bool acc)) (VElem <$> t)
  = Ok (Bel (int_of_bool (acc && all_ones t))).
Proof.
  intros Ht. revert acc. induction Ht as [|e t He Ht IH]; intros acc.
  - simpl. by rewrite andb_true_r.
  - rewrite fmap_cons.
    change (prod ?a (?op :: ?ops))
      with (do acc' <- El_mul a op; prod acc' ops).
    rewrite (B_mul_component acc e He).
    change (bind (Ok ?a) ?k) with (k a). cbv beta.
    rewrite IH. simpl. by rewrite andb_assoc.
Qed.

Lemma B_complement (t : list Element) :
  B_row t → map_m El_neg t = Ok (complement t).
Proof.
  induction 1 as [|e t He Ht IH]; [done|].
  change (map_m El_neg (e :: t))
    with (do b <- El_neg e; do bs <- map_m El_neg t; Ok (b :: bs)).
  by rewrite (B_neg_component e He), IH.
Qed.

Lemma B_sum_complement (acc : bool) (t : list Element) :
  B_row t →
  sum (Bel (int_of_bool acc)) (complement t)
  = Ok (Bel (int_of_bool (acc || negb (all_ones t)))).
Proof.
  intros Ht. revert acc. induction Ht as [|e t He Ht IH]; intros acc.
  - simpl. by rewrite orb_false_r.
  - unfold complement. rewrite fmap_cons. fold (complement t).
    change (sum ?a (?op :: ?ops))
      with (do acc' <- El_add a op; sum acc' ops).
    rewrite (B_add_complement acc e He).
    change (bind (Ok ?a) ?k) with (k a). cbv beta.
    rewrite IH. simpl. do 3 f_equal.
    rewrite negb_andb. by rewrite orb_assoc.
Qed.

Lemma all_ones_replicate (t : list Element) :
  B_row t → all_ones t = true → t = replicate (length t) (Bel 1).
Proof.
  induction 1 as [|e t He Ht IH]; simpl; [done|].
  intros [He1 Hones]%andb_prop. f_equal; [|by apply IH].
  rewrite (B_component e He), He1. done.
Qed.

Lemma all_ones_replicate_one (n : nat) : all_ones (replicate n (Bel 1)) = true.
Proof. induction n as [|n IH]; simpl; done. Qed.

Lemma B_rows (b : StructureObj) (n : nat) (t : list Element) :
  B = Ok b → t ∈ operands b n ↔ length t = n ∧ B_row t.
Proof.
  intros Hb. unfold operands. destruct (B_facts b Hb) as (-> & _ & _).
  apply elem_of_product.
Qed.

Lemma ones_row_found (b : StructureObj) (n : nat) (g : list Element → bool) :
  B = Ok b →
  existsb (fun t => g t && all_ones t) (operands b n)
  = g (replicate n (Bel 1)).
Proof.
  intros Hb. apply eq_true_iff_eq. rewrite existsb_exists. split.
  - intros (t & Ht & Hg). apply list_elem_of_In, (B_rows b n t Hb) in Ht.
    destruct Ht as [Hlen Hrow]. apply andb_prop in Hg as [Hg Hones].
    by rewrite (all_ones_replicate t Hrow Hones), Hlen in Hg.
  - intros Hg. exists (replicate n (Bel 1)). split.
    + apply list_elem_of_In, (B_rows b n _ Hb). split.
      * apply length_replicate.
      * apply Forall_replicate. right. left.
    + by rewrite Hg, all_ones_replicate_one.
Qed.

Lemma B_DNF_sum (b : StructureObj) (f : Formula) (acc : bool)
    (rows : list (list Element)) :
  identity_mul b = Some (Bel 1) →
  (∀ t, t ∈ rows → B_row t ∧ ∃ r, apply f t = Ok r) →
  DNF_sum (DNF b f) (Bel (int_of_bool acc)) rows
  = Ok (Bel (int_of_bool
              (acc || existsb (fun t => truth f t && all_ones t) rows))).
Proof.
  intros Hone. revert acc.
  induction rows as [|t rows IH]; intros acc Hrows.
  - simpl. by rewrite orb_false_r.
  - destruct (Hrows t) as [Hrow [r Hr]]; [by left|].
    assert (∀ t', t' ∈ rows → B_row t' ∧ ∃ r', apply f t' = Ok r') as Hrest
      by (intros t' Ht'; apply Hrows; by right).
    change (DNF_sum (DNF b f) ?a (t :: rows))
      with (do c <- apply f t;
            if c then
              do one <- attr_identity (identity_mul b);
              do p <- prod one (VElem <$> t);
              do acc' <- El_add a (VElem p);
              DNF_sum (DNF b f) acc' rows
            else DNF_sum (DNF b f) a rows).
    assert (truth f t = r) as Htruth by (unfold truth; by rewrite Hr).
    rewrite Hr. change (bind (Ok ?a) ?k) with (k a). cbv beta.
    simpl existsb. rewrite Htruth. destruct r.
    + rewrite Hone. change (attr_identity (Some ?e)) with (Ok e).
      change (bind (Ok ?a) ?k) with (k a). cbv beta.
      change (Bel 1) with (Bel (int_of_bool true)).
      rewrite (B_prod true t Hrow).
      change (bind (Ok ?a) ?k) with (k a). cbv beta.
      rewrite B_add.
      change (bind (Ok ?a) ?k) with (k a). cbv beta.
      rewrite (IH _ Hrest). simpl. by rewrite orb_assoc.
    + by rewrite (IH _ Hrest).
Qed.

Lemma B_CNF_prod (b : StructureObj) (f : Formula) (acc : bool)
    (rows : list (list Element)) :
  identity_add b = Some (Bel 0) →
  (∀ t, t ∈ rows → B_row t ∧ ∃ r, apply f t = Ok r) →
  CNF_prod (CNF b f) (Bel (int_of_bool acc)) rows
  = Ok (Bel (int_of_bool
              (acc && negb (existsb (fun t => negb (truth f t) && all_ones t)
                                    rows)))).
Proof.
  intros Hzero. revert acc.
  induction rows as [|t rows IH]; intros acc Hrows.
  - simpl. by rewrite andb_true_r.
  - destruct (Hrows t) as [Hrow [r Hr]]; [by left|].
    assert (∀ t', t' ∈ rows → B_row t' ∧ ∃ r', apply f t' = Ok r') as Hrest
      by (intros t' Ht'; apply Hrows; by right).
    change (CNF_prod (CNF b f) ?a (t :: rows))
      with (do c <- apply f t;
            if c then CNF_prod (CNF b f) a rows
            else
              do term <- map_m El_neg t;
              do zero <- attr_identity (identity_add b);
              do s <- sum zero term;
              do acc' <- El_mul a (VElem s);
              CNF_prod (CNF b f) acc' rows).
    assert (truth f t = r) as Htruth by (unfold truth; by rewrite Hr).
    rewrite Hr. change (bind (Ok ?a) ?k) with (k a). cbv beta.
    simpl existsb. rewrite Htruth. destruct r.
    + by rewrite (IH _ Hrest).
    + rewrite (B_complement t Hrow).
      change (bind (Ok ?a) ?k) with (k a). cbv beta.
      rewrite Hzero. change (attr_identity (Some ?e)) with (Ok e).
      change (bind (Ok ?a) ?k) with (k a). cbv beta.
      change (Bel 0) with (Bel (int_of_bool false)).
      rewrite (B_sum_complement false t Hrow).
      change (bind (Ok ?a) ?k) with (k a). cbv beta.
      rewrite B_mul.
      change (bind (Ok ?a) ?k) with (k a). cbv beta.
      rewrite (IH _ Hrest). simpl. rewrite negb_orb. by rewrite andb_assoc.
Qed.

(** C1 as the spec words it does not hold: for the formula of the first
    doctest, [-(x + y + z)], the row [(0, 0, 0)] is an operand tuple on
    which the formula is truthy, while [DNF(B, f)()] and [CNF(B, f)()] are
    both [B(0)], which is falsy. *)
Lemma reconstruction_differs_from_formula :
  ∃ b d c,
    B = Ok b ∧
    [Bel 0; Bel 0; Bel 0] ∈ operands b 3 ∧
    apply nor3 [Bel 0; Bel 0; Bel 0] = Ok true ∧
    DNF_call (DNF b nor3) = Ok d ∧ El_bool d = false ∧
    CNF_call (CNF b nor3) = Ok c ∧ El_bool c = false.
Proof.
  destruct (run_eq B
              (fun b => (do d <- DNF_call (DNF b nor3); Ok (El_bool d),
                         do c <- CNF_call (CNF b nor3); Ok (El_bool c)))
              (Ok false, Ok false))
    as (b & Hb & Hk); [vm_compute; reflexivity|].
  injection Hk as Hd Hc. bind_inv Hd. bind_inv Hc.
  injection Hd as Hd. injection Hc as Hc.
  exists b, a, a0. split; [done|]. split.
  - apply (B_rows b 3 _ Hb). split; [done|].
    repeat (constructor; [by left|]). constructor.
  - by repeat split.
Qed.

(** C1, amended.  For every formula over [B] that returns a truth value on
    each operand tuple, [DNF(B, f)()] and [CNF(B, f)()] are both the element
    whose truth value is that of [f] on the all-ones tuple: the
    reconstruction multiplies and adds the operand values themselves, so it
    agrees with direct evaluation of [f] on that one row and on the rows
    where [f] takes the same value, not on each input tuple. *)
Theorem reconstruction_is_formula_at_all_ones
    (b : StructureObj) (f : Formula) :
  B = Ok b →
  (∀ t, t ∈ operands b (length (parameters f)) → ∃ r, apply f t = Ok r) →
  ∃ r,
    apply f (replicate (length (parameters f)) (Bel 1)) = Ok r ∧
    DNF_call (DNF b f) = Ok (Bel (int_of_bool r)) ∧
    CNF_call (CNF b f) = Ok (Bel (int_of_bool r)) ∧
    El_bool (Bel (int_of_bool r)) = r.
Proof.
  intros Hb Hf. set (n := length (parameters f)) in *.
  destruct (B_facts b Hb) as (Hsorted & Hzero & Hone).
  assert (∀ t, t ∈ operands b n → B_row t ∧ ∃ r, apply f t = Ok r) as Hrows.
  { intros t Ht. split; [by apply (B_rows b n t Hb) in Ht as [_ ?] | auto]. }
  destruct (Hf (replicate n (Bel 1))) as [r Hr].
  { apply (B_rows b n _ Hb). split; [apply length_replicate|].
    apply Forall_replicate. right. left. }
  assert (truth f (replicate n (Bel 1)) = r) as Htruth
    by (unfold truth; by rewrite Hr).
  exists r. split; [done|]. split; [|split; [|by destruct r]].
  - unfold DNF_call. change (arity (DNF b f)) with n.
    change (struct (DNF b f)) with b. rewrite Hzero.
    change (attr_identity (Some ?e)) with (Ok e).
    change (bind (Ok ?a) ?k) with (k a). cbv beta.
    change (Bel 0) with (Bel (int_of_bool false)).
    rewrite (B_DNF_sum b f false _ Hone Hrows).
    rewrite (ones_row_found b n (truth f) Hb). by rewrite Htruth.
  - unfold CNF_call. change (arity (CNF b f)) with n.
    change (struct (CNF b f)) with b. rewrite Hone.
    change (attr_identity (Some ?e)) with (Ok e).
    change (bind (Ok ?a) ?k) with (k a). cbv beta.
    change (Bel 1) with (Bel (int_of_bool true)).
    rewrite (B_CNF_prod b f true _ Hzero Hrows).
    rewrite (ones_row_found b n (fun t => negb (truth f t)) Hb).
    rewrite Htruth. by destruct r.
Qed.

Lemma reconstruction_is_formula_at_all_ones_witness :
  ∃ b,
    B = Ok b ∧
    apply nor3 [Bel 1; Bel 1; Bel 1] = Ok false ∧
    DNF_call (DNF b nor3) = Ok (Bel 0) ∧
    CNF_call (CNF b nor3) = Ok (Bel 0).
Proof.
  destruct (run_eq B
              (fun b => all_m (fun t => do _ <- apply nor3 t; Ok true)
                              (operands b 3))
              (Ok true))
    as (b & Hb & Hk); [vm_compute; reflexivity|].
  destruct (reconstruction_is_formula_at_all_ones b nor3 Hb)
    as (r & Hr & Hd & Hc & _).
  - by apply all_m_returns.
  - exists b. simpl in Hr. injection Hr as <-. by repeat split.
Defined.

Lemma minterms_filter (f : Formula) (rows : list (list Element)) :
  (∀ t, t ∈ rows → ∃ r, apply f t = Ok r) →
  minterms (apply f) rows = Ok (filter (fun t => truth f t = true) rows).
Proof.
  induction rows as [|t rows IH]; intros Hrows; [done|].
  destruct (Hrows t) as [r Hr]; [by left|].
  assert (truth f t = r) as Htruth by (unfold truth; by rewrite Hr).
  simpl. rewrite Hr. simpl.
  rewrite IH by (intros t' Ht'; apply Hrows; by right).
  simpl. rewrite filter_cons. rewrite Htruth. by destruct r.
Qed.

Lemma maxterms_filter (f : Formula) (rows : list (list Element)) :
  (∀ t, t ∈ rows → B_row t ∧ ∃ r, apply f t = Ok r) →
  maxterms (apply f) rows
  = Ok (complement <$> filter (fun t => truth f t = false) rows).
Proof.
  induction rows as [|t rows IH]; intros Hrows; [done|].
  destruct (Hrows t) as [Hrow [r Hr]]; [by left|].
  assert (truth f t = r) as Htruth by (unfold truth; by rewrite Hr).
  change (maxterms (apply f) (t :: rows))
    with (do c <- apply f t;
          if c then maxterms (apply f) rows
          else do term <- map_m El_neg t;
               do rest <- maxterms (apply f) rows;
               Ok (term :: rest)).
  rewrite Hr. change (bind (Ok ?a) ?k) with (k a). cbv beta.
  rewrite filter_cons, Htruth.
  rewrite IH by (intros t' Ht'; apply Hrows; by right).
  destruct r; [done|]. rewrite (B_complement t Hrow). done.
Qed.

Lemma filter_truth_lengths (f : Formula) (rows : list (list Element)) :
  (length (filter (fun t => truth f t = true) rows)
   + length (filter (fun t => truth f t = false) rows))%nat = length rows.
Proof.
  induction rows as [|t rows IH]; [done|].
  rewrite !filter_cons. destruct (truth f t); simpl; lia.
Qed.

Lemma complement_inj (t t' : list Element) :
  B_row t → B_row t' → complement t = complement t' → t = t'.
Proof.
  intros Ht. revert t'. induction Ht as [|e t He Ht IH]; intros t' Ht' Heq.
  - by destruct t'.
  - destruct Ht' as [|e' t' He' Ht']; [done|].
    unfold complement in Heq. rewrite !fmap_cons in Heq.
    injection Heq as He0 Hrest. f_equal; [|by apply IH].
    rewrite (B_component e He), (B_component e' He').
    apply elem_of_cons in He as [->|He];
      [|apply list_elem_of_singleton in He as ->];
      (apply elem_of_cons in He' as [->|He'];
       [|apply list_elem_of_singleton in He' as ->]); done.
Qed.

Lemma negate_complement (t : list Element) :
  B_row t → map_m py_neg (complement t) = Ok (row_values t).
Proof.
  induction 1 as [|e t He Ht IH]; [done|].
  unfold complement, row_values. rewrite !fmap_cons.
  fold (complement t). fold (row_values t).
  change (map_m py_neg (?v :: ?vs))
    with (do x <- py_neg v; do xs <- map_m py_neg vs; Ok (x :: xs)).
  rewrite IH.
  apply elem_of_cons in He as [->|He];
    [|apply list_elem_of_singleton in He as ->]; done.
Qed.

Lemma negate_complements (rows : list (list Element)) :
  (∀ t, t ∈ rows → B_row t) →
  map_m (map_m py_neg) (complement <$> rows) = Ok (row_values <$> rows).
Proof.
  induction rows as [|t rows IH]; intros Hrows; [done|].
  rewrite !fmap_cons.
  change (map_m ?g (?v :: ?vs))
    with (do x <- g v; do xs <- map_m g vs; Ok (x :: xs)).
  rewrite (negate_complement t) by (apply Hrows; by left).
  by rewrite IH by (intros t' Ht'; apply Hrows; by right).
Qed.

Lemma row_values_inj (t t' : list Element) :
  row_values t = row_values t' → t = t'.
Proof.
  revert t'. induction t as [|e t IH]; intros [|e' t'] Heq; try done.
  unfold row_values in Heq. rewrite !fmap_cons in Heq.
  injection Heq as -> Heq. f_equal. by apply IH.
Qed.

(** C2 as the spec words it does not hold: for [-(x + y + z)] the only
    minterm is [(0, 0, 0)] and the seven maxterms are the complements of the
    other rows.  Negating the maxterms componentwise gives those seven rows
    back, a set that does not contain the minterm; the maxterm set itself
    contains [(0, 0, 0)], so the minterm set is not its set complement
    either; and the maxterm set of the negated formula [x + y + z] is
    [(1, 1, 1)], not the minterm. *)
Lemma negated_maxterms_are_not_the_minterms :
  ∃ b d c nc c',
    B = Ok b ∧
    DNF_iter (DNF b nor3) = Ok d ∧
    CNF_iter (CNF b nor3) = Ok c ∧
    map_m (map_m py_neg) c = Ok nc ∧
    CNF_iter (CNF b or3) = Ok c' ∧
    map (map value) d = [[0; 0; 0]] ∧
    map (map repr) c =
      [[RElem 1; RElem 1; RElem 0]; [RElem 1; RElem 0; RElem 1];
       [RElem 1; RElem 0; RElem 0]; [RElem 0; RElem 1; RElem 1];
       [RElem 0; RElem 1; RElem 0]; [RElem 0; RElem 0; RElem 1];
       [RElem 0; RElem 0; RElem 0]] ∧
    map (map repr) nc =
      [[RElem 0; RElem 0; RElem 1]; [RElem 0; RElem 1; RElem 0];
       [RElem 0; RElem 1; RElem 1]; [RElem 1; RElem 0; RElem 0];
       [RElem 1; RElem 0; RElem 1]; [RElem 1; RElem 1; RElem 0];
       [RElem 1; RElem 1; RElem 1]] ∧
    map (map repr) c' = [[RElem 1; RElem 1; RElem 1]] ∧
    ¬ (∀ t, t ∈ map (map repr) nc ↔ t ∈ map (map repr) (row_values <$> d)) ∧
    ¬ (∀ t, t ∈ map (map repr) (row_values <$> d) ↔ t ∉ map (map repr) c) ∧
    ¬ (∀ t, t ∈ map (map repr) c' ↔ t ∈ map (map repr) (row_values <$> d)).
Proof.
  destruct (run_eq B
              (fun b =>
                 do d <- DNF_iter (DNF b nor3);
                 do c <- CNF_iter (CNF b nor3);
                 do nc <- map_m (map_m py_neg) c;
                 do c' <- CNF_iter (CNF b or3);
                 Ok (map (map value) d, map (map repr) c, map (map repr) nc,
                     map (map repr) c',
                     map (map repr) (row_values <$> d)))
              (Ok ([[0; 0; 0]],
                   [[RElem 1; RElem 1; RElem 0]; [RElem 1; RElem 0; RElem 1];
                    [RElem 1; RElem 0; RElem 0]; [RElem 0; RElem 1; RElem 1];
                    [RElem 0; RElem 1; RElem 0]; [RElem 0; RElem 0; RElem 1];
                    [RElem 0; RElem 0; RElem 0]],
                   [[RElem 0; RElem 0; RElem 1]; [RElem 0; RElem 1; RElem 0];
                    [RElem 0; RElem 1; RElem 1]; [RElem 1; RElem 0; RElem 0];
                    [RElem 1; RElem 0; RElem 1]; [RElem 1; RElem 1; RElem 0];
                    [RElem 1; RElem 1; RElem 1]],
                   [[RElem 1; RElem 1; RElem 1]],
                   [[RElem 0; RElem 0; RElem 0]])))
    as (b & Hb & Hk); [vm_compute; reflexivity|].
  bind_inv Hk. bind_inv Hk. bind_inv Hk. bind_inv Hk.
  injection Hk as Hd Hc Hnc Hc' Hdr.
  exists b, a, a0, a1, a2.
  do 9 (split; [done|]). rewrite Hnc, Hdr, Hc, Hc'.
  split; [|split].
  - intros Hsame. destruct (Hsame [RElem 0; RElem 0; RElem 0]) as [_ Hin].
    specialize (Hin ltac:(by left)).
    repeat (apply elem_of_cons in Hin as [Hin|Hin]; [discriminate|]).
    inversion Hin.
  - intros Hsame. destruct (Hsame [RElem 0; RElem 0; RElem 0]) as [Hin _].
    apply (Hin ltac:(by left)). do 6 right. left.
  - intros Hsame. destruct (Hsame [RElem 0; RElem 0; RElem 0]) as [_ Hin].
    specialize (Hin ltac:(by left)).
    repeat (apply elem_of_cons in Hin as [Hin|Hin]; [discriminate|]).
    inversion Hin.
Qed.

(** C2, amended.  For a formula over [B] that returns a truth value on each
    operand tuple there are [2 ^ n] operand tuples, all different; each is
    yielded by exactly one of the two forms, as a minterm when the formula
    is truthy on it and, complemented, as a maxterm when it is falsy; the
    two counts add up to [2 ^ n]; and the componentwise negation of the
    maxterm set is the complement of the minterm set among the operand
    tuples: an operand tuple is a negated maxterm exactly when it is not a
    minterm. *)
Theorem minterms_maxterms_partition (b : StructureObj) (f : Formula) :
  B = Ok b →
  (∀ t, t ∈ operands b (length (parameters f)) → ∃ r, apply f t = Ok r) →
  ∃ d c nc,
    DNF_iter (DNF b f) = Ok d ∧
    CNF_iter (CNF b f) = Ok c ∧
    map_m (map_m py_neg) c = Ok nc ∧
    length (operands b (length (parameters f)))
      = (2 ^ length (parameters f))%nat ∧
    NoDup (operands b (length (parameters f))) ∧
    (∀ t, t ∈ operands b (length (parameters f)) →
       (apply f t = Ok true ∧ t ∈ d ∧ complement t ∉ c) ∨
       (apply f t = Ok false ∧ (t ∉ d) ∧ complement t ∈ c)) ∧
    (∀ t, t ∈ d → t ∈ operands b (length (parameters f))) ∧
    (∀ m, m ∈ c →
       ∃ t, t ∈ operands b (length (parameters f)) ∧ m = complement t) ∧
    NoDup d ∧ NoDup c ∧
    (length d + length c)%nat = (2 ^ length (parameters f))%nat ∧
    (∀ t, t ∈ operands b (length (parameters f)) →
       row_values t ∈ nc ↔ t ∉ d).
Proof.
  intros Hb Hf. set (n := length (parameters f)) in *.
  set (rows := operands b n) in *.
  assert (∀ t, t ∈ rows → B_row t) as Hrow
    by (intros t Ht; by apply (B_rows b n t Hb) in Ht as [_ ?]).
  assert (∀ t, t ∈ rows → B_row t ∧ ∃ r, apply f t = Ok r) as Hrows
    by (intros t Ht; split; auto).
  assert (length rows = (2 ^ n)%nat) as Hlen.
  { unfold rows, operands. destruct (B_facts b Hb) as (-> & _ & _).
    by rewrite length_product. }
  assert (NoDup rows) as Hnodup.
  { unfold rows, operands. destruct (B_facts b Hb) as (-> & _ & _).
    apply NoDup_product. apply NoDup_cons. split; [|apply NoDup_singleton].
    intros Hin. by apply list_elem_of_singleton in Hin. }
  assert (∀ t, t ∈ rows →
            complement t ∈ (complement <$>
                              filter (fun t => truth f t = false) rows)
            ↔ truth f t = false) as Hcompl.
  { intros t Ht. rewrite list_elem_of_fmap. split.
    - intros (t' & Heq & Ht'). apply list_elem_of_filter in Ht' as [Hf' Hin'].
      by rewrite (complement_inj t t' (Hrow t Ht) (Hrow t' Hin') Heq).
    - intros Hfalse. exists t. split; [done|].
      by apply list_elem_of_filter. }
  exists (filter (fun t => truth f t = true) rows),
         (complement <$> filter (fun t => truth f t = false) rows),
         (row_values <$> filter (fun t => truth f t = false) rows).
  split; [by apply minterms_filter|].
  split; [by apply maxterms_filter|].
  split.
  { apply negate_complements. intros t Ht.
    apply list_elem_of_filter in Ht as [_ Ht]. by apply Hrow. }
  split; [done|]. split; [done|].
  split.
  { intros t Ht. destruct (Hf t Ht) as [r Hr].
    assert (truth f t = r) as Htruth by (unfold truth; by rewrite Hr).
    rewrite (Hcompl t Ht), list_elem_of_filter, Htruth, Hr.
    destruct r; [left | right]; repeat split; try done.
    by intros [? _]. }
  split; [by intros t [_ ?]%list_elem_of_filter|].
  split.
  { intros m (t & -> & Ht)%list_elem_of_fmap.
    apply list_elem_of_filter in Ht as [_ Ht]. by exists t. }
  split; [by apply NoDup_filter|].
  split.
  { apply NoDup_fmap_2_strong; [|by apply NoDup_filter].
    intros t t' Ht Ht' Heq.
    apply list_elem_of_filter in Ht as [_ Ht].
    apply list_elem_of_filter in Ht' as [_ Ht'].
    by apply complement_inj; auto. }
  split.
  { rewrite length_fmap, filter_truth_lengths. done. }
  intros t Ht. rewrite list_elem_of_fmap. split.
  - intros (t' & Heq & Ht'). apply row_values_inj in Heq as <-.
    apply list_elem_of_filter in Ht' as [Hfalse _].
    intros [Htrue _]%list_elem_of_filter. congruence.
  - intros Hnot. exists t. split; [done|]. apply list_elem_of_filter.
    split; [|done]. destruct (truth f t) eqn:E; [|done].
    exfalso. apply Hnot. by apply list_elem_of_filter.
Qed.

Lemma minterms_maxterms_partition_witness :
  ∃ b d c,
    B = Ok b ∧ DNF_iter (DNF b nor3) = Ok d ∧ CNF_iter (CNF b nor3) = Ok c ∧
    (length d + length c)%nat = 8%nat ∧
    NoDup d ∧ NoDup c.
Proof.
  destruct (run_eq B
              (fun b => all_m (fun t => do _ <- apply nor3 t; Ok true)
                              (operands b 3))
              (Ok true))
    as (b & Hb & Hk); [vm_compute; reflexivity|].
  destruct (minterms_maxterms_partition b nor3 Hb)
    as (d & c & nc & Hd & Hc & _ & _ & _ & _ & _ & _ & Hnd & Hnc & Hlen & _).
  - by apply all_m_returns.
  - by exists b, d, c.
Defined.

(** * Further properties *)

(** ** The element set *)

Lemma elem_of_sorted (l : list Element) (x : Element) :
  x ∈ sorted l ↔ x ∈ l.
Proof. unfold sorted. by rewrite merge_sort_Permutation. Qed.

Lemma dict_values_keys (m : gmap Z Element) :
  (∀ k e, m !! k = Some e → value e = k) →
  value <$> dict_values m = (map_to_list m).*1.
Proof.
  intros Hm. unfold dict_values.
  assert (∀ p, p ∈ map_to_list m → value p.2 = p.1) as Hl.
  { intros [k e] Hp. apply elem_of_map_to_list in Hp. by apply Hm. }
  induction (map_to_list m) as [|p l IH]; [done|].
  rewrite !fmap_cons. f_equal; [apply Hl; by left|].
  apply IH. intros q Hq. apply Hl. by right.
Qed.

Lemma Structure_elements_keys (s : Structure) (o : StructureObj) :
  Structure_post_init s = Ok o →
  value <$> struct_elements o = S_iter o.
Proof.
  intros Ho. apply dict_values_keys. intros k e Hk.
  rewrite (Structure_post_init_lookup s o k Ho) in Hk.
  case_decide; [|done]. by injection Hk as <-.
Qed.

Lemma Field_elements_keys (f : Field) (o : FieldObj) :
  Field_post_init f = Ok o →
  value <$> struct_elements o = F_iter o.
Proof.
  intros Ho. apply dict_values_keys. intros k e Hk.
  rewrite (Field_post_init_lookup f o k Ho) in Hk.
  case_decide; [|done]. by injection Hk as <-.
Qed.

Lemma Structure_dom (s : Structure) (o : StructureObj) :
  Structure_post_init s = Ok o → dom (S__elements o) = set s.
Proof.
  intros Ho. apply set_eq. intros k. rewrite elem_of_dom.
  rewrite (Structure_post_init_lookup s o k Ho).
  case_decide; split; try done; by intros [? ?].
Qed.

Lemma Field_dom (f : Field) (o : FieldObj) :
  Field_post_init f = Ok o →
  dom (F__elements o) = list_to_set (range (ord f)).
Proof.
  intros Ho. apply set_eq. intros k.
  rewrite elem_of_dom, elem_of_list_to_set.
  rewrite (Field_post_init_lookup f o k Ho). unfold range.
  rewrite elem_of_seqZ.
  case_decide; split; try done; try lia; by intros [? ?].
Qed.

(** X1. A constructed Structure holds exactly one element per carrier
    value: the values of [elements] are the declared set without
    repetition, each element is owned by the structure, iterating the
    structure yields those values, [len(elements)] is the size of the set,
    and wrapping the value of an element gives the element back. *)
Theorem Structure_elements_are_the_carrier (s : Structure) (o : StructureObj) :
  Structure_post_init s = Ok o →
  (∀ x, x ∈ struct_elements o ↔
        ∃ k, k ∈ set s ∧ x = {| instance := OfStructure s; value := k |}) ∧
  NoDup (value <$> struct_elements o) ∧
  (∀ k, k ∈ S_iter o ↔ k ∈ set s) ∧
  value <$> struct_elements o = S_iter o ∧
  length (struct_elements o) = size (set s) ∧
  (∀ x, x ∈ struct_elements o → S_call o (value x) = Ok x).
Proof.
  intros Ho.
  assert (∀ k, k ∈ S_iter o ↔ k ∈ set s) as Hiter.
  { intros k. unfold S_iter. rewrite <- (Structure_dom s o Ho), elem_of_dom.
    rewrite list_elem_of_fmap. split.
    - intros ([k' e] & -> & Hp). apply elem_of_map_to_list in Hp. by exists e.
    - intros [e He]. exists (k, e). split; [done|].
      by apply elem_of_map_to_list. }
  split; [intros x; by apply (elem_of_Structure_elements s o x)|].
  split.
  { rewrite (Structure_elements_keys s o Ho). apply NoDup_fst_map_to_list. }
  split; [done|]. split; [by apply (Structure_elements_keys s)|].
  split.
  { simpl. unfold dict_values. rewrite length_fmap, length_map_to_list.
    by rewrite <- size_dom, (Structure_dom s o Ho). }
  intros x Hx. apply (elem_of_Structure_elements s o x Ho) in Hx
    as (k & Hk & ->).
  cbn [value]. rewrite (S_call_lookup s o k Ho). by rewrite decide_True.
Qed.

Lemma Structure_elements_are_the_carrier_witness :
  ∃ o, D 6 = Ok o ∧ length (struct_elements o) = 4%nat ∧
       NoDup (value <$> struct_elements o).
Proof.
  destruct (run_eq (D 6) (fun o => size (set (S_self o))) 4%nat)
    as (o & Ho & Hsize); [vm_compute; reflexivity|].
  exists o. split; [done|]. rewrite D_nonneg in Ho by lia.
  destruct (Structure_elements_are_the_carrier _ o Ho)
    as (_ & Hnd & _ & _ & Hlen & _).
  split; [|done]. rewrite Hlen.
  by rewrite (Structure_post_init_self _ o Ho) in Hsize.
Defined.

(** X2. A constructed Field of order [n >= 0] holds exactly the elements
    of values [0, ..., n - 1], each once and each owned by the field, so
    [len(elements)] is [n]; calling the field on the value of an element
    gives the element back. *)
Theorem Field_elements_are_the_residues (f : Field) (o : FieldObj) :
  Field_post_init f = Ok o →
  0 ≤ ord f →
  (∀ x, x ∈ struct_elements o ↔
        ∃ k, 0 ≤ k < ord f ∧ x = {| instance := OfField f; value := k |}) ∧
  NoDup (value <$> struct_elements o) ∧
  (∀ k, k ∈ F_iter o ↔ 0 ≤ k < ord f) ∧
  Z.of_nat (length (struct_elements o)) = ord f ∧
  (∀ x, x ∈ struct_elements o → F_call o (value x) = Ok x).
Proof.
  intros Ho Hord.
  assert (∀ k, k ∈ F_iter o ↔ 0 ≤ k < ord f) as Hiter.
  { intros k. unfold F_iter. rewrite list_elem_of_fmap. split.
    - intros ([k' e] & -> & Hp). apply elem_of_map_to_list in Hp.
      rewrite (Field_post_init_lookup f o k' Ho) in Hp. by case_decide.
    - intros Hk. exists (k, {| instance := OfField f; value := k |}).
      split; [done|]. apply elem_of_map_to_list.
      rewrite (Field_post_init_lookup f o k Ho). by rewrite decide_True. }
  split; [intros x; by apply (elem_of_Field_elements f o x)|].
  split.
  { rewrite (Field_elements_keys f o Ho). apply NoDup_fst_map_to_list. }
  split; [done|]. split.
  { simpl. unfold dict_values. rewrite length_fmap, length_map_to_list.
    rewrite <- size_dom, (Field_dom f o Ho).
    rewrite size_list_to_set by apply NoDup_seqZ.
    unfold range. rewrite length_seqZ. lia. }
  intros x Hx. apply (elem_of_Field_elements f o x Ho) in Hx
    as (k & Hk & ->).
  cbn [value]. rewrite (F_call_reduces f o k Ho) by lia.
  by rewrite Z.mod_small.
Qed.

Lemma Field_elements_are_the_residues_witness :
  ∃ o, GF7 = Ok o ∧ length (struct_elements o) = 7%nat.
Proof.
  destruct (run_eq GF7 (fun _ => tt) tt) as (o & Ho & _);
    [vm_compute; reflexivity|].
  exists o. split; [done|].
  destruct (Field_elements_are_the_residues _ o Ho) as (_ & _ & _ & Hlen & _);
    [simpl; lia|].
  simpl ord in Hlen. lia.
Defined.

(** ** The stored identities *)

Lemma Structure_post_init_identities (s : Structure) (o : StructureObj) :
  Structure_post_init s = Ok o →
  find_additive_identity (struct_elements o) = Ok (identity_add o) ∧
  find_multiplicative_identity (struct_elements o) = Ok (identity_mul o).
Proof.
  unfold Structure_post_init. intros Ho.
  bind_inv Ho. bind_inv Ho. bind_inv Ho. by injection Ho as <-.
Qed.

Section IdentitiesCorrect.
Context {T : Type} `{StructLike T}.

Lemma search_gives_identities_correct (o : T) :
  find_additive_identity (struct_elements o) = Ok (identity_add o) →
  find_multiplicative_identity (struct_elements o) = Ok (identity_mul o) →
  identities_correct o.
Proof.
  intros Hadd Hmul. unfold identities_correct. split.
  - destruct (identity_add o) as [e|].
    + by apply find_additive_identity_Some.
    + by apply find_additive_identity_None.
  - destruct (identity_mul o) as [e|].
    + by apply find_multiplicative_identity_Some.
    + by apply find_multiplicative_identity_None.
Qed.
End IdentitiesCorrect.

(** X3. Identity discovery is sound and complete for both kinds of
    object: when [__post_init__] stores [identity_add], it is an element
    [e] with [e + x == x] for every element [x], and when it stores none,
    no element is such an identity; the same holds for [identity_mul] and
    [*]. *)
Theorem stored_identities_are_correct :
  (∀ (s : Structure) (o : StructureObj),
     Structure_post_init s = Ok o → identities_correct o) ∧
  (∀ (f : Field) (o : FieldObj),
     Field_post_init f = Ok o → identities_correct o).
Proof.
  split.
  - intros s o Ho.
    destruct (Structure_post_init_identities s o Ho) as [Hadd Hmul].
    by apply search_gives_identities_correct.
  - intros f o Ho.
    destruct (Field_post_init_identities f o Ho) as [Hadd Hmul].
    by apply search_gives_identities_correct.
Qed.

Lemma stored_identities_are_correct_witness :
  ∃ o, D 8 = Ok o ∧ identities_correct o ∧
       (value <$> identity_add o) = Some 1 ∧
       (value <$> identity_mul o) = Some 8.
Proof.
  destruct (run_eq (D 8)
              (fun o => (value <$> identity_add o, value <$> identity_mul o))
              (Some 1, Some 8))
    as (o & Ho & Hk); [vm_compute; reflexivity|].
  injection Hk as Hzero Hone.
  exists o. split; [done|]. split; [|by split].
  destruct stored_identities_are_correct as [HS _].
  apply (HS (D_fields 8)). by rewrite <- D_nonneg by lia.
Defined.

(** ** The predicates decide their laws *)

Lemma El_equal_run (l r : result Element) :
  (do a <- l; do b <- r; El_eq a (VElem b)) = Ok true ↔ El_equal l r.
Proof.
  unfold El_equal, El_eq. split.
  - intros Hrun. destruct l as [a|]; [|done]. destruct r as [b|]; [|done].
    simpl in Hrun. injection Hrun as Hrun. exists a, b.
    by rewrite <- Z.eqb_eq.
  - intros (a & b & -> & -> & Hv). simpl. by rewrite Hv, Z.eqb_refl.
Qed.

Lemma El_equal_false (l r : result Element) (a b : Element) :
  l = Ok a → r = Ok b → (value a =? value b) = false → ¬ El_equal l r.
Proof.
  intros -> -> Hne (a' & b' & [= <-] & [= <-] & Hv).
  apply Z.eqb_neq in Hne. done.
Qed.

Lemma commutes_true (x y : Element) :
  commutes x y = Ok true ↔
  El_equal (El_add x (VElem y)) (El_add y (VElem x)) ∧
  El_equal (El_mul x (VElem y)) (El_mul y (VElem x)).
Proof.
  rewrite <- !El_equal_run. unfold commutes, El_eq. simpl.
  destruct (El_add x (VElem y)) as [a|]; simpl; [|by split; [|intros []]].
  destruct (El_add y (VElem x)) as [b|]; simpl; [|by split; [|intros []]].
  destruct (value a =? value b); simpl; [|by split; [|intros []]].
  split; [by intros ? | by intros []].
Qed.

Lemma distributes_true (x y z : Element) :
  distributes x y z = Ok true ↔
  El_equal (do yz <- El_add y (VElem z); El_mul x (VElem yz))
           (do xy <- El_mul x (VElem y);
            do xz <- El_mul x (VElem z);
            El_add xy (VElem xz)) ∧
  El_equal (do yz <- El_mul y (VElem z); El_add x (VElem yz))
           (do xy <- El_add x (VElem y);
            do xz <- El_add x (VElem z);
            El_mul xy (VElem xz)).
Proof.
  rewrite <- !El_equal_run. unfold distributes, El_eq. simpl.
  destruct (El_add y (VElem z)) as [yz|]; simpl; [|by split; [|intros []]].
  destruct (El_mul x (VElem yz)) as [l|]; simpl; [|by split; [|intros []]].
  destruct (El_mul x (VElem y)) as [xy|]; simpl; [|by split; [|intros []]].
  destruct (El_mul x (VElem z)) as [xz|]; simpl; [|by split; [|intros []]].
  destruct (El_add xy (VElem xz)) as [r|]; simpl; [|by split; [|intros []]].
  destruct (value l =? value r); simpl; [|by split; [|intros []]].
  destruct (El_mul y (VElem z)) as [yz'|]; simpl; [|by split; [|intros []]].
  destruct (El_add x (VElem yz')) as [l'|]; simpl; [|by split; [|intros []]].
  destruct (El_add x (VElem y)) as [xy'|]; simpl; [|by split; [|intros []]].
  destruct (El_add x (VElem z)) as [xz'|]; simpl; [|by split; [|intros []]].
  split; [by intros ? | by intros []].
Qed.

Section Decide.
Context {T : Type} `{StructLike T}.

Lemma pairs_in_operands (o : T) (x y : Element) :
  [x; y] ∈ operands o 2 ↔ x ∈ struct_elements o ∧ y ∈ struct_elements o.
Proof.
  unfold operands. rewrite elem_of_product. split.
  - intros [_ Hall]. inversion Hall as [|? ? Hx Hall']; subst.
    inversion Hall' as [|? ? Hy _]; subst.
    by rewrite !elem_of_sorted in Hx, Hy.
  - intros [Hx Hy]. split; [done|].
    repeat constructor; by apply elem_of_sorted.
Qed.

Lemma triples_in_operands (o : T) (x y z : Element) :
  [x; y; z] ∈ operands o 3 ↔
  x ∈ struct_elements o ∧ y ∈ struct_elements o ∧ z ∈ struct_elements o.
Proof.
  unfold operands. rewrite elem_of_product. split.
  - intros [_ Hall]. inversion Hall as [|? ? Hx Hall']; subst.
    inversion Hall' as [|? ? Hy Hall'']; subst.
    inversion Hall'' as [|? ? Hz _]; subst.
    by rewrite !elem_of_sorted in Hx, Hy, Hz.
  - intros (Hx & Hy & Hz). split; [done|].
    repeat constructor; by apply elem_of_sorted.
Qed.

Lemma operands_length (o : T) (n : nat) (t : list Element) :
  t ∈ operands o n → length t = n.
Proof. unfold operands. rewrite elem_of_product. by intros [? _]. Qed.

Lemma is_commutative_decides (o : T) :
  is_commutative o = Ok true ↔ commutative_law o.
Proof.
  unfold is_commutative, commutative_law. rewrite all_m_Ok_true. split.
  - intros Hall x y Hx Hy. apply commutes_true.
    apply (Hall [x; y]). by apply pairs_in_operands.
  - intros Hlaw t Ht. pose proof (operands_length o 2 t Ht) as Hlen.
    destruct t as [|x [|y [|? ?]]]; try done.
    apply pairs_in_operands in Ht as [Hx Hy].
    apply commutes_true. by apply Hlaw.
Qed.

Lemma is_distributive_decides (o : T) :
  is_distributive o = Ok true ↔ distributive_law o.
Proof.
  unfold is_distributive, distributive_law. rewrite all_m_Ok_true. split.
  - intros Hall x y z Hx Hy Hz. apply distributes_true.
    apply (Hall [x; y; z]). by apply triples_in_operands.
  - intros Hlaw t Ht. pose proof (operands_length o 3 t Ht) as Hlen.
    destruct t as [|x [|y [|z [|? ?]]]]; try done.
    apply triples_in_operands in Ht as (Hx & Hy & Hz).
    apply distributes_true. by apply Hlaw.
Qed.

(** X4. [is_commutative] and [is_distributive] return [True] exactly when
    their law holds on the elements: every sum and product involved
    evaluates without an exception and the two sides compare equal, for all
    pairs and all triples of elements respectively. *)
Theorem commutative_distributive_decide (o : T) :
  (is_commutative o = Ok true ↔ commutative_law o) ∧
  (is_distributive o = Ok true ↔ distributive_law o).
Proof. split; [apply is_commutative_decides | apply is_distributive_decides]. Qed.
End Decide.
Section DecideIdentityLaws.
Context {T : Type} `{StructLike T}.

Lemma complements_true (o : T) (x : Element) :
  complements o x = Ok true ↔
  ∃ zero one,
    identity_add o = Some zero ∧ identity_mul o = Some one ∧
    El_equal (do nx <- El_neg x; El_add x nx) (Ok one) ∧
    El_equal (do nx <- El_neg x; El_mul x nx) (Ok zero).
Proof.
  unfold complements, getitem, getattr_identity, El_equal, El_eq. simpl.
  split.
  - intros Hrun.
    destruct (El_neg x) as [nx|]; simpl in *; [|done].
    destruct (El_add x nx) as [s|]; simpl in *; [|done].
    destruct (identity_mul o) as [one|]; simpl in *; [|done].
    destruct (value s =? value one) eqn:Hs; simpl in *; [|done].
    destruct (El_mul x nx) as [p|]; simpl in *; [|done].
    destruct (identity_add o) as [zero|]; simpl in *; [|done].
    injection Hrun as Hp. apply Z.eqb_eq in Hs, Hp.
    exists zero, one. repeat split; try done.
    + by exists s, one.
    + by exists p, zero.
  - intros (zero & one & -> & -> & (s & one' & Hs & [= <-] & Hsv)
            & (p & zero' & Hp & [= <-] & Hpv)).
    destruct (El_neg x) as [nx|]; simpl in *; [|done].
    rewrite Hs, Hp. simpl. rewrite Hsv, Hpv, !Z.eqb_refl. done.
Qed.

Lemma is_complementary_decides (o : T) :
  is_complementary o = Ok true ↔ complement_law o.
Proof.
  unfold is_complementary, complement_law. rewrite all_m_Ok_true.
  split; intros Hall x Hx; apply complements_true; by apply Hall.
Qed.

Lemma no_zero_divider_true (o : T) (a b : Element) :
  no_zero_divider o a b = Ok true ↔
  ∃ zero,
    identity_add o = Some zero ∧
    (value a ≠ value zero → value b ≠ value zero →
     ∃ p, El_mul a (VElem b) = Ok p ∧ value p ≠ value zero).
Proof.
  unfold no_zero_divider, getitem, getattr_identity, py_ne, py_eq, El_eq.
  simpl. destruct (identity_add o) as [zero|]; simpl;
    [|split; [done | by intros (? & ? & _)]].
  destruct (value a =? value zero) eqn:Ha; simpl.
  { apply Z.eqb_eq in Ha. split; [|done]. intros _. exists zero.
    split; [done|]. by intros ?. }
  destruct (value b =? value zero) eqn:Hb; simpl.
  { apply Z.eqb_eq in Hb. split; [|done]. intros _. exists zero.
    split; [done|]. by intros ? ?. }
  apply Z.eqb_neq in Ha, Hb. split.
  - intros Hrun. exists zero. split; [done|]. intros _ _.
    destruct (El_mul a (VElem b)) as [p|]; simpl in *; [|done].
    exists p. split; [done|]. injection Hrun as Hrun.
    apply negb_true_iff, Z.eqb_neq in Hrun. done.
  - intros (zero' & [= <-] & Hp). destruct (Hp Ha Hb) as (p & -> & Hpv).
    simpl. apply Z.eqb_neq in Hpv. by rewrite Hpv.
Qed.

Lemma no_zero_dividers_decides (o : T) :
  no_zero_dividers o = Ok true ↔ no_zero_divisor_law o.
Proof.
  unfold no_zero_dividers, no_zero_divisor_law. rewrite all_m_Ok_true. split.
  - intros Hall a b Ha Hb. apply no_zero_divider_true.
    apply (Hall [a; b]). by apply pairs_in_operands.
  - intros Hlaw t Ht. pose proof (operands_length o 2 t Ht) as Hlen.
    destruct t as [|a [|b [|? ?]]]; try done.
    apply pairs_in_operands in Ht as [Ha Hb].
    apply no_zero_divider_true. by apply Hlaw.
Qed.

(** X5. [is_complementary] returns [True] exactly when, for every
    element [x], both identities exist, [-x] evaluates, [x + -x] equals the
    multiplicative and [x * -x] the additive identity; [no_zero_dividers]
    returns [True] exactly when, for every pair of elements, the additive
    identity exists and the product of two elements different from it is
    different from it.  On an object with an element and a missing identity
    neither can return [True]. *)
Theorem complementary_no_zero_dividers_decide (o : T) :
  (is_complementary o = Ok true ↔ complement_law o) ∧
  (no_zero_dividers o = Ok true ↔ no_zero_divisor_law o).
Proof.
  split; [apply is_complementary_decides | apply no_zero_dividers_decides].
Qed.

(** X6. [is_boolean_algebraic] returns [True] exactly when the
    commutative, the distributive and the complement law all hold; the
    [has_identities] conjunct adds nothing, the existence of the identities
    is enforced by the complement law alone. *)
Theorem is_boolean_algebraic_decides (o : T) :
  is_boolean_algebraic o = Ok true ↔
  commutative_law o ∧ distributive_law o ∧ complement_law o.
Proof.
  rewrite <- is_commutative_decides, <- is_distributive_decides,
    <- is_complementary_decides.
  unfold is_boolean_algebraic. rewrite has_identities_constant.
  destruct (is_commutative o) as [[|]|]; simpl;
    [|by split; [|intros (? & _)]..].
  destruct (is_distributive o) as [[|]|]; simpl;
    [|by split; [|intros (_ & ? & _)]..].
  split; [by intros ? | by intros (_ & _ & ?)].
Qed.

(** X7. In an object that passes [is_commutative], two elements that are
    both additive identities have the same value, and likewise two
    multiplicative identities: the identity that [__post_init__] stores is
    then the only one, whatever the iteration order of the element set. *)
Theorem commutative_identity_unique (o : T) (e e' : Element) :
  is_commutative o = Ok true →
  e ∈ struct_elements o → e' ∈ struct_elements o →
  (is_additive_identity o e → is_additive_identity o e' →
   value e = value e') ∧
  (is_multiplicative_identity o e → is_multiplicative_identity o e' →
   value e = value e').
Proof.
  intros Hcomm He He'. apply is_commutative_decides in Hcomm.
  destruct (Hcomm e e' He He')
    as [(a & b & Ha & Hb & Hab) (a' & b' & Ha' & Hb' & Hab')].
  split.
  - intros Hid Hid'.
    destruct (Hid e' He') as (r & Hr & Hrv).
    destruct (Hid' e He) as (r' & Hr' & Hrv').
    rewrite Ha in Hr. rewrite Hb in Hr'. injection Hr as <-.
    injection Hr' as <-. congruence.
  - intros Hid Hid'.
    destruct (Hid e' He') as (r & Hr & Hrv).
    destruct (Hid' e He) as (r' & Hr' & Hrv').
    rewrite Ha' in Hr. rewrite Hb' in Hr'. injection Hr as <-.
    injection Hr' as <-. congruence.
Qed.
End DecideIdentityLaws.
Lemma commutative_identity_unique_witness :
  ∃ b, B = Ok b ∧
       ∀ e, e ∈ struct_elements b → is_additive_identity b e → value e = 0.
Proof.
  destruct (run_eq B (fun b => is_commutative b) (Ok true))
    as (b & Hb & Hcomm); [vm_compute; reflexivity|].
  exists b. split; [done|]. intros e He Hid.
  destruct (B_facts b Hb) as (_ & Hzero & _).
  destruct (Structure_post_init_identities _ b Hb) as [Hadd _].
  rewrite Hzero in Hadd.
  apply (find_additive_identity_Some (H:=StructureObj_like)) in Hadd
    as [Hin Hid0].
  destruct (commutative_identity_unique b e (Bel 0) Hcomm He Hin) as [Hu _].
  by apply Hu.
Defined.

(** ** Operand rows *)

#[local] Instance El_le_transitive : Transitive El_le.
Proof. intros x y z. unfold El_le. lia. Qed.

#[local] Instance El_le_total : Total El_le.
Proof. intros x y. unfold El_le. lia. Qed.

Lemma sorted_strictly (l : list Element) :
  NoDup (value <$> l) → StronglySorted El_lt_value (sorted l).
Proof.
  intros Hnd.
  assert (NoDup (value <$> sorted l)) as Hnd'.
  { unfold sorted. by rewrite merge_sort_Permutation. }
  pose proof (StronglySorted_merge_sort El_le l) as Hs. fold (sorted l) in Hs.
  induction Hs as [|x l' Hs IH Hall]; [constructor|].
  rewrite fmap_cons in Hnd'. apply NoDup_cons in Hnd' as [Hx Hnd'].
  constructor; [by apply IH|].
  apply Forall_forall. intros y Hy. rewrite Forall_forall in Hall.
  specialize (Hall y Hy). unfold El_le in Hall. unfold El_lt_value.
  assert (value x ≠ value y); [|lia].
  intros Heq. apply Hx. rewrite Heq. apply list_elem_of_fmap. by exists y.
Qed.

Lemma bind_singleton_cons {A : Type} (x : A) (ts : list (list A)) :
  (t ← ts; [x :: t]) = (x ::.) <$> ts.
Proof.
  induction ts as [|t ts IH]; [done|].
  by rewrite bind_cons, fmap_cons, IH.
Qed.

Lemma prefixed_rows_sorted (l : list Element) (ts : list (list Element)) :
  StronglySorted El_lt_value l → StronglySorted lex_lt ts →
  StronglySorted lex_lt (x ← l; t ← ts; [x :: t]).
Proof.
  intros Hl Hts. induction Hl as [|x l Hl IH Hx]; [constructor|].
  rewrite bind_cons, bind_singleton_cons.
  apply StronglySorted_app_2.
  - intros r r' Hr Hr'. apply list_elem_of_fmap in Hr as (t & -> & _).
    apply list_elem_of_bind in Hr' as (y & Hr' & Hy).
    rewrite bind_singleton_cons in Hr'.
    apply list_elem_of_fmap in Hr' as (t' & -> & _).
    apply lex_head. rewrite Forall_forall in Hx. by apply Hx.
  - apply (StronglySorted_fmap _ lex_lt lex_lt); [|done].
    intros t t' Ht. by apply lex_tail.
  - done.
Qed.

Lemma product_sorted (l : list Element) (n : nat) :
  StronglySorted El_lt_value l → StronglySorted lex_lt (product l n).
Proof.
  intros Hl. induction n as [|n IH]; simpl.
  - repeat constructor.
  - by apply prefixed_rows_sorted.
Qed.

Section Operands.
Context {T : Type} `{StructLike T}.

(** X8. [operands(n)] enumerates exactly the rows of [n] elements of the
    object, [len(elements) ** n] of them; when the elements have distinct
    values, as they do in every constructed object, no row is repeated and
    the rows come in strictly ascending lexicographic order of their
    values. *)
Theorem operands_enumerate_rows (o : T) (n : nat) :
  (∀ t, t ∈ operands o n ↔
        length t = n ∧ Forall (fun x => x ∈ struct_elements o) t) ∧
  length (operands o n) = (length (struct_elements o) ^ n)%nat ∧
  (NoDup (value <$> struct_elements o) →
   NoDup (operands o n) ∧ StronglySorted lex_lt (operands o n)).
Proof.
  split; [|split].
  - intros t. unfold operands. rewrite elem_of_product.
    split; intros [Hlen Hall]; (split; [done|]);
      eapply Forall_impl; try exact Hall; intros x Hx;
      by apply elem_of_sorted.
  - unfold operands. rewrite length_product. unfold sorted.
    by rewrite merge_sort_Permutation.
  - intros Hnd. split.
    + apply NoDup_product. unfold sorted.
      rewrite merge_sort_Permutation. by apply NoDup_fmap_1 in Hnd.
    + apply product_sorted. by apply sorted_strictly.
Qed.
End Operands.

Lemma operands_enumerate_rows_witness :
  ∃ o, D 6 = Ok o ∧ length (operands o 3) = 64%nat ∧
       NoDup (operands o 3) ∧ StronglySorted lex_lt (operands o 3).
Proof.
  destruct (run_eq (D 6) (fun o => length (struct_elements o)) 4%nat)
    as (o & Ho & Hlen); [vm_compute; reflexivity|].
  exists o. split; [done|].
  destruct (operands_enumerate_rows o 3) as (_ & Hcount & Hsorted).
  split; [by rewrite Hcount, Hlen|].
  apply Hsorted. rewrite D_nonneg in Ho by lia.
  rewrite (Structure_elements_keys _ o Ho). apply NoDup_fst_map_to_list.
Defined.

(** ** Inverses in the integers modulo [n] *)

Lemma next_m_all_false {A : Type} (p : A → result bool) (l : list A) :
  (∀ a, a ∈ l → p a = Ok false) → next_m p l = Ok None.
Proof.
  induction l as [|a l IH]; intros Hp; [done|].
  simpl. rewrite (Hp a) by left. simpl. apply IH. intros a' Ha'.
  apply Hp. by right.
Qed.

Lemma invertible_mod (a n : Z) :
  2 ≤ n → Z.gcd a n = 1 ↔ ∃ c, 0 ≤ c < n ∧ (a * c) `mod` n = 1.
Proof.
  intros Hn. split.
  - intros Hg. apply Z.gcd_bezout in Hg. destruct Hg as (u & v & Huv). exists (u `mod` n).
    split; [apply Z.mod_pos_bound; lia|].
    rewrite Z.mul_mod_idemp_r by lia.
    replace (a * u) with (1 + (- v) * n) by lia.
    rewrite Z.mod_add by lia. apply Z.mod_small. lia.
  - intros (c & Hc & Hac).
    pose proof (Z.gcd_nonneg a n) as Hnn.
    pose proof (Z.gcd_divide_l a n) as [x Hx].
    pose proof (Z.gcd_divide_r a n) as [y Hy].
    pose proof (Z.div_mod (a * c) n ltac:(lia)) as Hdm.
    rewrite Hac in Hdm.
    assert (Z.gcd a n | 1) as Hd1.
    { exists (x * c - y * ((a * c) `div` n)). nia. }
    apply Z.divide_1_r_nonneg in Hd1; lia.
Qed.

Section ZmodInverses.
Variable name : string.
Variable n : Z.
Variable o : FieldObj.
Hypothesis Hn : 2 ≤ n.
Hypothesis Ho : Field_new name n operator_add operator_mul = Ok o.

Lemma Zmod_add_inv (a : Z) :
  0 ≤ a < n →
  add_inv o (VElem (Zmod_el name n a))
  = Ok (VElem (Zmod_el name n ((- a) `mod` n))).
Proof.
  intros Ha. destruct (Zmod_getitem name n o Hn Ho) as [Hzero _].
  unfold add_inv. rewrite !Hzero.
  cbn [bind py_eq El_eq get_value value Zmod_el].
  destruct (a =? 0) eqn:E0.
  { apply Z.eqb_eq in E0 as ->. by rewrite Z.mod_0_l by lia. }
  apply Z.eqb_neq in E0.
  destruct (next_m_finds
              (fun el => do s <- py_add (VElem (Zmod_el name n a)) (VElem el);
                         py_eq s (VElem (Zmod_el name n 0)))
              (struct_elements o))
    as (el & Hnext & Hel & Hp).
  - intros x Hx. apply (Zmod_elements name n o Ho) in Hx as (j & Hj & ->).
    unfold py_add. rewrite Zmod_add by lia. by eexists.
  - exists (Zmod_el name n (n - a)).
    split; [apply (Zmod_elements name n o Ho); exists (n - a); split; [lia|done]|].
    unfold py_add. rewrite Zmod_add by lia.
    cbn [bind py_eq El_eq get_value value Zmod_el].
    replace (a + (n - a)) with n by lia. by rewrite Z.mod_same by lia.
  - rewrite Hnext. cbn [bind from_next].
    apply (Zmod_elements name n o Ho) in Hel as (j & Hj & ->).
    unfold py_add in Hp. rewrite Zmod_add in Hp by lia.
    cbn [bind py_eq El_eq get_value value Zmod_el] in Hp.
    injection Hp as Hp. apply Z.eqb_eq in Hp.
    assert (j = n - a) as ->.
    { apply Z.mod_divide in Hp as [q Hq]; [|lia].
      assert (0 < q) by nia. assert (q < 2) by nia. nia. }
    do 3 f_equal.
    replace (- a) with ((n - a) + (-1) * n) by lia.
    rewrite Z.mod_add by lia. symmetry. apply Z.mod_small. lia.
Qed.

Lemma Zmod_El_neg (a : Z) :
  0 ≤ a < n →
  El_neg (Zmod_el name n a) = Ok (VElem (Zmod_el name n ((- a) `mod` n))).
Proof.
  intros Ha. unfold El_neg. cbn [instance Zmod_el].
  unfold Field_new in Ho. unfold Zmod_fields at 1. rewrite Ho.
  cbn [bind]. by apply Zmod_add_inv.
Qed.

Lemma Zmod_mul_inv_zero :
  mul_inv o (VElem (Zmod_el name n 0)) = Ok VNaN.
Proof.
  destruct (Zmod_getitem name n o Hn Ho) as [Hzero _].
  unfold mul_inv. rewrite !Hzero. reflexivity.
Qed.

Lemma Zmod_mul_inv_default (a : Z) :
  0 < a < n → Z.gcd a n ≠ 1 →
  mul_inv o (VElem (Zmod_el name n a)) = Ok (VElem (Zmod_el name n 1)).
Proof.
  intros Ha Hg. destruct (Zmod_getitem name n o Hn Ho) as [Hzero Hone].
  unfold mul_inv. rewrite !Hzero, !Hone.
  cbn [bind py_eq El_eq get_value value Zmod_el].
  destruct (a =? 0) eqn:E0; [lia|].
  destruct (a =? 1) eqn:E1.
  { apply Z.eqb_eq in E1 as ->. done. }
  rewrite next_m_all_false; [done|].
  intros x Hx. apply (Zmod_elements name n o Ho) in Hx as (j & Hj & ->).
  unfold py_mul. rewrite Zmod_mul by lia.
  cbn [bind py_eq El_eq get_value value Zmod_el].
  f_equal. apply Z.eqb_neq. intros Hj1. apply Hg.
  apply invertible_mod; [done|]. by exists j.
Qed.
End ZmodInverses.

(** X9. In the field of the integers modulo [n >= 2], [-x] is the element
    of value [(-x.value) % n], reached through [Element.__neg__] or
    [Field.add_inv] alike; [x + -x] is the additive identity and [-(-x)]
    is [x]. *)
Theorem Zmod_negation (name : string) (n : Z) (o : FieldObj) (a : Z) :
  2 ≤ n → Field_new name n operator_add operator_mul = Ok o →
  0 ≤ a < n →
  El_neg (Zmod_el name n a) = Ok (VElem (Zmod_el name n ((- a) `mod` n))) ∧
  add_inv o (VElem (Zmod_el name n a)) = El_neg (Zmod_el name n a) ∧
  (do nx <- El_neg (Zmod_el name n a); El_add (Zmod_el name n a) nx)
  = Ok (Zmod_el name n 0) ∧
  (do nx <- El_neg (Zmod_el name n a); py_neg nx)
  = Ok (VElem (Zmod_el name n a)).
Proof.
  intros Hn Ho Ha.
  assert (0 ≤ (- a) `mod` n < n) as Hna by (apply Z.mod_pos_bound; lia).
  rewrite (Zmod_El_neg name n o Hn Ho a Ha).
  rewrite (Zmod_add_inv name n o Hn Ho a Ha).
  split; [done|]. split; [done|]. cbn [bind py_neg]. split.
  - rewrite Zmod_add by lia. do 2 f_equal.
    rewrite Z.add_mod_idemp_r by lia. replace (a + - a) with 0 by lia.
    apply Z.mod_0_l. lia.
  - rewrite (Zmod_El_neg name n o Hn Ho _ Hna). do 3 f_equal.
    destruct (decide (a = 0)) as [->|Hnz].
    + change (- 0) with 0. rewrite (Z.mod_0_l n) by lia. change (- 0) with 0. apply Z.mod_0_l. lia.
    + assert ((- a) `mod` n = n - a) as ->.
      { replace (- a) with ((n - a) + (-1) * n) by lia.
        rewrite Z.mod_add by lia. apply Z.mod_small. lia. }
      replace (- (n - a)) with (a + (-1) * n) by lia.
      rewrite Z.mod_add by lia. apply Z.mod_small. lia.
Qed.

Lemma Zmod_negation_witness :
  ∃ o, GF7 = Ok o ∧
       El_neg (Zmod_el "GF7" 7 3) = Ok (VElem (Zmod_el "GF7" 7 4)) ∧
       add_inv o (VElem (Zmod_el "GF7" 7 3)) = El_neg (Zmod_el "GF7" 7 3).
Proof.
  destruct (run_eq GF7 (fun _ => tt) tt) as (o & Ho & _);
    [vm_compute; reflexivity|].
  exists o. split; [done|].
  destruct (Zmod_negation "GF7" 7 o 3) as (H1 & H2 & _);
    [lia | exact Ho | lia |].
  split; [exact H1 | exact H2].
Defined.

(** X10. [Field.mul_inv] in the integers modulo [n >= 2]: of the additive
    identity it is [nan]; of an element coprime to [n] it is an element
    [c] with [x * c == 1]; of any other element, which has no inverse, it
    is the default of the search, the multiplicative identity. *)
Theorem Zmod_reciprocal (name : string) (n : Z) (o : FieldObj) (a : Z) :
  2 ≤ n → Field_new name n operator_add operator_mul = Ok o →
  0 ≤ a < n →
  (a = 0 → mul_inv o (VElem (Zmod_el name n a)) = Ok VNaN) ∧
  (Z.gcd a n = 1 →
   ∃ c, mul_inv o (VElem (Zmod_el name n a)) = Ok (VElem (Zmod_el name n c)) ∧
        0 ≤ c < n ∧ (a * c) `mod` n = 1) ∧
  (a ≠ 0 → Z.gcd a n ≠ 1 →
   mul_inv o (VElem (Zmod_el name n a)) = Ok (VElem (Zmod_el name n 1)) ∧
   ∀ c, (a * c) `mod` n ≠ 1).
Proof.
  intros Hn Ho Ha. split; [|split].
  - intros ->. by apply Zmod_mul_inv_zero.
  - intros Hg. assert (a ≠ 0) as Hnz.
    { intros ->. rewrite Z.gcd_0_l in Hg. lia. }
    apply (Zmod_mul_inv name n o Hn Ho); [lia|]. by apply invertible_mod.
  - intros Hnz Hg. split.
    + apply (Zmod_mul_inv_default name n o Hn Ho); [lia|done].
    + intros c Hc. apply Hg. apply invertible_mod; [done|].
      exists (c `mod` n). split; [apply Z.mod_pos_bound; lia|].
      by rewrite Z.mul_mod_idemp_r by lia.
Qed.

Lemma Zmod_reciprocal_witness :
  ∃ o, Field_new "Z8" 8 operator_add operator_mul = Ok o ∧
       mul_inv o (VElem (Zmod_el "Z8" 8 0)) = Ok VNaN ∧
       mul_inv o (VElem (Zmod_el "Z8" 8 6)) = Ok (VElem (Zmod_el "Z8" 8 1)) ∧
       ∃ c, mul_inv o (VElem (Zmod_el "Z8" 8 3))
            = Ok (VElem (Zmod_el "Z8" 8 c)) ∧ (3 * c) `mod` 8 = 1.
Proof.
  destruct (run_eq (Field_new "Z8" 8 operator_add operator_mul)
                   (fun _ => tt) tt) as (o & Ho & _);
    [vm_compute; reflexivity|].
  exists o. split; [done|].
  destruct (Zmod_reciprocal "Z8" 8 o 0) as (H0 & _); [lia | exact Ho | lia |].
  destruct (Zmod_reciprocal "Z8" 8 o 6) as (_ & _ & H6);
    [lia | exact Ho | lia |].
  destruct (Zmod_reciprocal "Z8" 8 o 3) as (_ & H3 & _);
    [lia | exact Ho | lia |].
  split; [by apply H0|]. split.
  - apply H6; [lia | vm_compute; discriminate].
  - destruct H3 as (c & Hc & _ & Hc'); [reflexivity|]. by exists c.
Defined.

(** ** The integers modulo [n] as a finite field *)

Section ZmodField.
Variable name : string.
Variable n : Z.
Variable o : FieldObj.
Hypothesis Hn : 2 ≤ n.
Hypothesis Ho : Field_new name n operator_add operator_mul = Ok o.

Lemma Zmod_commutative : is_commutative o = Ok true.
Proof.
  apply is_commutative_decides. intros x y Hx Hy.
  apply (Zmod_elements name n o Ho) in Hx as (a & Ha & ->).
  apply (Zmod_elements name n o Ho) in Hy as (b & Hb & ->).
  rewrite !Zmod_add, !Zmod_mul by lia.
  split; eexists _, _; (split; [done|]); (split; [done|]); simpl;
    f_equal; lia.
Qed.

Lemma Zmod_no_zero_divisor_law :
  no_zero_divisor_law o ↔
  ∀ a b, 0 < a < n → 0 < b < n → (a * b) `mod` n ≠ 0.
Proof.
  pose proof (Zmod_identity_add name n o Hn Ho) as Hzero.
  split.
  - intros Hlaw a b Ha Hb.
    destruct (Hlaw (Zmod_el name n a) (Zmod_el name n b))
      as (zero & Hz & Hp).
    + apply (Zmod_elements name n o Ho). exists a. split; [lia|done].
    + apply (Zmod_elements name n o Ho). exists b. split; [lia|done].
    + rewrite Hzero in Hz. injection Hz as <-.
      destruct Hp as (p & Hp & Hne); simpl; [lia..|].
      rewrite Zmod_mul in Hp by lia. injection Hp as <-. exact Hne.
  - intros Hnz x y Hx Hy.
    apply (Zmod_elements name n o Ho) in Hx as (a & Ha & ->).
    apply (Zmod_elements name n o Ho) in Hy as (b & Hb & ->).
    exists (Zmod_el name n 0). split; [done|]. simpl. intros Ha0 Hb0.
    rewrite Zmod_mul by lia. eexists. split; [done|]. simpl.
    apply Hnz; lia.
Qed.

Lemma Zmod_no_zero_dividers : no_zero_dividers o = Ok true ↔ prime n.
Proof.
  rewrite no_zero_dividers_decides, Zmod_no_zero_divisor_law. split.
  - intros Hnz. destruct (prime_dec n) as [|Hnp]; [done|].
    destruct (not_prime_divide n ltac:(lia) Hnp) as (d & Hd & q & Hq).
    exfalso. apply (Hnz q d); [nia | lia |].
    rewrite <- Hq. apply Z.mod_same. lia.
  - intros Hp a b Ha Hb Hab.
    apply Z.mod_divide in Hab; [|lia].
    apply (Z.divide_prime_mul a b n) in Hab; [|by apply prime_alt].
    destruct Hab as [Hd|Hd];
      apply Z.divide_pos_le in Hd; lia.
Qed.

Lemma Zmod_length : length (struct_elements o) = Z.to_nat n.
Proof.
  pose proof (f_equal length (Field_elements_keys _ o Ho)) as Hlen.
  rewrite length_fmap in Hlen. rewrite Hlen. unfold F_iter.
  rewrite length_fmap, length_map_to_list, <- size_dom.
  rewrite (Field_dom _ o Ho). simpl. unfold range.
  rewrite size_list_to_set by apply NoDup_seqZ.
  by rewrite length_seqZ.
Qed.
End ZmodField.

(** X11. For the integers modulo [n >= 2], [no_zero_dividers] returns
    [True] exactly when [n] is prime, and [is_finite_field] returns [True]
    exactly when moreover [prime_power] accepts the number of elements,
    which is [n]; both always return a Boolean. *)
Theorem Zmod_finite_field_iff_prime (prime_power : nat → Z * Z)
    (name : string) (n : Z) (o : FieldObj) :
  2 ≤ n → Field_new name n operator_add operator_mul = Ok o →
  (no_zero_dividers o = Ok true ↔ prime n) ∧
  (∃ b, no_zero_dividers o = Ok b) ∧
  length (struct_elements o) = Z.to_nat n ∧
  (is_finite_field prime_power o = Ok true ↔
   prime_power (Z.to_nat n) ≠ (0, 0) ∧ prime n) ∧
  (∃ b, is_finite_field prime_power o = Ok b).
Proof.
  intros Hn Ho.
  pose proof (Zmod_no_zero_dividers name n o Hn Ho) as Hnz.
  pose proof (Zmod_length name n o Ho) as Hlen.
  assert (∃ b, no_zero_dividers o = Ok b) as [b Hb].
  { unfold no_zero_dividers. apply all_m_total. intros t Ht.
    pose proof (operands_length o 2 t Ht) as Hl.
    destruct t as [|x [|y [|? ?]]]; try discriminate.
    apply pairs_in_operands in Ht as [Hx Hy].
    apply (Zmod_elements name n o Ho) in Hx as (a & Ha & ->).
    apply (Zmod_elements name n o Ho) in Hy as (c & Hc & ->).
    destruct (Zmod_getitem name n o Hn Ho) as [Hzero _].
    unfold no_zero_divider. rewrite !Hzero.
    unfold py_ne. cbn [bind py_eq El_eq get_value value Zmod_el].
    destruct (a =? 0); cbn [negb]; [by eexists|].
    destruct (c =? 0); cbn [negb]; [by eexists|].
    rewrite Zmod_mul by lia.
    cbn [bind py_eq El_eq get_value value Zmod_el]. by eexists. }
  split; [done|]. split; [by exists b|]. split; [done|].
  unfold is_finite_field. rewrite Hlen.
  rewrite (Zmod_commutative name n o Hn Ho), has_identities_constant.
  cbn [bind]. case_decide as Hpp.
  - split; [|by eexists]. split; [done|]. by intros [? _].
  - split; [|by exists b]. rewrite Hnz. split; [done|]. by intros [_ ?].
Qed.

Lemma Zmod_finite_field_iff_prime_witness :
  ∃ o, GF7 = Ok o ∧ no_zero_dividers o = Ok true ∧
       is_finite_field (fun k => (Z.of_nat k, 1)) o = Ok true.
Proof.
  destruct (run_eq GF7 (fun _ => tt) tt) as (o & Ho & _);
    [vm_compute; reflexivity|].
  exists o. split; [done|].
  destruct (Zmod_finite_field_iff_prime (fun k => (Z.of_nat k, 1)) "GF7" 7 o)
    as (Hnz & _ & _ & Hff & _); [lia | exact Ho |].
  assert (prime 7) as Hp.
  { apply prime_alt. split; [lia|]. intros k Hk [q Hq].
    assert (k = 2 ∨ k = 3 ∨ k = 4 ∨ k = 5 ∨ k = 6) as Hcases by lia.
    destruct Hcases as [->|[->|[->|[->| ->]]]]; lia. }
  split; [by apply Hnz|]. apply Hff. split; [discriminate | done].
Defined.

(** ** The divisor structures *)

Lemma complement_divisor_coprime (n x : Z) :
  0 < n → 0 < x → (x | n) →
  squarefree n → Z.gcd x (n `div` x) = 1 ∧ Z.lcm x (n `div` x) = n.
Proof.
  intros Hn Hx [q Hq] Hsf.
  assert (n `div` x = q) as -> by (subst n; apply Z.div_mul; lia).
  assert (0 < q) by nia.
  assert (Z.gcd x q = 1) as Hg.
  { pose proof (Z.gcd_nonneg x q) as Hnn.
    destruct (Z.gcd_divide_l x q) as [u Hu].
    destruct (Z.gcd_divide_r x q) as [v Hv].
    destruct (decide (Z.gcd x q = 0)) as [H0|H0].
    { apply Z.gcd_eq_0_l in H0. lia. }
    destruct (decide (Z.gcd x q = 1)) as [|H1]; [done|].
    exfalso. apply (Hsf (Z.gcd x q)); [lia|].
    exists (v * u). subst n. rewrite Hu at 1. rewrite Hv at 1. lia. }
  split; [done|]. unfold Z.lcm. rewrite Hg, Z.div_1_r. lia.
Qed.

Lemma square_divisor_not_coprime (n k : Z) :
  0 < n → 1 < k → (k * k | n) →
  0 < k ∧ (k | n) ∧ Z.gcd k (n `div` k) ≠ 1.
Proof.
  intros Hn Hk [q Hq]. split; [lia|]. split; [exists (q * k); lia|].
  assert (n `div` k = q * k) as ->.
  { subst n. rewrite Z.mul_assoc. apply Z.div_mul. lia. }
  rewrite (Z.mul_comm q k), Z.gcd_mul_diag_l; lia.
Qed.

Lemma mul_divide_mul (a b c d : Z) : (a | c) → (b | d) → (a * b | c * d).
Proof. intros [u ->] [v ->]. exists (u * v). lia. Qed.

Lemma gcd_mul_lcm (a b : Z) :
  0 < a → 0 < b → Z.gcd a b * Z.lcm a b = a * b.
Proof.
  intros Ha Hb. unfold Z.lcm.
  destruct (Z.gcd_divide_r a b) as [q Hq].
  pose proof (Z.gcd_nonneg a b) as Hnn.
  assert (Z.gcd a b ≠ 0) as Hg0.
  { intros H0. apply Z.gcd_eq_0_l in H0. lia. }
  set (g := Z.gcd a b) in *.
  assert (0 < q) by nia.
  assert (b `div` g = q) as -> by (rewrite Hq; by apply Z.div_mul).
  rewrite Z.abs_eq by nia. rewrite Hq. lia.
Qed.

(** [gcd] distributes over [lcm] and [lcm] over [gcd]. *)
Lemma gcd_lcm_distr (x y z : Z) :
  0 < x → 0 < y → 0 < z →
  Z.gcd x (Z.lcm y z) = Z.lcm (Z.gcd x y) (Z.gcd x z).
Proof.
  intros Hx Hy Hz.
  pose proof (Z.gcd_nonneg x y) as Ha. pose proof (Z.gcd_nonneg x z) as Hb.
  assert (Z.gcd x y ≠ 0) as Ha0.
  { intros H0. apply Z.gcd_eq_0_l in H0. lia. }
  assert (Z.gcd x z ≠ 0) as Hb0.
  { intros H0. apply Z.gcd_eq_0_l in H0. lia. }
  apply Z.divide_antisym_nonneg;
    [apply Z.gcd_nonneg | apply Z.lcm_nonneg | |].
  - set (c := Z.gcd (Z.gcd x y) (Z.gcd x z)).
    assert (c ≠ 0) as Hc0.
    { intros H0. apply Z.gcd_eq_0_l in H0. lia. }
    assert ((c | x) ∧ (c | y) ∧ (c | z)) as (Hcx & Hcy & Hcz).
    { split; [|split].
      - etrans; [apply Z.gcd_divide_l|apply Z.gcd_divide_l].
      - etrans; [apply Z.gcd_divide_l|apply Z.gcd_divide_r].
      - etrans; [apply Z.gcd_divide_r|apply Z.gcd_divide_r]. }
    apply (Z.mul_divide_cancel_r _ _ c); [done|].
    rewrite (Z.mul_comm (Z.lcm _ _) c). unfold c at 2.
    rewrite gcd_mul_lcm by lia.
    rewrite <- (Z.gcd_mul_mono_l_nonneg x z (Z.gcd x y)) by done.
    apply Z.gcd_greatest.
    + rewrite (Z.mul_comm (Z.gcd x y) x).
      rewrite <- (Z.gcd_mul_mono_l_nonneg x y x) by lia.
      apply Z.gcd_greatest; apply mul_divide_mul;
        done || apply Z.gcd_divide_l.
    + rewrite (Z.mul_comm (Z.gcd x y) z).
      rewrite <- (Z.gcd_mul_mono_l_nonneg x y z) by lia.
      apply Z.gcd_greatest.
      * rewrite (Z.mul_comm z x). apply mul_divide_mul;
          done || apply Z.gcd_divide_l.
      * rewrite (Z.mul_comm z y), <- (gcd_mul_lcm y z) by done.
        rewrite (Z.mul_comm (Z.gcd y z)).
        apply mul_divide_mul; [apply Z.gcd_divide_r|].
        by apply Z.gcd_greatest.
  - apply Z.lcm_least; apply Z.gcd_greatest;
      try apply Z.gcd_divide_l.
    + etrans; [apply Z.gcd_divide_r|apply Z.divide_lcm_l].
    + etrans; [apply Z.gcd_divide_r|apply Z.divide_lcm_r].
Qed.

Lemma lcm_gcd_distr (x y z : Z) :
  0 < x → 0 < y → 0 < z →
  Z.lcm x (Z.gcd y z) = Z.gcd (Z.lcm x y) (Z.lcm x z).
Proof.
  intros Hx Hy Hz.
  assert (0 < Z.lcm x y) as Hxy.
  { pose proof (Z.lcm_nonneg x y).
    assert (Z.lcm x y ≠ 0); [|lia]. intros H0. apply Z.lcm_eq_0 in H0. lia. }
  rewrite gcd_lcm_distr by done.
  rewrite (Z.gcd_comm (Z.lcm x y) x).
  rewrite (proj1 (Z.divide_gcd_iff x (Z.lcm x y) ltac:(lia)))
    by apply Z.divide_lcm_l.
  rewrite (Z.gcd_comm (Z.lcm x y) z), gcd_lcm_distr by done.
  rewrite Z.lcm_assoc.
  rewrite (Z.lcm_comm x (Z.gcd z x)).
  rewrite (Z.divide_lcm_eq_r (Z.gcd z x) x) by (lia || apply Z.gcd_divide_r).
  by rewrite (Z.gcd_comm z y).
Qed.

Section Divisors.
Variable n : Z.
Variable o : StructureObj.
Hypothesis Hn : 0 < n.
Hypothesis Ho : D n = Ok o.

Lemma D_post_init : Structure_post_init (D_fields n) = Ok o.
Proof. rewrite <- Ho. symmetry. apply D_nonneg. lia. Qed.

Lemma D_elements (x : Element) :
  x ∈ struct_elements o ↔ ∃ d, (0 < d ∧ (d | n)) ∧ x = D_el n d.
Proof.
  rewrite (elem_of_Structure_elements _ o x D_post_init).
  split; intros (d & Hd & ->); exists d; (split; [|done]);
    by apply elem_of_divisors.
Qed.

Lemma D_one : D_el n 1 ∈ struct_elements o.
Proof. apply D_elements. exists 1. split; [|done]. split; [lia|]. apply Z.divide_1_l. Qed.

Lemma D_top : D_el n n ∈ struct_elements o.
Proof. apply D_elements. exists n. split; [|done]. split; [lia|done]. Qed.

Lemma D_add (a b : Z) :
  El_add (D_el n a) (VElem (D_el n b)) = Ok (D_el n (Z.lcm a b)).
Proof. reflexivity. Qed.

Lemma D_mul (a b : Z) :
  El_mul (D_el n a) (VElem (D_el n b)) = Ok (D_el n (Z.gcd a b)).
Proof. reflexivity. Qed.

Lemma D_neg (a : Z) :
  a ≠ 0 → El_neg (D_el n a) = Ok (VElem (D_el n (n `div` a))).
Proof.
  intros Ha. unfold El_neg, D_el at 1. cbn [instance value D_fields inv].
  unfold py_floordiv. cbn [value D_el]. apply Z.eqb_neq in Ha.
  by rewrite Ha.
Qed.

Lemma D_identity_add : identity_add o = Some (D_el n 1).
Proof.
  destruct (Structure_post_init_identities _ o D_post_init) as [Hfind _].
  destruct (identity_add o) as [e|].
  - apply find_additive_identity_Some in Hfind as [He Hid].
    apply D_elements in He as (d & [Hd _] & ->).
    destruct (Hid _ D_one) as (r & Hr & Hv).
    rewrite D_add in Hr. injection Hr as <-. simpl in Hv.
    rewrite Z.lcm_1_r in Hv. do 2 f_equal. lia.
  - exfalso. apply (find_additive_identity_None o Hfind _ D_one).
    intros x Hx. apply D_elements in Hx as (d & [Hd _] & ->).
    rewrite D_add. eexists. split; [done|]. simpl.
    rewrite Z.lcm_1_l. lia.
Qed.

Lemma D_identity_mul : identity_mul o = Some (D_el n n).
Proof.
  destruct (Structure_post_init_identities _ o D_post_init) as [_ Hfind].
  destruct (identity_mul o) as [e|].
  - apply find_multiplicative_identity_Some in Hfind as [He Hid].
    apply D_elements in He as (d & [Hd Hdn] & ->).
    destruct (Hid _ D_top) as (r & Hr & Hv).
    rewrite D_mul in Hr. injection Hr as <-. simpl in Hv.
    do 2 f_equal. apply Z.divide_gcd_iff in Hdn; lia.
  - exfalso. apply (find_multiplicative_identity_None o Hfind _ D_top).
    intros x Hx. apply D_elements in Hx as (d & [Hd Hdn] & ->).
    rewrite D_mul. eexists. split; [done|]. simpl.
    rewrite Z.gcd_comm. apply Z.divide_gcd_iff in Hdn; lia.
Qed.

Lemma D_commutative : is_commutative o = Ok true.
Proof.
  apply is_commutative_decides. intros x y Hx Hy.
  apply D_elements in Hx as (a & Ha & ->).
  apply D_elements in Hy as (b & Hb & ->).
  rewrite !D_add, !D_mul.
  split; eexists _, _; (split; [done|]); (split; [done|]); simpl.
  - apply Z.lcm_comm.
  - apply Z.gcd_comm.
Qed.

Lemma D_distributive : is_distributive o = Ok true.
Proof.
  apply is_distributive_decides. intros x y z Hx Hy Hz.
  apply D_elements in Hx as (a & [Ha _] & ->).
  apply D_elements in Hy as (b & [Hb _] & ->).
  apply D_elements in Hz as (c & [Hc _] & ->).
  rewrite !D_add, !D_mul. cbn [bind]. rewrite !D_add, !D_mul.
  split; eexists _, _; (split; [done|]); (split; [done|]); simpl.
  - by apply gcd_lcm_distr.
  - by apply lcm_gcd_distr.
Qed.

Lemma D_boolean_algebraic :
  is_boolean_algebraic o = is_complementary o.
Proof.
  unfold is_boolean_algebraic.
  by rewrite D_commutative, D_distributive, has_identities_constant.
Qed.

Lemma D_complements (d : Z) :
  0 < d →
  complements o (D_el n d)
  = Ok ((Z.lcm d (n `div` d) =? n) && (Z.gcd d (n `div` d) =? 1)).
Proof.
  intros Hd. unfold complements, getitem. cbn [Z.eqb].
  rewrite D_identity_add, D_identity_mul, D_neg by lia.
  cbn [bind getattr_identity]. rewrite D_add, D_mul.
  cbn [bind El_eq get_value value D_el].
  cbn [Pos.eqb bind El_eq get_value value D_el].
  by destruct (Z.lcm d (n `div` d) =? n).
Qed.

Lemma D_complementary : is_complementary o = Ok true ↔ squarefree n.
Proof.
  unfold is_complementary. rewrite all_m_Ok_true. split.
  - intros Hall k Hk Hkk.
    destruct (square_divisor_not_coprime n k Hn Hk Hkk) as (Hk0 & Hkn & Hg).
    assert (D_el n k ∈ struct_elements o) as Hin
      by (apply D_elements; by exists k).
    specialize (Hall _ Hin). rewrite D_complements in Hall by done.
    injection Hall as Hall.
    apply andb_true_iff in Hall as [_ Hall]. by apply Z.eqb_eq in Hall.
  - intros Hsf x Hx. apply D_elements in Hx as (d & [Hd Hdn] & ->).
    rewrite D_complements by done.
    destruct (complement_divisor_coprime n d Hn Hd Hdn Hsf) as [-> ->].
    by rewrite !Z.eqb_refl.
Qed.

Lemma D_complementary_total : ∃ b, is_complementary o = Ok b.
Proof.
  apply all_m_total. intros x Hx.
  apply D_elements in Hx as (d & [Hd Hdn] & ->).
  rewrite D_complements by done. by eexists.
Qed.
End Divisors.

(** X12. For every [n > 0] the additive identity [D(n)] stores is the
    divisor [1] and the multiplicative identity is [n]; the negation of a
    divisor [d] is [n // d], whose negation is [d] again. *)
Theorem D_identities_and_negation (n : Z) (o : StructureObj) :
  0 < n → D n = Ok o →
  identity_add o = Some (D_el n 1) ∧
  identity_mul o = Some (D_el n n) ∧
  ∀ x, x ∈ struct_elements o →
       El_neg x = Ok (VElem (D_el n (n `div` value x))) ∧
       D_el n (n `div` value x) ∈ struct_elements o ∧
       El_neg (D_el n (n `div` value x)) = Ok (VElem x).
Proof.
  intros Hn Ho.
  split; [exact (D_identity_add n o Hn Ho)|].
  split; [exact (D_identity_mul n o Hn Ho)|].
  intros x Hx. apply (D_elements n o Hn Ho) in Hx as (d & [Hd [q Hq]] & ->).
  cbn [value D_el].
  assert (n `div` d = q) as -> by (subst n; apply Z.div_mul; lia).
  assert (0 < q) by nia.
  split; [|split].
  - rewrite D_neg by lia. do 3 f_equal. subst n. apply Z.div_mul. lia.
  - apply (D_elements n o Hn Ho). exists q. split; [|done].
    split; [done|]. exists d. lia.
  - rewrite D_neg by lia. do 3 f_equal. subst n.
    rewrite Z.mul_comm. apply Z.div_mul. lia.
Qed.

Lemma D_identities_and_negation_witness :
  ∃ o, D 12 = Ok o ∧ identity_add o = Some (D_el 12 1) ∧
       identity_mul o = Some (D_el 12 12).
Proof.
  destruct (D_constructed 12) as [o Ho]; [lia|].
  exists o. split; [done|].
  destruct (D_identities_and_negation 12 o) as (H0 & H1 & _);
    [lia | exact Ho |].
  split; [exact H0 | exact H1].
Defined.

(** X13. For every [n > 0], [D(n)] passes [is_commutative] and
    [is_distributive], and [is_complementary] and [is_boolean_algebraic]
    return [True] exactly when [n] is square-free and [False] otherwise. *)
Theorem D_boolean_iff_squarefree (n : Z) (o : StructureObj) :
  0 < n → D n = Ok o →
  is_commutative o = Ok true ∧
  is_distributive o = Ok true ∧
  (is_complementary o = Ok true ↔ squarefree n) ∧
  (is_boolean_algebraic o = Ok true ↔ squarefree n) ∧
  (is_boolean_algebraic o = Ok false ↔ ¬ squarefree n).
Proof.
  intros Hn Ho.
  pose proof (D_complementary n o Hn Ho) as Hc.
  destruct (D_complementary_total n o Hn Ho) as [b Hb].
  split; [exact (D_commutative n o Hn Ho)|].
  split; [exact (D_distributive n o Hn Ho)|].
  split; [done|].
  rewrite (D_boolean_algebraic n o Hn Ho).
  split; [done|].
  rewrite <- Hc, Hb. by destruct b; split.
Qed.

Lemma D_boolean_iff_squarefree_witness :
  ∃ o, D 12 = Ok o ∧ is_distributive o = Ok true ∧
       is_boolean_algebraic o = Ok false.
Proof.
  destruct (D_constructed 12) as [o Ho]; [lia|].
  exists o. split; [done|].
  destruct (D_boolean_iff_squarefree 12 o) as (_ & Hd & _ & _ & Hb);
    [lia | exact Ho |].
  split; [exact Hd|]. apply Hb. intros Hsf. apply (Hsf 2); [lia|].
  by exists 3.
Defined.

(** ** Binding a formula *)

Lemma map_m_Ok {A B : Type} (f : A → result B) (g : A → B) (l : list A) :
  (∀ a, a ∈ l → f a = Ok (g a)) → map_m f l = Ok (g <$> l).
Proof.
  induction l as [|a l IH]; intros Hf; [done|].
  simpl. rewrite (Hf a) by left. simpl. rewrite IH; [done|].
  intros a' Ha'. apply Hf. by right.
Qed.

Lemma map_m_Raise {A B : Type} (f : A → result B) (e : exn) (l : list A) :
  (∀ a, a ∈ l → (∃ b, f a = Ok b) ∨ f a = Raise e) →
  (∃ a, a ∈ l ∧ f a = Raise e) →
  map_m f l = Raise e.
Proof.
  induction l as [|a l IH]; intros Hf (a0 & Ha0 & Hr); [inversion Ha0|].
  simpl. destruct (Hf a) as [[b Hb]|Hb]; [by left| |]; rewrite Hb; [|done].
  simpl. rewrite IH; [done| |].
  - intros a' Ha'. apply Hf. by right.
  - apply elem_of_cons in Ha0 as [->|Ha0]; [congruence|]. by exists a0.
Qed.

Lemma S_bind_spec {A : Type} (s : Structure) (o : StructureObj)
    (formula : list Element → result A) (args : list Z) :
  Structure_post_init s = Ok o →
  S_bind o formula args =
    if decide (Forall (fun v => v ∈ set s) args)
    then formula ((fun v => {| instance := OfStructure s; value := v |})
                    <$> args)
    else Raise ValueError.
Proof.
  intros Ho. unfold S_bind. case_decide as Hall.
  - rewrite (map_m_Ok _ (fun v => {| instance := OfStructure s;
                                      value := v |})); [done|].
    intros v Hv. rewrite (S_call_lookup s o v Ho).
    rewrite Forall_forall in Hall. by rewrite decide_True by by apply Hall.
  - rewrite (map_m_Raise _ ValueError); [done| |].
    + intros v _. rewrite (S_call_lookup s o v Ho).
      case_decide; [left; by eexists | by right].
    + apply not_Forall_Exists, Exists_exists in Hall as (v & Hv & Hnin);
        [|apply _].
      exists v. split; [done|]. rewrite (S_call_lookup s o v Ho).
      by rewrite decide_False.
Qed.

Lemma F_bind_spec {A : Type} (f : Field) (o : FieldObj)
    (formula : list Element → result A) (args : list Z) :
  Field_post_init f = Ok o → 0 < ord f →
  F_bind o formula args =
    formula ((fun v => {| instance := OfField f; value := v `mod` ord f |})
               <$> args).
Proof.
  intros Ho Hord. unfold F_bind.
  rewrite (map_m_Ok _ (fun v => {| instance := OfField f;
                                    value := v `mod` ord f |})); [done|].
  intros v _. by apply F_call_reduces.
Qed.

(** X14. [bind] of a Structure wraps every argument before the formula is
    called: with all arguments in the carrier the bound function is the
    formula on the elements of these values, and with any argument outside
    it raises [ValueError] whatever the formula is.  [bind] of a Field of
    positive order never rejects an argument: the formula is called on the
    elements of the residues. *)
Theorem bind_wraps_the_arguments {A : Type}
    (formula : list Element → result A) (args : list Z) :
  (∀ (s : Structure) (o : StructureObj),
     Structure_post_init s = Ok o →
     (Forall (fun v => v ∈ set s) args →
      S_bind o formula args
      = formula ((fun v => {| instance := OfStructure s; value := v |})
                   <$> args)) ∧
     (¬ Forall (fun v => v ∈ set s) args →
      S_bind o formula args = Raise ValueError)) ∧
  (∀ (f : Field) (o : FieldObj),
     Field_post_init f = Ok o → 0 < ord f →
     F_bind o formula args
     = formula ((fun v => {| instance := OfField f;
                             value := v `mod` ord f |}) <$> args)).
Proof.
  split.
  - intros s o Ho. rewrite (S_bind_spec s o formula args Ho).
    split; intros Hall; [by rewrite decide_True | by rewrite decide_False].
  - intros f o Ho Hord. by apply F_bind_spec.
Qed.

Lemma bind_wraps_the_arguments_witness :
  ∃ b r, B = Ok b ∧ S_bind b bound_formula [1; 1] = Ok r ∧ value r = 0 ∧
         S_bind b bound_formula [1; 2] = Raise ValueError.
Proof.
  destruct (run_eq B (fun _ => tt) tt) as (b & Hb & _);
    [vm_compute; reflexivity|].
  exists b.
  destruct (bind_wraps_the_arguments bound_formula [1; 1]) as [H1 _].
  destruct (bind_wraps_the_arguments bound_formula [1; 2]) as [H2 _].
  destruct (H1 _ b Hb) as [H1' _]. destruct (H2 _ b Hb) as [_ H2'].
  eexists. split; [done|]. split; [|split].
  - rewrite H1'; [reflexivity|].
    repeat constructor; apply elem_of_union; right;
      by apply elem_of_singleton.
  - reflexivity.
  - apply H2'. intros Hall. apply Forall_cons in Hall as [_ Hall].
    apply Forall_cons in Hall as [Hall _]. cbn [set] in Hall.
    apply elem_of_union in Hall as [Hall|Hall];
      by apply elem_of_singleton in Hall.
Defined.

(** ** Objects without elements *)

Section EmptyObjects.
Context {T : Type} `{StructLike T}.

Lemma operands_empty (o : T) (n : nat) :
  struct_elements o = [] → operands o (S n) = [].
Proof. intros He. unfold operands. by rewrite He. Qed.

Lemma empty_predicates (o : T) :
  struct_elements o = [] →
  is_commutative o = Ok true ∧ is_distributive o = Ok true ∧
  is_complementary o = Ok true ∧ no_zero_dividers o = Ok true ∧
  is_boolean_algebraic o = Ok true.
Proof.
  intros He.
  assert (is_commutative o = Ok true) as Hc.
  { unfold is_commutative. by rewrite operands_empty. }
  assert (is_distributive o = Ok true) as Hd.
  { unfold is_distributive. by rewrite operands_empty. }
  assert (is_complementary o = Ok true) as Hk.
  { unfold is_complementary. by rewrite He. }
  repeat split; try done.
  - unfold no_zero_dividers. by rewrite operands_empty.
  - unfold is_boolean_algebraic.
    by rewrite Hc, Hd, has_identities_constant.
Qed.
End EmptyObjects.

Lemma range_nonpositive (n : Z) : n ≤ 0 → range n = [].
Proof. intros Hn. unfold range, seqZ. by replace (Z.to_nat n) with 0%nat by lia. Qed.

Lemma Field_post_init_empty (f : Field) :
  ord f ≤ 0 →
  Field_post_init f
  = Ok {| F_self := f; F__elements := ∅;
          F_identity_add := None; F_identity_mul := None |}.
Proof.
  intros Hord. unfold Field_post_init. by rewrite range_nonpositive.
Qed.

Lemma Structure_post_init_empty (s : Structure) :
  set s = ∅ →
  Structure_post_init s
  = Ok {| S_self := s; S__elements := ∅;
          S_identity_add := None; S_identity_mul := None |}.
Proof.
  intros Hset. unfold Structure_post_init. rewrite Hset.
  by rewrite elements_empty.
Qed.

(** X15. A Field of order [<= 0] and a Structure over the empty set are
    constructed without calling their operations; they have no elements
    and store no identity, every call of them raises ([ZeroDivisionError]
    for order [0], [KeyError] for a negative order, [ValueError] for the
    Structure), and every axiom predicate, [is_boolean_algebraic]
    included, returns [True] of them. *)
Theorem empty_objects_pass_every_predicate :
  (∀ f : Field, ord f ≤ 0 →
     ∃ o, Field_post_init f = Ok o ∧
          struct_elements o = [] ∧
          identity_add o = None ∧ identity_mul o = None ∧
          (∀ v, F_call o v = Raise (if decide (ord f = 0)
                                    then ZeroDivisionError else KeyError)) ∧
          is_commutative o = Ok true ∧ is_distributive o = Ok true ∧
          is_complementary o = Ok true ∧ no_zero_dividers o = Ok true ∧
          is_boolean_algebraic o = Ok true) ∧
  (∀ s : Structure, set s = ∅ →
     ∃ o, Structure_post_init s = Ok o ∧
          struct_elements o = [] ∧
          identity_add o = None ∧ identity_mul o = None ∧
          (∀ v, S_call o v = Raise ValueError) ∧
          is_commutative o = Ok true ∧ is_distributive o = Ok true ∧
          is_complementary o = Ok true ∧ no_zero_dividers o = Ok true ∧
          is_boolean_algebraic o = Ok true).
Proof.
  split.
  - intros f Hord. eexists. split; [by apply Field_post_init_empty|].
    split; [done|]. split; [done|]. split; [done|]. split.
    + intros v. unfold F_call, py_mod. cbn [F_self].
      case_decide as H0.
      * by rewrite H0.
      * apply Z.eqb_neq in H0. by rewrite H0.
    + by apply (empty_predicates (H:=FieldObj_like)).
  - intros s Hset. eexists. split; [by apply Structure_post_init_empty|].
    split; [done|]. split; [done|]. split; [done|]. split; [done|].
    by apply (empty_predicates (H:=StructureObj_like)).
Qed.

Lemma empty_objects_pass_every_predicate_witness :
  ∃ o, Z0 = Ok o ∧ F_call o 3 = Raise ZeroDivisionError ∧
       is_boolean_algebraic o = Ok true.
Proof.
  destruct empty_objects_pass_every_predicate as [HF _].
  destruct (HF {| F_name := "Z0"; ord := 0;
                  F_add := operator_add; F_mul := operator_mul |})
    as (o & Ho & _ & _ & _ & Hcall & _ & _ & _ & _ & Hb); [simpl; lia|].
  exists o. split; [exact Ho|]. split; [apply Hcall | exact Hb].
Defined.

(** ** Gates *)

Lemma GATES_dom : dom gates.GATES = list_to_set (seqZ 0 16).
Proof. unfold gates.GATES. rewrite dom_list_to_map_L. reflexivity. Qed.

Lemma GATES_lookup (k a b : Z) :
  0 ≤ k < 16 → a = 0 ∨ a = 1 → b = 0 ∨ b = 1 →
  ∃ g, gates.GATES !! k = Some g ∧
       g a b = Ok (Z.b2z (Z.testbit k (3 - (2 * a + b)))).
Proof.
  intros Hk Ha Hb.
  assert (k = 0 ∨ k = 1 ∨ k = 2 ∨ k = 3 ∨ k = 4 ∨ k = 5 ∨ k = 6 ∨ k = 7 ∨
          k = 8 ∨ k = 9 ∨ k = 10 ∨ k = 11 ∨ k = 12 ∨ k = 13 ∨ k = 14 ∨
          k = 15) as Hcases by lia.
  repeat (destruct Hcases as [->|Hcases]); try subst k;
    (eexists; split; [reflexivity|]);
    destruct Ha as [-> | ->], Hb as [-> | ->]; reflexivity.
Qed.

(** X16. The key of every entry of [GATES] is the output column of its
    gate: for inputs [a] and [b] in [{0, 1}], [GATES[k](a, b)] is the bit
    of [k] at position [3 - (2a + b)], the row of [(a, b)] in binary order
    counted from the most significant bit.  The keys are exactly [0]
    to [15]. *)
Theorem GATES_keys_are_output_columns (k a b : Z) :
  (0 ≤ k < 16 → (a = 0 ∨ a = 1) → (b = 0 ∨ b = 1) →
   ∃ g, gates.GATES !! k = Some g ∧
        g a b = Ok (Z.b2z (Z.testbit k (3 - (2 * a + b))))) ∧
  (gates.GATES !! k = None ↔ ¬ 0 ≤ k < 16).
Proof.
  split; [apply GATES_lookup|].
  rewrite <- not_elem_of_dom, GATES_dom, elem_of_list_to_set, elem_of_seqZ.
  split; intros Hk; lia.
Qed.

Lemma GATES_keys_are_output_columns_witness :
  ∃ g, gates.GATES !! 6 = Some g ∧ g 1 0 = Ok 1 ∧ g 1 1 = Ok 0.
Proof.
  destruct (GATES_keys_are_output_columns 6 1 0) as [H10 _].
  destruct (GATES_keys_are_output_columns 6 1 1) as [H11 _].
  destruct H10 as (g & Hg & Hv); [lia | by right | by left |].
  destruct H11 as (g' & Hg' & Hv'); [lia | by right | by right |].
  exists g. split; [exact Hg|]. split; [exact Hv|].
  rewrite Hg in Hg'. injection Hg' as <-. exact Hv'.
Defined.

(** X17. The binary gates that [functional_complete/nand.py] builds from
    [NAND] alone compute, on inputs in [{0, 1}], the gates they are named
    after: [NAND_AND] is [AND], [NAND_OR] is [OR], [NAND_NOR] is [NOR],
    [NAND_XOR] is [XOR], [NAND_XNOR] is [XNOR] and [NAND_NAND] is
    [NAND]. *)
Theorem NAND_binary_gates (a b : Z) :
  a = 0 ∨ a = 1 → b = 0 ∨ b = 1 →
  gates.NAND_AND a b = AND a b ∧
  gates.NAND_OR a b = OR a b ∧
  gates.NAND_NOR a b = NOR a b ∧
  gates.NAND_XOR a b = gates.XOR a b ∧
  gates.NAND_XNOR a b = gates.XNOR a b ∧
  gates.NAND_NAND a b = gates.NAND a b.
Proof.
  intros [-> | ->] [-> | ->]; repeat split; reflexivity.
Qed.

Lemma NAND_binary_gates_witness :
  gates.NAND_XOR 1 0 = Ok 1 ∧ gates.NAND_NOR 1 0 = Ok 0.
Proof.
  destruct (NAND_binary_gates 1 0) as (_ & _ & Hnor & Hxor & _);
    [by right | by left |].
  split; [exact Hxor | exact Hnor].
Defined.

(** X24. The other gates built from [NAND], on inputs in [{0, 1}]:
    [TNAND] is the negated conjunction of its three inputs, [MUX] selects
    its first input when [S] is [0] and its second otherwise, [DEMUX]
    routes [A] to its first output when [S] is [0] and to its second
    otherwise, and [NAND_NOT] and [NAND_ID], which share their body, are
    both [NOT]. *)
Theorem NAND_selectors (a b c : Z) :
  a = 0 ∨ a = 1 → b = 0 ∨ b = 1 → c = 0 ∨ c = 1 →
  gates.TNAND a b c
  = Ok (int_of_bool (negb ((a =? 1) && (b =? 1) && (c =? 1)))) ∧
  gates.MUX a b c = Ok (if c =? 0 then a else b) ∧
  gates.DEMUX a c = Ok (if c =? 0 then (a, 0) else (0, a)) ∧
  gates.NAND_NOT a = NOT a ∧
  gates.NAND_ID a = NOT a.
Proof.
  intros [-> | ->] [-> | ->] [-> | ->]; repeat split; reflexivity.
Qed.

Lemma NAND_selectors_witness :
  gates.MUX 1 0 1 = Ok 0 ∧ gates.DEMUX 1 1 = Ok (0, 1) ∧
  gates.NAND_ID 1 = Ok 0.
Proof.
  destruct (NAND_selectors 1 0 1) as (_ & Hmux & Hdemux & _ & Hid);
    [by right | by left | by right |].
  split; [exact Hmux|]. split; [exact Hdemux | exact Hid].
Defined.

(** ** Rendering of the canonical forms *)

(** The doctests of [canonical.py]. *)
Example doctest_nor3_rendering :
  (do b <- B; DNF_ascii (DNF b nor3)) = Ok "-x*-y*-z"%string ∧
  (do b <- B; DNF_str (DNF b nor3)) = Ok "x̄ȳz̄"%string ∧
  (do b <- B; CNF_ascii (CNF b nor3))
  = Ok "(x+y+-z) * (x+-y+z) * (x+-y+-z) * (-x+y+z) * (-x+y+-z) * (-x+-y+z) * (-x+-y+-z)"%string ∧
  (do b <- B; CNF_str (CNF b nor3))
  = Ok "(x+y+z̄)(x+ȳ+z)(x+ȳ+z̄)(x̄+y+z)(x̄+y+z̄)(x̄+ȳ+z)(x̄+ȳ+z̄)"%string.
Proof. repeat split; vm_compute; reflexivity. Qed.

Example doctest_formula_2_rendering :
  (do b <- B; DNF_str (DNF b doctest_formula_2)) = Ok "xȳz̄+xyz̄"%string ∧
  (do b <- B; CNF_str (CNF b doctest_formula_2))
  = Ok "(x+y+z)(x+y+z̄)(x+ȳ+z)(x+ȳ+z̄)(x̄+y+z̄)(x̄+ȳ+z̄)"%string.
Proof. split; vm_compute; reflexivity. Qed.

Example doctest_formula_3_rendering :
  (do b <- B; DNF_str (DNF b doctest_formula_3))
  = Ok "x̄ȳz̄+x̄yz̄+xȳz̄+xȳz+xyz̄+xyz"%string ∧
  (do b <- B; CNF_str (CNF b doctest_formula_3)) = Ok "(x+y+z̄)(x+ȳ+z̄)"%string.
Proof. split; vm_compute; reflexivity. Qed.

Lemma zip_with_B_row {A : Type} (g : string → bool → A)
    (params : list string) (t : list Element) :
  B_row t →
  zip_with (fun x op => g x (El_bool op)) params t
  = zip_with (fun x e => g x (value e =? 1)) params t.
Proof.
  intros Hrow. revert params.
  induction Hrow as [|e t He Hrow IH]; intros [|x params]; try done.
  cbn [zip_with]. rewrite IH. f_equal.
  apply elem_of_cons in He as [->|He];
    [|apply list_elem_of_singleton in He as ->]; done.
Qed.

Lemma zip_with_complement {A : Type} (g : string → bool → A)
    (params : list string) (t : list Element) :
  zip_with (fun x op => g x (truthy op)) params (complement t)
  = zip_with (fun x e => g x (value e =? 0)) params t.
Proof.
  unfold complement. rewrite zip_with_fmap_r.
  apply zip_with_ext; [|done..]. intros x e.
  by destruct (value e =? 0).
Qed.

(** X18. Over the Boolean structure, for a formula that returns on every
    row: [DNF.ascii] and [DNF.__str__] print, in the order of the rows,
    one product for each row on which the formula is true, with a variable
    negated exactly when it is [0] in the row; [CNF.ascii] and
    [CNF.__str__] print one clause for each row on which it is false, with
    a variable negated exactly when it is [1] in the row. *)
Theorem renderings_follow_the_rows (b : StructureObj) (f : Formula) :
  B = Ok b →
  (∀ t, t ∈ operands b (length (parameters f)) → ∃ r, apply f t = Ok r) →
  DNF_ascii (DNF b f)
  = Ok (join " + "
          ((fun t => join "*" (zip_with
                                 (fun x e => literal_ascii x (value e =? 1))
                                 (parameters f) t))
             <$> filter (fun t => truth f t = true)
                        (operands b (length (parameters f))))) ∧
  DNF_str (DNF b f)
  = Ok (join "+"
          ((fun t => join "" (zip_with
                                (fun x e => literal_str x (value e =? 1))
                                (parameters f) t))
             <$> filter (fun t => truth f t = true)
                        (operands b (length (parameters f))))) ∧
  CNF_ascii (CNF b f)
  = Ok (join " * "
          ((fun t => "(" +:+
                     join "+" (zip_with
                                 (fun x e => literal_ascii x (value e =? 0))
                                 (parameters f) t)
                     +:+ ")")
             <$> filter (fun t => truth f t = false)
                        (operands b (length (parameters f))))) ∧
  CNF_str (CNF b f)
  = Ok (join ""
          ((fun t => "(" +:+
                     join "+" (zip_with
                                 (fun x e => literal_str x (value e =? 0))
                                 (parameters f) t)
                     +:+ ")")
             <$> filter (fun t => truth f t = false)
                        (operands b (length (parameters f))))).
Proof.
  intros Hb Htotal.
  assert (∀ t, t ∈ operands b (length (parameters f)) → B_row t) as Hrows.
  { intros t Ht. by apply (B_rows b _ t Hb) in Ht as [_ ?]. }
  unfold DNF_ascii, DNF_str, CNF_ascii, CNF_str, DNF_iter, CNF_iter, arity.
  cbn [struct formula DNF CNF].
  rewrite minterms_filter by done.
  rewrite maxterms_filter by (intros t Ht; split; [by apply Hrows | by apply Htotal]).
  cbn [bind]. rewrite <- !list_fmap_compose.
  repeat split; do 2 f_equal.
  - apply list_fmap_ext. intros i t Hi. apply list_elem_of_lookup_2 in Hi.
    apply list_elem_of_filter in Hi as [_ Hi].
    by rewrite (zip_with_B_row (fun x c => literal_ascii x c)) by by apply Hrows.
  - apply list_fmap_ext. intros i t Hi. apply list_elem_of_lookup_2 in Hi.
    apply list_elem_of_filter in Hi as [_ Hi].
    by rewrite (zip_with_B_row (fun x c => literal_str x c)) by by apply Hrows.
  - apply list_fmap_ext. intros i t Hi. cbn [compose].
    by rewrite (zip_with_complement (fun x c => literal_ascii x c)).
  - apply list_fmap_ext. intros i t Hi. cbn [compose].
    by rewrite (zip_with_complement (fun x c => literal_str x c)).
Qed.

Lemma renderings_follow_the_rows_witness :
  ∃ b, B = Ok b ∧
       DNF_ascii (DNF b or3)
       = Ok (join " + "
               ((fun t => join "*" (zip_with
                                      (fun x e =>
                                         literal_ascii x (value e =? 1))
                                      (parameters or3) t))
                  <$> filter (fun t => truth or3 t = true)
                             (operands b (length (parameters or3))))).
Proof.
  destruct (run_eq B (fun _ => tt) tt) as (b & Hb & _);
    [vm_compute; reflexivity|].
  exists b. split; [done|].
  destruct (renderings_follow_the_rows b or3 Hb) as (H1 & _); [|exact H1].
  intros t Ht. apply (B_rows b _ t Hb) in Ht as [Hlen Hrow].
  destruct t as [|x [|y [|z [|? ?]]]]; try discriminate.
  cbn [apply or3]. unfold El_add.
  apply Forall_cons in Hrow as [Hx Hrow].
  apply Forall_cons in Hrow as [Hy Hrow].
  apply Forall_cons in Hrow as [Hz _].
  repeat match goal with
         | H : _ ∈ [Bel 0; Bel 1] |- _ =>
             apply elem_of_cons in H as [->|H];
             [|apply list_elem_of_singleton in H as ->]
         end; by eexists.
Defined.

(** ** Canonical forms of an object that lacks an identity *)

Section MissingIdentity.
Context {T : Type} `{StructLike T}.

Lemma DNF_sum_no_minterm (cf : CanonicalForm T) (acc : Element)
    (rows : list (list Element)) :
  (∀ t, t ∈ rows → apply (formula cf) t = Ok false) →
  DNF_sum cf acc rows = Ok acc.
Proof.
  induction rows as [|t rows IH]; intros Hf; [done|].
  cbn [DNF_sum]. rewrite (Hf t) by left. cbn [bind].
  apply IH. intros t' Ht'. apply Hf. by right.
Qed.

Lemma DNF_sum_no_one (cf : CanonicalForm T) (acc : Element)
    (rows : list (list Element)) :
  identity_mul (struct cf) = None →
  (∀ t, t ∈ rows → ∃ r, apply (formula cf) t = Ok r) →
  (∃ t, t ∈ rows ∧ apply (formula cf) t = Ok true) →
  DNF_sum cf acc rows = Raise AttributeError.
Proof.
  intros Hone. induction rows as [|t rows IH]; intros Htotal (t0 & Ht0 & Htrue);
    [inversion Ht0|].
  cbn [DNF_sum]. destruct (Htotal t) as [[|] Hr]; [by left| |];
    rewrite Hr; cbn [bind].
  - by rewrite Hone.
  - apply IH.
    + intros t' Ht'. apply Htotal. by right.
    + apply elem_of_cons in Ht0 as [->|Ht0]; [congruence|]. by exists t0.
Qed.

Lemma CNF_prod_no_maxterm (cf : CanonicalForm T) (acc : Element)
    (rows : list (list Element)) :
  (∀ t, t ∈ rows → apply (formula cf) t = Ok true) →
  CNF_prod cf acc rows = Ok acc.
Proof.
  induction rows as [|t rows IH]; intros Hf; [done|].
  cbn [CNF_prod]. rewrite (Hf t) by left. cbn [bind].
  apply IH. intros t' Ht'. apply Hf. by right.
Qed.

Lemma CNF_prod_no_zero (cf : CanonicalForm T) (acc : Element)
    (rows : list (list Element)) :
  identity_add (struct cf) = None →
  (∀ t, t ∈ rows → ∃ r, apply (formula cf) t = Ok r) →
  (∀ t, t ∈ rows → ∃ term, map_m El_neg t = Ok term) →
  (∃ t, t ∈ rows ∧ apply (formula cf) t = Ok false) →
  CNF_prod cf acc rows = Raise AttributeError.
Proof.
  intros Hzero.
  induction rows as [|t rows IH]; intros Htotal Hneg (t0 & Ht0 & Hfalse);
    [inversion Ht0|].
  cbn [CNF_prod]. destruct (Htotal t) as [[|] Hr]; [by left| |];
    rewrite Hr; cbn [bind].
  - apply IH.
    + intros t' Ht'. apply Htotal. by right.
    + intros t' Ht'. apply Hneg. by right.
    + apply elem_of_cons in Ht0 as [->|Ht0]; [congruence|]. by exists t0.
  - destruct (Hneg t) as [term Hterm]; [by left|].
    rewrite Hterm. cbn [bind]. by rewrite Hzero.
Qed.

(** X19. Calling a canonical form of an object that lacks an identity:
    [DNF.__call__] raises [AttributeError] at once without the additive
    identity, and [CNF.__call__] without the multiplicative one.  With only
    the other identity missing the error comes with the first term: a
    formula without minterms still reduces to the additive identity, and
    one with a minterm raises; dually for [CNF.__call__]. *)
Theorem canonical_call_without_identity (o : T) (f : Formula) :
  (∀ t, t ∈ operands o (length (parameters f)) → ∃ r, apply f t = Ok r) →
  (identity_add o = None → DNF_call (DNF o f) = Raise AttributeError) ∧
  (identity_mul o = None → CNF_call (CNF o f) = Raise AttributeError) ∧
  (∀ zero, identity_add o = Some zero → identity_mul o = None →
     ((∀ t, t ∈ operands o (length (parameters f)) → apply f t = Ok false) →
      DNF_call (DNF o f) = Ok zero) ∧
     ((∃ t, t ∈ operands o (length (parameters f)) ∧ apply f t = Ok true) →
      DNF_call (DNF o f) = Raise AttributeError)) ∧
  (∀ one, identity_mul o = Some one → identity_add o = None →
     ((∀ t, t ∈ operands o (length (parameters f)) → apply f t = Ok true) →
      CNF_call (CNF o f) = Ok one) ∧
     ((∀ t, t ∈ operands o (length (parameters f)) →
            ∃ term, map_m El_neg t = Ok term) →
      (∃ t, t ∈ operands o (length (parameters f)) ∧ apply f t = Ok false) →
      CNF_call (CNF o f) = Raise AttributeError)).
Proof.
  intros Htotal. unfold DNF_call, CNF_call, arity. cbn [struct formula DNF CNF].
  split; [by intros ->|]. split; [by intros ->|]. split.
  - intros zero -> Hone. cbn [attr_identity bind]. split.
    + intros Hf. by apply DNF_sum_no_minterm.
    + intros Hex. by apply DNF_sum_no_one.
  - intros one -> Hzero. cbn [attr_identity bind]. split.
    + intros Hf. by apply CNF_prod_no_maxterm.
    + intros Hneg Hex. by apply CNF_prod_no_zero.
Qed.
End MissingIdentity.

Lemma canonical_call_without_identity_witness :
  ∃ o, no_identity = Ok o ∧
       DNF_call (DNF o {| parameters := ["x"%string];
                          apply := fun _ => Ok true |})
       = Raise AttributeError ∧
       CNF_call (CNF o {| parameters := ["x"%string];
                          apply := fun _ => Ok true |})
       = Raise AttributeError.
Proof.
  destruct (run_eq no_identity
              (fun o => (match identity_add o with None => true | _ => false end,
                         match identity_mul o with None => true | _ => false end))
              (true, true))
    as (o & Ho & Hk); [vm_compute; reflexivity|].
  exists o. split; [done|].
  destruct (canonical_call_without_identity
              o {| parameters := ["x"%string]; apply := fun _ => Ok true |})
    as (HD & HC & _); [intros t _; by eexists|].
  split; [apply HD | apply HC].
  - destruct (identity_add o); [discriminate Hk | done].
  - destruct (identity_mul o); [|done].
    destruct (identity_add o); discriminate Hk.
Defined.

(** ** Construction runs the operations *)

Lemma search_total (op : Element → PyVal → result Element)
    (els : list Element) :
  (∀ x y, x ∈ els → y ∈ els → ∃ r, op x (VElem y) = Ok r) →
  ∃ r, next_m (fun x => all_m (fun y => do s <- op x (VElem y);
                                        El_eq s (VElem y)) els) els = Ok r.
Proof.
  intros Hop. apply next_m_total. intros x Hx.
  apply all_m_total. intros y Hy.
  destruct (Hop x y Hx Hy) as [r ->]. by eexists.
Qed.

Lemma search_raises (op : Element → PyVal → result Element) (e : exn)
    (els : list Element) :
  els ≠ [] →
  (∀ x y, x ∈ els → y ∈ els → op x (VElem y) = Raise e) →
  next_m (fun x => all_m (fun y => do s <- op x (VElem y);
                                   El_eq s (VElem y)) els) els = Raise e.
Proof.
  intros Hne Hop. destruct els as [|x els]; [done|].
  cbn [next_m all_m]. by rewrite (Hop x x) by left.
Qed.

Lemma Field_post_init_total (f : Field) :
  0 < ord f →
  (∀ a b, 0 ≤ a < ord f → 0 ≤ b < ord f → ∃ c, F_add f a b = Ok c) →
  (∀ a b, 0 ≤ a < ord f → 0 ≤ b < ord f → ∃ c, F_mul f a b = Ok c) →
  ∃ o, Field_post_init f = Ok o.
Proof.
  intros Hord Hadd Hmul. unfold Field_post_init.
  assert (∀ k, F_generate_element f k
               = Ok {| instance := OfField f; value := k `mod` ord f |})
    as Hgen.
  { intros k. unfold F_generate_element, El_make, py_mod.
    by rewrite (proj2 (Z.eqb_neq (ord f) 0)) by lia. }
  destruct (dict_comp_total (F_generate_element f) (range (ord f)))
    as [m Hm]; [intros k _; rewrite Hgen; by eexists|].
  rewrite Hm. cbn [bind].
  assert (∀ x, x ∈ dict_values m →
            ∃ k, 0 ≤ k < ord f ∧ x = {| instance := OfField f; value := k |})
    as Hels.
  { intros x Hx. apply elem_of_dict_values in Hx as [k Hk].
    apply (dict_comp_lookup _ _ _ Hm) in Hk as [Hin Hk].
    apply elem_of_seqZ in Hin. rewrite Hgen in Hk. injection Hk as <-.
    exists k. split; [lia|]. by rewrite Z.mod_small by lia. }
  assert (∀ v, El_make (OfField f) v
               = Ok {| instance := OfField f; value := v `mod` ord f |})
    as Hmake by exact Hgen.
  destruct (search_total El_add (dict_values m)) as [za Hza].
  { intros x y Hx Hy. apply Hels in Hx as (a & Ha & ->).
    apply Hels in Hy as (b & Hb & ->). unfold El_add.
    cbn [get_value bind value instance instance_add].
    destruct (Hadd a b Ha Hb) as [c ->]. cbn [bind]. rewrite Hmake.
    by eexists. }
  destruct (search_total El_mul (dict_values m)) as [zm Hzm].
  { intros x y Hx Hy. apply Hels in Hx as (a & Ha & ->).
    apply Hels in Hy as (b & Hb & ->). unfold El_mul.
    cbn [get_value bind value instance instance_mul].
    destruct (Hmul a b Ha Hb) as [c ->]. cbn [bind]. rewrite Hmake.
    by eexists. }
  unfold find_additive_identity, find_multiplicative_identity.
  rewrite Hza, Hzm. by eexists.
Qed.

Lemma Structure_post_init_elements (s : Structure) :
  ∃ m, dict_comp (S_generate_element s) (elements (set s)) = Ok m ∧
       (set s ≠ ∅ → dict_values m ≠ []) ∧
       ∀ x, x ∈ dict_values m →
            ∃ k, k ∈ set s ∧ x = {| instance := OfStructure s; value := k |}.
Proof.
  destruct (dict_comp_total (S_generate_element s) (elements (set s)))
    as [m Hm].
  { intros k Hk. apply elem_of_elements in Hk.
    unfold S_generate_element. rewrite decide_True by done. by eexists. }
  exists m. split; [done|]. split.
  - intros Hne Hnil. apply Hne. apply set_eq. intros k.
    split; [|by intros ?%not_elem_of_empty]. intros Hk. exfalso.
    assert ({| instance := OfStructure s; value := k |} ∈ dict_values m)
      as Hin.
    { apply elem_of_dict_values. exists k.
      apply (dict_comp_lookup _ _ _ Hm). split; [by apply elem_of_elements|].
      unfold S_generate_element. by rewrite decide_True. }
    rewrite Hnil in Hin. inversion Hin.
  - intros x Hx. apply elem_of_dict_values in Hx as [k Hk].
    apply (dict_comp_lookup _ _ _ Hm) in Hk as [Hin Hgen].
    apply elem_of_elements in Hin. exists k. split; [done|].
    unfold S_generate_element in Hgen. rewrite decide_True in Hgen by done.
    by injection Hgen as <-.
Qed.

Lemma Structure_post_init_add_raises (s : Structure) (e : exn) :
  set s ≠ ∅ →
  (∀ a b, a ∈ set s → b ∈ set s → add s a b = Raise e) →
  Structure_post_init s = Raise e.
Proof.
  intros Hne Hadd. unfold Structure_post_init.
  destruct (Structure_post_init_elements s) as (m & -> & Hnil & Hels).
  cbn [bind]. unfold find_additive_identity.
  rewrite (search_raises El_add e); [done|by apply Hnil|].
  intros x y Hx Hy. apply Hels in Hx as (a & Ha & ->).
  apply Hels in Hy as (b & Hb & ->). unfold El_add.
  cbn [get_value bind value instance instance_add].
  by rewrite Hadd.
Qed.

Lemma Structure_post_init_mul_raises (s : Structure) (e : exn) :
  set s ≠ ∅ →
  (∀ a b, a ∈ set s → b ∈ set s → ∃ c, add s a b = Ok c) →
  (∀ a b, a ∈ set s → b ∈ set s → mul s a b = Raise e) →
  Structure_post_init s = Raise e.
Proof.
  intros Hne Hadd Hmul. unfold Structure_post_init.
  destruct (Structure_post_init_elements s) as (m & -> & Hnil & Hels).
  cbn [bind]. unfold find_additive_identity, find_multiplicative_identity.
  destruct (search_total El_add (dict_values m)) as [za ->].
  { intros x y Hx Hy. apply Hels in Hx as (a & Ha & ->).
    apply Hels in Hy as (b & Hb & ->). unfold El_add.
    cbn [get_value bind value instance instance_add].
    destruct (Hadd a b Ha Hb) as [c ->]. by eexists. }
  cbn [bind].
  rewrite (search_raises El_mul e); [done|by apply Hnil|].
  intros x y Hx Hy. apply Hels in Hx as (a & Ha & ->).
  apply Hels in Hy as (b & Hb & ->). unfold El_mul.
  cbn [get_value bind value instance instance_mul].
  by rewrite Hmul.
Qed.

(** X20. The constructors run the operations while they search for the
    identities.  A Structure, and a Field of positive order, is constructed
    whenever [add] and [mul] return on the carrier values, closed or not;
    a Structure over a non-empty set whose [add] raises is not
    constructed, the exception of [add] comes out of the constructor, and
    so does that of [mul] when [add] returns. *)
Theorem construction_runs_the_operations :
  (∀ s : Structure,
     (∀ a b, a ∈ set s → b ∈ set s → ∃ c, add s a b = Ok c) →
     (∀ a b, a ∈ set s → b ∈ set s → ∃ c, mul s a b = Ok c) →
     ∃ o, Structure_post_init s = Ok o) ∧
  (∀ f : Field,
     0 < ord f →
     (∀ a b, 0 ≤ a < ord f → 0 ≤ b < ord f → ∃ c, F_add f a b = Ok c) →
     (∀ a b, 0 ≤ a < ord f → 0 ≤ b < ord f → ∃ c, F_mul f a b = Ok c) →
     ∃ o, Field_post_init f = Ok o) ∧
  (∀ (s : Structure) (e : exn),
     set s ≠ ∅ →
     (∀ a b, a ∈ set s → b ∈ set s → add s a b = Raise e) →
     Structure_post_init s = Raise e) ∧
  (∀ (s : Structure) (e : exn),
     set s ≠ ∅ →
     (∀ a b, a ∈ set s → b ∈ set s → ∃ c, add s a b = Ok c) →
     (∀ a b, a ∈ set s → b ∈ set s → mul s a b = Raise e) →
     Structure_post_init s = Raise e).
Proof.
  split; [exact Structure_post_init_total|].
  split; [exact Field_post_init_total|].
  split; [exact Structure_post_init_add_raises|].
  exact Structure_post_init_mul_raises.
Qed.

Lemma construction_runs_the_operations_witness :
  Structure_new "Q" {[2; 3]} lcm (fun a b => py_floordiv a 0) NOT
  = Raise ZeroDivisionError ∧
  ∃ o, Structure_new "L" {[2; 3]} lcm gcd NOT = Ok o.
Proof.
  destruct construction_runs_the_operations as (Htotal & _ & _ & Hmul).
  split.
  - apply Hmul.
    + cbn [set]. intros Hempty.
      assert ((2 : Z) ∈ ({[2; 3]} : gset Z)) as Hin
        by (apply elem_of_union; left; by apply elem_of_singleton).
      rewrite Hempty in Hin. by apply not_elem_of_empty in Hin.
    + intros a b _ _. by eexists.
    + by intros a b _ _.
  - apply Htotal; intros a b _ _; by eexists.
Defined.

(** ** Exponent laws in the integers modulo [n] *)

Lemma Zmod_El_pow (name : string) (n : Z) (o : FieldObj) (b e : Z) :
  2 ≤ n → Field_new name n operator_add operator_mul = Ok o →
  El_pow (Zmod_el name n b) e = pow o (Zmod_el name n b) e.
Proof.
  intros Hn Ho. unfold El_pow. cbn [instance Zmod_el].
  unfold Field_new in Ho. unfold Zmod_fields at 1. by rewrite Ho.
Qed.

(** X21. In the integers modulo [n >= 2], for non-negative exponents,
    [x ** e] is the element of value [x.value ** e % n], and the
    square-and-multiply loop obeys the exponent laws:
    [x ** e1 * x ** e2 == x ** (e1 + e2)] and
    [(x ** e1) ** e2 == x ** (e1 * e2)]. *)
Theorem Zmod_exponent_laws (name : string) (n : Z) (o : FieldObj)
    (b e1 e2 : Z) :
  2 ≤ n → Field_new name n operator_add operator_mul = Ok o →
  0 ≤ b < n → 0 ≤ e1 → 0 ≤ e2 →
  El_pow (Zmod_el name n b) e1
  = Ok (VElem (Zmod_el name n (b ^ e1 `mod` n))) ∧
  (do p <- El_pow (Zmod_el name n b) e1;
   do q <- El_pow (Zmod_el name n b) e2;
   py_mul p q)
  = El_pow (Zmod_el name n b) (e1 + e2) ∧
  El_pow (Zmod_el name n (b ^ e1 `mod` n)) e2
  = El_pow (Zmod_el name n b) (e1 * e2).
Proof.
  intros Hn Ho Hb He1 He2.
  assert (0 ≤ b ^ e1 `mod` n < n) as Hb1 by (apply Z.mod_pos_bound; lia).
  rewrite !(Zmod_El_pow name n o _ _ Hn Ho).
  rewrite !(Zmod_pow name n o Hn Ho) by (done || lia).
  split; [done|]. split.
  - cbn [bind py_mul]. rewrite Zmod_mul by lia. cbn [bind].
    do 3 f_equal. by rewrite <- Z.mul_mod, Z.pow_add_r by lia.
  - do 3 f_equal. rewrite Z.pow_mul_r by lia.
    symmetry. apply Zpower_mod. lia.
Qed.

Lemma Zmod_exponent_laws_witness :
  ∃ o, GF7 = Ok o ∧
       El_pow (Zmod_el "GF7" 7 3) 4 = Ok (VElem (Zmod_el "GF7" 7 4)) ∧
       El_pow (Zmod_el "GF7" 7 (3 ^ 2 `mod` 7)) 2
       = El_pow (Zmod_el "GF7" 7 3) (2 * 2).
Proof.
  destruct (run_eq GF7 (fun _ => tt) tt) as (o & Ho & _);
    [vm_compute; reflexivity|].
  exists o. split; [done|].
  destruct (Zmod_exponent_laws "GF7" 7 o 3 4 0) as (H1 & _);
    [lia | exact Ho | lia..|].
  destruct (Zmod_exponent_laws "GF7" 7 o 3 2 2) as (_ & _ & H2);
    [lia | exact Ho | lia..|].
  split; [exact H1 | exact H2].
Defined.

(** ** Results of the operators and the carrier *)

Lemma all_m_finds_false {A : Type} (p : A → result bool) (l : list A) :
  (∀ a, a ∈ l → ∃ b, p a = Ok b) →
  (∃ a, a ∈ l ∧ p a = Ok false) →
  all_m p l = Ok false.
Proof.
  induction l as [|a l IH]; intros Htotal (a0 & Ha0 & Hfalse);
    [inversion Ha0|].
  cbn [all_m]. destruct (Htotal a) as [[|] Hb]; [by left| |];
    rewrite Hb; cbn [bind]; [|done].
  apply IH.
  - intros a' Ha'. apply Htotal. by right.
  - apply elem_of_cons in Ha0 as [->|Ha0]; [congruence|]. by exists a0.
Qed.

Lemma Field_result_in_elements (f : Field) (o : FieldObj) (v : Z)
    (r : Element) :
  Field_post_init f = Ok o → 0 < ord f →
  El_make (OfField f) v = Ok r →
  r ∈ struct_elements o ∧ F_call o (value r) = Ok r.
Proof.
  intros Ho Hord Hr. unfold El_make, py_mod in Hr.
  rewrite (proj2 (Z.eqb_neq (ord f) 0)) in Hr by lia.
  cbn [bind] in Hr. injection Hr as <-. cbn [value].
  pose proof (Z.mod_pos_bound v (ord f) Hord) as Hv. split.
  - apply (elem_of_Field_elements f o _ Ho). by exists (v `mod` ord f).
  - rewrite (F_call_reduces f o _ Ho Hord). by rewrite Z.mod_mod by lia.
Qed.

Lemma Structure_result_in_elements (s : Structure) (o : StructureObj)
    (v : Z) :
  Structure_post_init s = Ok o →
  ({| instance := OfStructure s; value := v |} ∈ struct_elements o
   ↔ v ∈ set s) ∧
  (v ∉ set s → S_call o v = Raise ValueError).
Proof.
  intros Ho. split.
  - rewrite (elem_of_Structure_elements s o _ Ho). split.
    + by intros (k & Hk & [= ->]).
    + intros Hv. by exists v.
  - intros Hv. rewrite (S_call_lookup s o v Ho). by rewrite decide_False.
Qed.

(** X22. The operators of a Field reduce their result, so [x + y] and
    [x * y] of an element [x] of a constructed Field are again elements
    of it, whatever [add] and [mul] return and whatever [y] is; the
    operators of a Structure wrap the value unchecked, so the result is an
    element of the Structure exactly when [add] or [mul] returned a member
    of the declared set, and otherwise carries a value that the
    Structure's [__call__] rejects. *)
Theorem results_and_the_carrier :
  (∀ (f : Field) (o : FieldObj) (x : Element) (y : PyVal) (r : Element),
     Field_post_init f = Ok o → x ∈ struct_elements o →
     El_add x y = Ok r ∨ El_mul x y = Ok r →
     r ∈ struct_elements o ∧ F_call o (value r) = Ok r) ∧
  (∀ (s : Structure) (o : StructureObj) (x : Element) (y : PyVal)
     (r : Element),
     Structure_post_init s = Ok o → x ∈ struct_elements o →
     El_add x y = Ok r ∨ El_mul x y = Ok r →
     (r ∈ struct_elements o ↔ value r ∈ set s) ∧
     (value r ∉ set s → S_call o (value r) = Raise ValueError)).
Proof.
  split.
  - intros f o x y r Ho Hx Hr.
    apply (elem_of_Field_elements f o _ Ho) in Hx as (k & Hk & ->).
    assert (0 < ord f) as Hord by lia.
    unfold El_add, El_mul in Hr. cbn [instance value] in Hr.
    destruct Hr as [Hr|Hr]; bind_inv Hr; bind_inv Hr;
      by eapply Field_result_in_elements.
  - intros s o x y r Ho Hx Hr.
    apply (elem_of_Structure_elements s o _ Ho) in Hx as (k & Hk & ->).
    unfold El_add, El_mul in Hr. cbn [instance value El_make] in Hr.
    destruct Hr as [Hr|Hr]; bind_inv Hr; bind_inv Hr; injection Hr as <-;
      by apply Structure_result_in_elements.
Qed.

Lemma results_and_the_carrier_witness :
  ∃ o x y r,
    Structure_new "L" {[2; 3]} lcm gcd NOT = Ok o ∧
    x ∈ struct_elements o ∧ El_add x (VElem y) = Ok r ∧ value r = 6 ∧
    S_call o (value r) = Raise ValueError.
Proof.
  destruct (Structure_post_init_total
              {| name := "L"; set := {[2; 3]}; add := lcm; mul := gcd;
                 inv := NOT |}) as [o Ho]; [intros a b _ _; by eexists..|].
  destruct results_and_the_carrier as [_ HS].
  set (s := {| name := "L"; set := {[2; 3]}; add := lcm; mul := gcd;
               inv := NOT |}) in *.
  assert ((2 : Z) ∈ set s) as H2
    by (apply elem_of_union; left; by apply elem_of_singleton).
  assert ({| instance := OfStructure s; value := 2 |} ∈ struct_elements o)
    as Hx by (apply (elem_of_Structure_elements s o _ Ho); by exists 2).
  exists o, {| instance := OfStructure s; value := 2 |},
    {| instance := OfStructure s; value := 3 |},
    {| instance := OfStructure s; value := 6 |}.
  split; [exact Ho|]. split; [exact Hx|]. split; [reflexivity|].
  split; [reflexivity|].
  destruct (HS s o _ (VElem {| instance := OfStructure s; value := 3 |})
              {| instance := OfStructure s; value := 6 |} Ho Hx)
    as [_ Hcall]; [by left|].
  apply Hcall. cbn [value set s]. intros Hin.
  apply elem_of_union in Hin as [Hin|Hin];
    by apply elem_of_singleton in Hin.
Defined.

(** ** The integers modulo [n] are no Boolean algebra *)

Section ZmodNotBoolean.
Variable name : string.
Variable n : Z.
Variable o : FieldObj.
Hypothesis Hn : 2 ≤ n.
Hypothesis Ho : Field_new name n operator_add operator_mul = Ok o.

Lemma Zmod_distributes_total (x y z : Element) :
  x ∈ struct_elements o → y ∈ struct_elements o → z ∈ struct_elements o →
  ∃ b, distributes x y z = Ok b.
Proof.
  intros Hx Hy Hz.
  apply (Zmod_elements name n o Ho) in Hx as (a & Ha & ->).
  apply (Zmod_elements name n o Ho) in Hy as (b & Hb & ->).
  apply (Zmod_elements name n o Ho) in Hz as (c & Hc & ->).
  unfold distributes.
  repeat (rewrite ?Zmod_add, ?Zmod_mul by lia;
          cbn [bind El_eq get_value value Zmod_el]).
  destruct (_ =? _); by eexists.
Qed.

Lemma Zmod_not_distributive : is_distributive o = Ok false.
Proof.
  unfold is_distributive. apply all_m_finds_false.
  - intros t Ht. pose proof (operands_length o 3 t Ht) as Hl.
    destruct t as [|x [|y [|z [|? ?]]]]; try discriminate.
    apply triples_in_operands in Ht as (Hx & Hy & Hz).
    by apply Zmod_distributes_total.
  - exists [Zmod_el name n 1; Zmod_el name n 1; Zmod_el name n 0]. split.
    + apply triples_in_operands.
      repeat split; apply (Zmod_elements name n o Ho);
        eexists; (split; [|done]); lia.
    + unfold distributes.
      repeat (rewrite ?Zmod_add, ?Zmod_mul by lia;
              cbn [bind El_eq get_value value Zmod_el]).
      replace (1 * 0) with 0 by lia. replace (1 * 1) with 1 by lia.
      replace (1 + 0) with 1 by lia.
      rewrite (Z.mod_small 1), (Z.mod_0_l n) by lia.
      replace (1 * 0) with 0 by lia. replace (1 * 1) with 1 by lia.
      replace (1 + 0) with 1 by lia.
      rewrite ?(Z.mod_small 1), Z.eqb_refl by lia. cbv iota.
      f_equal. apply Z.eqb_neq.
      destruct (decide (n = 2)) as [->|Hn2]; [done|].
      rewrite (Z.mod_small (1 + 1)) by lia.
      replace ((1 + 1) * 1) with 2 by lia.
      rewrite (Z.mod_small 2) by lia. lia.
Qed.

Lemma Zmod_complements_false (x : Element) :
  x ∈ struct_elements o → complements o x = Ok false.
Proof.
  intros Hx. apply (Zmod_elements name n o Ho) in Hx as (a & Ha & ->).
  destruct (Zmod_getitem name n o Hn Ho) as [Hzero Hone].
  unfold complements. rewrite (Zmod_El_neg name n o Hn Ho a Ha).
  cbn [bind]. rewrite Zmod_add, Hone by lia.
  cbn [bind El_eq get_value value Zmod_el].
  rewrite Z.add_mod_idemp_r by lia. replace (a + - a) with 0 by lia.
  by rewrite Z.mod_0_l by lia.
Qed.

Lemma Zmod_not_complementary : is_complementary o = Ok false.
Proof.
  unfold is_complementary. apply all_m_finds_false.
  - intros x Hx. rewrite Zmod_complements_false by done. by eexists.
  - exists (Zmod_el name n 0). split.
    + apply (Zmod_elements name n o Ho). exists 0. split; [lia|done].
    + apply Zmod_complements_false.
      apply (Zmod_elements name n o Ho). exists 0. split; [lia|done].
Qed.
End ZmodNotBoolean.

(** X23. Every [Field(name, n, operator.add, operator.mul)] with [n >= 2]
    passes [is_commutative], and fails [is_distributive] (which also asks
    for [x + y * z == (x + y) * (x + z)]), [is_complementary] ([x + -x] is
    [0], not [1]) and hence [is_boolean_algebraic]: each returns
    [False]. *)
Theorem Zmod_is_not_boolean (name : string) (n : Z) (o : FieldObj) :
  2 ≤ n → Field_new name n operator_add operator_mul = Ok o →
  is_commutative o = Ok true ∧
  is_distributive o = Ok false ∧
  is_complementary o = Ok false ∧
  is_boolean_algebraic o = Ok false.
Proof.
  intros Hn Ho.
  pose proof (Zmod_commutative name n o Hn Ho) as Hc.
  pose proof (Zmod_not_distributive name n o Hn Ho) as Hd.
  split; [done|]. split; [done|].
  split; [exact (Zmod_not_complementary name n o Hn Ho)|].
  unfold is_boolean_algebraic. by rewrite Hc, Hd.
Qed.

Lemma Zmod_is_not_boolean_witness :
  ∃ o, GF2 = Ok o ∧ is_commutative o = Ok true ∧
       is_boolean_algebraic o = Ok false.
Proof.
  destruct (run_eq GF2 (fun _ => tt) tt) as (o & Ho & _);
    [vm_compute; reflexivity|].
  exists o. split; [done|].
  destruct (Zmod_is_not_boolean "GF2" 2 o) as (Hc & _ & _ & Hb);
    [lia | exact Ho |].
  split; [exact Hc | exact Hb].
Defined.
